(** * JavaScript endpoint scanner: the static analysis core

    A shallow embedding of [src/core/extract.js]: the endpoint recogniser
    ([EndpointVisitor]), the tree walker ([traverseAST]), the deduplicator
    ([deduplicateEndpoints]) and the taint tracker ([TaintAnalyzer],
    [TaintVisitor]), with the properties the specification states about
    them.

    Conventions.
    - JavaScript strings are [string]s; the code compares, splits and
      concatenates them and tests ASCII character classes.  Case mapping
      is that of the ASCII letters: [toUpperCase] and [toLowerCase] follow
      the program on strings whose cased letters are ASCII.
    - A JavaScript exception is the [Throw] branch of [completion].
    - [Map]s whose iteration order is observable are association lists in
      insertion order; the taint table, which is only looked up by key in
      the operations modelled here, is a [gmap].
    - A numeric literal of the tree is given by its integer value, and as
      a Number it is the double nearest to that value ([JsNumber]).
    - The call stack of the engine is a parameter of the walker that takes
      it into account ([Engine.traverseAST]).
    - Numbers of the confidence score are real numbers: rounding of IEEE
      doubles is not modelled. *)

From Stdlib Require Import Ascii String Reals Lra.
From stdpp Require Import base option list strings pretty gmap.

Set Default Proof Using "Type".

(** ** Completions: normal return or a thrown exception *)

Inductive js_error : Type :=
  | TypeError (message : string)
  | RangeError (message : string).

Inductive completion (A : Type) : Type :=
  | Return (a : A)
  | Throw (e : js_error).
Arguments Return {A} a.
Arguments Throw {A} e.

Definition cbind {A B} (c : completion A) (k : A → completion B) : completion B :=
  match c with
  | Return a => k a
  | Throw e => Throw e
  end.

#[global] Instance completion_ret : MRet completion := @Return.
#[global] Instance completion_bind : MBind completion :=
  fun A B k c => cbind c k.
#[global] Instance completion_fmap : FMap completion :=
  fun A B f c => cbind c (fun a => Return (f a)).

(** [try { ... } catch (e) { return null; }] *)
Definition try_or_null {A} (c : completion A) : option A :=
  match c with
  | Return a => Some a
  | Throw _ => None
  end.

(** ** String primitives of the JavaScript runtime *)

Module JsString.

Definition is_digit (c : ascii) : bool :=
  (48 <=? nat_of_ascii c)%nat && (nat_of_ascii c <=? 57)%nat.

Definition is_hex_lower (c : ascii) : bool :=
  (97 <=? nat_of_ascii c)%nat && (nat_of_ascii c <=? 102)%nat.

Fixpoint forallb_string (p : ascii → bool) (s : string) : bool :=
  match s with
  | EmptyString => true
  | String c s' => p c && forallb_string p s'
  end.

(** [/^\d+$/.test(s)] *)
Definition test_digits (s : string) : bool :=
  match s with
  | EmptyString => false
  | _ => forallb_string is_digit s
  end.

(** [/^[a-f0-9-]{36}$/.test(s)] *)
Definition test_uuid (s : string) : bool :=
  (String.length s =? 36)%nat
  && forallb_string (fun c => is_hex_lower c || is_digit c || Ascii.eqb c "-"%char) s.

(** [s.split(sep)] for a one-character separator. *)
Fixpoint split (sep : ascii) (s : string) : list string :=
  match s with
  | EmptyString => [EmptyString]
  | String c s' =>
      if Ascii.eqb c sep then EmptyString :: split sep s'
      else match split sep s' with
           | h :: t => String c h :: t
           | [] => [String c EmptyString]
           end
  end.

(** [parts.join(sep)] *)
Fixpoint join (sep : string) (parts : list string) : string :=
  match parts with
  | [] => EmptyString
  | [p] => p
  | p :: rest => p +:+ sep +:+ join sep rest
  end.

(** [s.startsWith(p)] *)
Fixpoint startsWith (p s : string) : bool :=
  match p, s with
  | EmptyString, _ => true
  | String a p', String b s' => Ascii.eqb a b && startsWith p' s'
  | String _ _, EmptyString => false
  end.

(** [s.includes(p)] *)
Fixpoint includes (p s : string) : bool :=
  startsWith p s ||
  match s with
  | EmptyString => false
  | String _ s' => includes p s'
  end.

(** [s.endsWith(c)] for a one-character suffix. *)
Fixpoint endsWithChar (c : ascii) (s : string) : bool :=
  match s with
  | EmptyString => false
  | String a EmptyString => Ascii.eqb a c
  | String _ s' => endsWithChar c s'
  end.

(** [s.slice(0, -1)] *)
Fixpoint dropLast (s : string) : string :=
  match s with
  | EmptyString => EmptyString
  | String _ EmptyString => EmptyString
  | String a s' => String a (dropLast s')
  end.

Definition upper_char (c : ascii) : ascii :=
  if (97 <=? nat_of_ascii c)%nat && (nat_of_ascii c <=? 122)%nat
  then ascii_of_nat (nat_of_ascii c - 32) else c.

Definition lower_char (c : ascii) : ascii :=
  if (65 <=? nat_of_ascii c)%nat && (nat_of_ascii c <=? 90)%nat
  then ascii_of_nat (nat_of_ascii c + 32) else c.

(** [s.toLowerCase()], on the ASCII letters; other code units are kept. *)
Fixpoint toLowerCase (s : string) : string :=
  match s with
  | EmptyString => EmptyString
  | String c s' => String (lower_char c) (toLowerCase s')
  end.

(** [s.toUpperCase()], on the ASCII letters; other code units are kept. *)
Fixpoint toUpperCase (s : string) : string :=
  match s with
  | EmptyString => EmptyString
  | String c s' => String (upper_char c) (toUpperCase s')
  end.

End JsString.

(** ** Numbers as property keys *)

Module JsNumber.
Local Open Scope N_scope.

(** The Number value of the integer [n]: the nearest double, with 53
    significant bits and ties to even. *)
Definition toDouble (n : N) : N :=
  let bits := N.size n in
  if bits <=? 53 then n
  else
    let shift := bits - 53 in
    let q := N.shiftr n shift in
    let r := N.land n (N.ones shift) in
    let half := N.shiftl 1 (shift - 1) in
    let q' := if (half <? r) || ((half =? r) && N.odd q) then q + 1 else q in
    N.shiftl q' shift.

(** Beyond the largest double. *)
Definition infinite (v : N) : bool := 2 ^ 1024 <=? v.

(** The digits of [Number::toString] for a double [v] of [n] decimal
    digits: the least [k], from [k] on, with a [k]-digit [s] such that
    [s * 10^(n-k)] rounds to [v], and of the two candidates the one nearer
    to [v].  The result is [s] and the number of digits before the decimal
    point. *)
Fixpoint shortest_from (fuel : nat) (k n v : N) : N * N :=
  match fuel with
  | O => (v, n)
  | S fuel' =>
      let unit := 10 ^ (n - k) in
      let lo := v / unit in
      let hi := lo + 1 in
      let okl := toDouble (lo * unit) =? v in
      let okh := toDouble (hi * unit) =? v in
      if okl || okh then
        let s := if okl && okh then
                   if (v - lo * unit <? hi * unit - v)
                      || ((v - lo * unit =? hi * unit - v) && N.even lo)
                   then lo else hi
                 else if okl then lo else hi in
        if s =? 10 ^ k then (1, n + 1) else (s, n)
      else shortest_from fuel' (k + 1) n v
  end.

Definition shortest (v : N) : N * N :=
  shortest_from 17 1 (N.of_nat (String.length (pretty v))) v.

Fixpoint zeros (n : nat) : string :=
  match n with
  | O => EmptyString
  | S n' => String "0" (zeros n')
  end.

(** [Number::toString] of the Number value of [n]: the digits, padded
    with zeros up to 21 places, in exponent notation beyond. *)
Definition toString (n : N) : string :=
  let v := toDouble n in
  if v <? 2 ^ 53 then pretty v
  else if infinite v then "Infinity"%string
  else
    let '(s, e) := shortest v in
    let ds := pretty s in
    if e <=? 21 then (ds +:+ zeros (N.to_nat e - String.length ds))%string
    else
      match ds with
      | EmptyString => EmptyString
      | String d EmptyString => (String d "e+" +:+ pretty (e - 1))%string
      | String d rest => (String d ("." +:+ rest) +:+ "e+" +:+ pretty (e - 1))%string
      end.

End JsNumber.

(** ** Data model of the endpoint recogniser *)

Inductive ParamLocation : Type := in_path | in_query | in_header | in_body.
Inductive ParamType : Type := ty_integer | ty_string | ty_unknown.

(** A [Parameter] object of the source (the word itself is reserved
    here); [taint_source] is only present on the parameters of template
    literals. *)
Record Param : Type := mkParameter {
  name : string;
  location : ParamLocation;
  param_type : ParamType;
  required : bool;
  taint_source : option bool
}.

#[global] Instance ParamLocation_eq_dec : EqDecision ParamLocation.
Proof. solve_decision. Defined.
#[global] Instance ParamType_eq_dec : EqDecision ParamType.
Proof. solve_decision. Defined.
#[global] Instance Param_eq_dec : EqDecision Param.
Proof. solve_decision. Defined.

(** ** URL parameterisation: [EndpointVisitor.parameterizeURL] *)

Module Parameterize.
Import JsString.

(** [inferParameterName(segments, index)].  [segments[index - 1]] is
    [undefined] past the end of the array, and calling [endsWith] on it
    throws. *)
Definition inferParameterName (segments : list string) (index : nat)
  : completion string :=
  if (0 <? index)%nat then
    match segments !! (index - 1)%nat with
    | Some prevSegment =>
        if endsWithChar "s" prevSegment
        then Return (dropLast prevSegment +:+ "Id")
        else Return (prevSegment +:+ "Id")
    | None => Throw (TypeError "Cannot read properties of undefined (reading 'endsWith')")
    end
  else Return "id".

(** The callback of [segments.map((seg, idx) => ...)]: the replacement
    segment and the parameter pushed, if any. *)
Definition parameterizeSegment (segments : list string) (seg : string) (idx : nat)
  : completion (string * option Param) :=
  if test_digits seg then
    paramName ← inferParameterName segments idx;
    Return ("{" +:+ paramName +:+ "}",
            Some (mkParameter paramName in_path ty_integer true None))
  else if test_uuid seg then
    paramName ← inferParameterName segments idx;
    Return ("{" +:+ paramName +:+ "}",
            Some (mkParameter paramName in_path ty_string true None))
  else Return (seg, None).

(** The [map] loop from index [idx] on; [parameters] accumulates in
    encounter order. *)
Fixpoint mapSegments (segments : list string) (idx : nat) (todo : list string)
  : completion (list string * list Param) :=
  match todo with
  | [] => Return ([], [])
  | seg :: todo' =>
      '(seg', p) ← parameterizeSegment segments seg idx;
      '(segs', ps) ← mapSegments segments (S idx) todo';
      Return (seg' :: segs', from_option (fun x => [x]) [] p ++ ps)
  end.

Definition parameterizeURL (url : string) : completion (string * list Param) :=
  let segments := split "/" url in
  '(parameterizedSegments, parameters) ← mapSegments segments 0 segments;
  Return (join "/" parameterizedSegments, parameters).

End Parameterize.


(** ** The syntax tree handed over by the parser

    Node kinds and field names are those of the parser's output that the
    code reads.  [OtherExpression] stands for every kind the code treats as
    opaque; such nodes carry no [value] field. *)

Record Position : Type := mkPosition { start_line : nat; start_column : nat }.

Record TemplateElement : Type := mkTemplateElement {
  cooked : option string;
  raw : string
}.

#[warnings="-register-all"]
Inductive expr : Type :=
  | Identifier (value : string)
  | StringLiteral (value : string)
  | NumericLiteral (value : N)
  | BooleanLiteral (value : bool)
  | NullLiteral
  | ThisExpression
  | MemberExpression (object : expr) (property : MemberProp)
  | TemplateLiteral (quasis : list TemplateElement) (expressions : list expr)
  | BinaryExpression (operator : string) (left right : expr)
  | AssignmentExpression (left right : expr) (span : option Position)
  | ObjectExpression (properties : list Property)
  | CallExpression (callee : expr) (arguments : list expr) (span : option Position)
  | OtherExpression (type : string)
with MemberProp : Type :=
  | PropIdentifier (value : string)
  | PropPrivateName (id : string)
  | PropComputed (expression : expr)
with Property : Type :=
  | KeyValueProperty (key : PropertyName) (value : expr)
  | MethodProperty (key : PropertyName)
  | ShorthandProperty (value : string)
  | SpreadElement (arguments : expr)
with PropertyName : Type :=
  | KeyIdentifier (value : string)
  | KeyStringLiteral (value : string)
  | KeyNumericLiteral (value : N)
  | KeyComputed (expression : expr).

(** Primitive values read off the tree. *)
Inductive jsval : Type :=
  | VUndefined
  | VNull
  | VBool (b : bool)
  | VNumber (n : N)
  | VString (s : string).

#[global] Instance jsval_eq_dec : EqDecision jsval.
Proof. solve_decision. Defined.

Module JsVal.

(** [ToBoolean] *)
Definition truthy (v : jsval) : bool :=
  match v with
  | VUndefined | VNull => false
  | VBool b => b
  | VNumber n => negb (N.eqb n 0)
  | VString s => negb (String.eqb s "")
  end.

(** [a || b] *)
Definition or (a b : jsval) : jsval := if truthy a then a else b.

(** [ToString], as used for a property key. *)
Definition toString (v : jsval) : string :=
  match v with
  | VUndefined => "undefined"
  | VNull => "null"
  | VBool true => "true"
  | VBool false => "false"
  | VNumber n => JsNumber.toString n
  | VString s => s
  end.

(** [a === 'literal'] *)
Definition eq_str (v : jsval) (s : string) : bool :=
  match v with
  | VString s' => String.eqb s' s
  | _ => false
  end.

End JsVal.

(** [node.type] *)
Definition type_of (e : expr) : string :=
  match e with
  | Identifier _ => "Identifier"
  | StringLiteral _ => "StringLiteral"
  | NumericLiteral _ => "NumericLiteral"
  | BooleanLiteral _ => "BooleanLiteral"
  | NullLiteral => "NullLiteral"
  | ThisExpression => "ThisExpression"
  | MemberExpression _ _ => "MemberExpression"
  | TemplateLiteral _ _ => "TemplateLiteral"
  | BinaryExpression _ _ _ => "BinaryExpression"
  | AssignmentExpression _ _ _ => "AssignmentExpression"
  | ObjectExpression _ => "ObjectExpression"
  | CallExpression _ _ _ => "CallExpression"
  | OtherExpression t => t
  end.

(** [node.value] of an expression node. *)
Definition value_of (e : expr) : jsval :=
  match e with
  | Identifier v | StringLiteral v => VString v
  | NumericLiteral n => VNumber n
  | BooleanLiteral b => VBool b
  | _ => VUndefined
  end.

(** [prop.value] of a member-access property node. *)
Definition prop_value_of (p : MemberProp) : jsval :=
  match p with
  | PropIdentifier v => VString v
  | _ => VUndefined
  end.

(** [p.key?.value] of an object-literal property. *)
Definition key_value_of (p : Property) : jsval :=
  match p with
  | KeyValueProperty k _ | MethodProperty k =>
      match k with
      | KeyIdentifier v | KeyStringLiteral v => VString v
      | KeyNumericLiteral n => VNumber n
      | KeyComputed _ => VUndefined
      end
  | ShorthandProperty _ | SpreadElement _ => VUndefined
  end.

(** [p.key?.name]: no node of this parser has a [name] field. *)
Definition key_name_of (p : Property) : jsval := VUndefined.

(** [p.value?.value]: the [value] field of the property's value node. *)
Definition value_value_of (p : Property) : jsval :=
  match p with
  | KeyValueProperty _ v => value_of v
  | MethodProperty _ => VUndefined
  | ShorthandProperty _ => VUndefined
  | SpreadElement _ => VUndefined
  end.

(** [p.value] when it is a node. *)
Definition value_node_of (p : Property) : option expr :=
  match p with
  | KeyValueProperty _ v => Some v
  | _ => None
  end.

(** ** URL template builder: [EndpointVisitor.extractURL] and its helpers *)

(** The object [{ template, raw, parameters, protocol }] the builder
    returns. *)
Module Url.
Record t : Type := mk {
  template : string;
  raw : string;
  parameters : list Param;
  protocol : string
}.
End Url.
Abbreviation UrlInfo := Url.t.
Abbreviation mkUrlInfo := Url.mk.

Module UrlBuilder.
Import JsString.

(** [parseURL(urlString)]: any exception of the body is caught and
    turned into [null]. *)
Definition parseURL (urlString : string) : option UrlInfo :=
  try_or_null (
    let protocol :=
      if startsWith "ws://" urlString || startsWith "wss://" urlString
      then (if startsWith "wss://" urlString then "wss" else "ws")
      else if startsWith "http://" urlString then "http"
      else "https" in
    '(tpl, parameters) ← Parameterize.parameterizeURL urlString;
    Return (mkUrlInfo tpl urlString parameters protocol)).

(** [extractParameterName(node)] *)
Definition extractParameterName (node : expr) : string :=
  match node with
  | Identifier v => v
  | MemberExpression _ property =>
      JsVal.toString (JsVal.or (prop_value_of property) (VString "param"))
  | _ => "param"
  end.

(** [getMemberExpressionRoot(node)]: follow [object] while it is itself a
    member access, then read [object?.value || '']. *)
Fixpoint getMemberExpressionRoot (node : expr) : jsval :=
  match node with
  | MemberExpression (MemberExpression _ _ as current) _ =>
      getMemberExpressionRoot current
  | MemberExpression object _ => JsVal.or (value_of object) (VString "")
  | _ => VString ""
  end.

Definition taintSources : list string :=
  ["props"; "params"; "req"; "request"; "location"; "window"].

(** [isTaintedExpression(node)].  [objName.includes] only exists on
    strings: a truthy number or boolean at the root makes the call throw. *)
Definition isTaintedExpression (node : expr) : completion bool :=
  match node with
  | MemberExpression _ _ =>
      match getMemberExpressionRoot node with
      | VString objName =>
          Return (existsb (fun src => includes src objName) taintSources)
      | _ => Throw (TypeError "objName.includes is not a function")
      end
  | _ => Return false
  end.

(** [quasi.cooked || quasi.raw] *)
Definition quasiText (quasi : TemplateElement) : string :=
  match cooked quasi with
  | Some c => if String.eqb c "" then raw quasi else c
  | None => raw quasi
  end.

(** The [quasis.forEach((quasi, i) => ...)] loop of
    [parseTemplateLiteral]: [expressions] is what is left of the array
    from index [i] on. *)
Fixpoint templateLoop (quasis : list TemplateElement) (expressions : list expr)
  : completion (string * list Param) :=
  match quasis with
  | [] => Return (EmptyString, [])
  | quasi :: quasis' =>
      match expressions with
      | e :: expressions' =>
          let paramName := extractParameterName e in
          tainted ← isTaintedExpression e;
          '(rest, ps) ← templateLoop quasis' expressions';
          Return (quasiText quasi +:+ "{" +:+ paramName +:+ "}" +:+ rest,
                  mkParameter paramName in_path ty_string true (Some tainted) :: ps)
      | [] =>
          '(rest, ps) ← templateLoop quasis' [];
          Return (quasiText quasi +:+ rest, ps)
      end
  end.

(** [parseTemplateLiteral(node)], on the node's [quasis] and
    [expressions]. *)
Definition parseTemplateLiteral (quasis : list TemplateElement) (expressions : list expr)
  : completion UrlInfo :=
  '(tpl, parameters) ← templateLoop quasis expressions;
  Return (mkUrlInfo tpl tpl parameters "https").

(** [extractURL(node)], with [parseConcatenation] inlined at the
    [BinaryExpression] case. *)
Fixpoint extractURL (node : expr) : completion (option UrlInfo) :=
  match node with
  | StringLiteral v => Return (parseURL v)
  | TemplateLiteral quasis expressions =>
      u ← parseTemplateLiteral quasis expressions; Return (Some u)
  | BinaryExpression operator l r =>
      if String.eqb operator "+" then
        left ← extractURL l;
        right ← extractURL r;
        match left, right with
        | Some lu, Some ru =>
            Return (Some (mkUrlInfo (Url.template lu +:+ Url.template ru)
                                    (Url.raw lu +:+ Url.raw ru)
                                    (Url.parameters lu ++ Url.parameters ru)
                                    (Url.protocol lu)))
        | Some lu, None => Return (Some lu)
        | None, _ => Return right
        end
      else Return None
  | Identifier v =>
      Return (Some (mkUrlInfo ("{" +:+ v +:+ "}") ("{" +:+ v +:+ "}") [] "https"))
  | _ => Return None
  end.

(** [extractURL] on a field that may be missing: reading [type] of
    [undefined] throws. *)
Definition extractURL_field (node : option expr) : completion (option UrlInfo) :=
  match node with
  | Some n => extractURL n
  | None => Throw (TypeError "Cannot read properties of undefined (reading 'type')")
  end.

End UrlBuilder.


(** ** Endpoint records *)

Module Location.
Record t : Type := mk { file : string; line : nat }.
End Location.

Module Evidence.
Record t : Type := mk {
  type : string;
  description : string;
  location : Location.t
}.
End Evidence.

(** The [source_code] object.  [column] and [function_name] are only
    written by some recognisers; [function_name] holds [currentFunction],
    which is [null] until a function has been entered. *)
Module SourceCode.
Record t : Type := mk {
  original_file : string;
  line : nat;
  column : option nat;
  function_name : option (option string);
  ast_node_path : string
}.
End SourceCode.

(** A candidate [EndpointRecord].  [evidence] and [request_headers] are
    [None] on the records of recognisers that do not write the field. *)
Module Endpoint.
Record t : Type := mk {
  url_template : string;
  url_raw : string;
  method : string;
  protocol : string;
  parameters : list Param;
  source_code : SourceCode.t;
  evidence : option (list Evidence.t);
  request_headers : option (gmap string jsval)
}.

Definition with_evidence (ep : t) (ev : list Evidence.t) : t :=
  mk (url_template ep) (url_raw ep) (method ep) (protocol ep) (parameters ep)
     (source_code ep) (Some ev) (request_headers ep).
End Endpoint.

(** ** The endpoint recogniser: [EndpointVisitor] *)

Module EndpointVisitor.
Import JsString UrlBuilder.

Record t : Type := mk {
  fileName : string;
  endpoints : list Endpoint.t;
  currentFunction : option string
}.

(** [new EndpointVisitor(fileName)] *)
Definition new (fileName : string) : t := mk fileName [] None.

(** [node.span?.start.line || 0] and [node.span?.start.column || 0] *)
Definition line_of (span : option Position) : nat := from_option start_line 0%nat span.
Definition column_of (span : option Position) : nat := from_option start_column 0%nat span.

(** [properties.find(p => p.key?.value === k || p.key?.name === k)] *)
Definition findProp (k : string) (properties : list Property) : option Property :=
  List.find (fun p => JsVal.eq_str (key_value_of p) k || JsVal.eq_str (key_name_of p) k)
            properties.

(** One iteration of the [forEach] of [extractHeaders].  [headers] is a
    plain object: the assignment [headers[key] = value] under the key
    [__proto__] goes to the setter inherited from [Object.prototype], which
    ignores a value that is not an object, and the values stored here are
    strings, numbers and booleans; under every other key it writes an own
    property. *)
Definition headerStep (headers : gmap string jsval) (prop : Property)
  : gmap string jsval :=
  let key := JsVal.or (key_value_of prop) (key_name_of prop) in
  let value := JsVal.or (value_value_of prop) (VString "{dynamic}") in
  if JsVal.truthy key then
    if String.eqb (JsVal.toString key) "__proto__" then headers
    else <[JsVal.toString key := value]> headers
  else headers.

(** [extractHeaders(node)]; [node] is the [value] field of the [headers]
    property, missing on a method property. *)
Definition extractHeaders (node : option expr) : completion (gmap string jsval) :=
  match node with
  | None => Throw (TypeError "Cannot read properties of undefined (reading 'type')")
  | Some (ObjectExpression properties) => Return (foldl headerStep ∅ properties)
  | Some _ => Return ∅
  end.

Definition isFetchCall (callee : expr) : bool :=
  match callee with
  | Identifier v => String.eqb v "fetch"
  | _ => false
  end.

Definition extractFetchEndpoint (self : t) (args : list expr) (span : option Position)
    (nodePath : list string) : completion (option Endpoint.t) :=
  match args with
  | [] => Return None
  | urlNode :: rest =>
      url ← extractURL urlNode;
      match url with
      | None => Return None
      | Some url =>
          '(method, headers) ←
            match rest with
            | ObjectExpression properties :: _ =>
                let method :=
                  match findProp "method" properties with
                  | Some (KeyValueProperty _ (StringLiteral v)) => toUpperCase v
                  | _ => "GET"
                  end in
                match findProp "headers" properties with
                | Some headersProp =>
                    headers ← extractHeaders (value_node_of headersProp);
                    Return (method, headers)
                | None => Return (method, ∅)
                end
            | _ => Return ("GET", ∅)
            end;
          Return (Some (Endpoint.mk
            (Url.template url) (Url.raw url) method (Url.protocol url) (Url.parameters url)
            (SourceCode.mk (fileName self) (line_of span) (Some (column_of span))
               (Some (currentFunction self)) (join " > " nodePath))
            (Some [Evidence.mk "code_pattern"
                     ("fetch() call with " +:+ method +:+ " method")
                     (Location.mk (fileName self) (line_of span))])
            (Some headers)))
      end
  end.

Definition axiosVerbs : list string :=
  ["get"; "post"; "put"; "patch"; "delete"; "head"; "options"].

(** [isAxiosCall(node)]; returns the matched verb. *)
Definition isAxiosCall (callee : expr) : option string :=
  match callee with
  | MemberExpression obj prop =>
      if JsVal.eq_str (value_of obj) "axios" then
        match prop_value_of prop with
        | VString v => if bool_decide (v ∈ axiosVerbs) then Some v else None
        | _ => None
        end
      else None
  | _ => None
  end.

Definition extractAxiosEndpoint (self : t) (verb : string) (args : list expr)
    (span : option Position) (nodePath : list string) : completion (option Endpoint.t) :=
  let method := toUpperCase verb in
  match args with
  | [] => Return None
  | urlNode :: _ =>
      url ← extractURL urlNode;
      match url with
      | None => Return None
      | Some url =>
          Return (Some (Endpoint.mk
            (Url.template url) (Url.raw url) method (Url.protocol url) (Url.parameters url)
            (SourceCode.mk (fileName self) (line_of span) (Some (column_of span))
               None (join " > " nodePath))
            (Some [Evidence.mk "code_pattern"
                     ("axios." +:+ toLowerCase method +:+ "() call")
                     (Location.mk (fileName self) (line_of span))])
            None))
      end
  end.

Definition isWebSocketCall (callee : expr) : bool :=
  match callee with
  | Identifier v => String.eqb v "WebSocket"
  | _ => false
  end.

Definition extractWebSocketEndpoint (self : t) (args : list expr)
    (span : option Position) (nodePath : list string) : completion (option Endpoint.t) :=
  match args with
  | [] => Return None
  | urlNode :: _ =>
      url ← extractURL urlNode;
      match url with
      | None => Return None
      | Some url =>
          Return (Some (Endpoint.mk
            (Url.template url) (Url.raw url) "WS"
            (if startsWith "ws" (Url.protocol url) then Url.protocol url else "wss")
            (Url.parameters url)
            (SourceCode.mk (fileName self) (line_of span) None None (join " > " nodePath))
            None None))
      end
  end.

Definition isJQueryAjax (callee : expr) : bool :=
  match callee with
  | MemberExpression obj prop =>
      (JsVal.eq_str (value_of obj) "$" || JsVal.eq_str (value_of obj) "jQuery")
      && match prop_value_of prop with
         | VString v => bool_decide (v ∈ ["ajax"; "get"; "post"])
         | _ => false
         end
  | _ => false
  end.

(** [typeProp?.value?.value?.toUpperCase() || 'GET']: [toUpperCase] only
    exists on strings. *)
Definition jqueryMethod (typeProp : option Property) : completion string :=
  match from_option value_value_of VUndefined typeProp with
  | VUndefined | VNull => Return "GET"
  | VString v => Return (if String.eqb (toUpperCase v) "" then "GET" else toUpperCase v)
  | VNumber _ | VBool _ => Throw (TypeError "toUpperCase is not a function")
  end.

Definition extractJQueryEndpoint (self : t) (args : list expr)
    (span : option Position) (nodePath : list string) : completion (option Endpoint.t) :=
  match args with
  | ObjectExpression properties :: _ =>
      match List.find (fun p => JsVal.eq_str (key_value_of p) "url") properties with
      | None => Return None
      | Some urlProp =>
          url ← extractURL_field (value_node_of urlProp);
          match url with
          | None => Return None
          | Some url =>
              let typeProp :=
                List.find (fun p => JsVal.eq_str (key_value_of p) "type"
                                    || JsVal.eq_str (key_value_of p) "method") properties in
              method ← jqueryMethod typeProp;
              Return (Some (Endpoint.mk
                (Url.template url) (Url.raw url) method (Url.protocol url)
                (Url.parameters url)
                (SourceCode.mk (fileName self) (line_of span) None None
                   (join " > " nodePath))
                None None))
          end
      end
  | _ => Return None
  end.

(** [if (endpoint) this.endpoints.push(endpoint)] *)
Definition push (self : t) (endpoint : option Endpoint.t) : t :=
  match endpoint with
  | Some ep => mk (fileName self) (endpoints self ++ [ep]) (currentFunction self)
  | None => self
  end.

(** [visitCallExpression(node, nodePath)] on a [CallExpression] node. *)
Definition visitCallExpression (self : t) (callee : expr) (args : list expr)
    (span : option Position) (nodePath : list string) : completion t :=
  if isFetchCall callee then
    push self <$> extractFetchEndpoint self args span nodePath
  else match isAxiosCall callee with
  | Some verb => push self <$> extractAxiosEndpoint self verb args span nodePath
  | None =>
    if isWebSocketCall callee then
      push self <$> extractWebSocketEndpoint self args span nodePath
    else if isJQueryAjax callee then
      push self <$> extractJQueryEndpoint self args span nodePath
    else Return self
  end.

End EndpointVisitor.

(** ** The tree walker: [traverseAST]

    The walker is generic: it reads [type], [identifier] and otherwise
    enumerates whatever keys an object has.  It is modelled on the raw
    tree, objects being their key/value pairs in enumeration order. *)

#[warnings="-register-all"]
Inductive tree : Type :=
  | TPrim (v : jsval)
  | TArray (items : list tree)
  | TObject (fields : list (string * tree)).

Module Walker.

(** [node[key]]; [undefined] when the key is missing or [node] is not an
    object with named fields. *)
Fixpoint lookup_field (key : string) (fields : list (string * tree)) : tree :=
  match fields with
  | [] => TPrim VUndefined
  | (k, v) :: fields' => if String.eqb k key then v else lookup_field key fields'
  end.

Definition get (key : string) (node : tree) : tree :=
  match node with
  | TObject fields => lookup_field key fields
  | _ => TPrim VUndefined
  end.

(** [node === 'literal'] *)
Definition is_str (node : tree) (s : string) : bool :=
  match node with
  | TPrim v => JsVal.eq_str v s
  | _ => false
  end.

(** [x || 'anonymous']: arrays and objects are truthy. *)
Definition or_anonymous (x : tree) : tree :=
  match x with
  | TPrim v => if JsVal.truthy v then x else TPrim (VString "anonymous")
  | _ => x
  end.

(** What the walker does to the visitor, in order. *)
Inductive event : Type :=
  | VisitCallExpression (node : tree) (currentPath : list tree)
  | SetCurrentFunction (name : tree).

(** The two [if]s at the head of [traverseAST]. *)
Definition visit (node : tree) (currentPath : list tree) : list event :=
  (if is_str (get "type" node) "CallExpression"
   then [VisitCallExpression node currentPath] else [])
  ++ (if is_str (get "type" node) "FunctionDeclaration"
         || is_str (get "type" node) "FunctionExpression"
      then [SetCurrentFunction (or_anonymous (get "value" (get "identifier" node)))]
      else []).

(** [key === 'span' || key === 'ctxt'] *)
Definition skipped (key : string) : bool :=
  String.eqb key "span" || String.eqb key "ctxt".

(** [traverseAST(node, visitor, nodePath)], as the sequence of visitor
    events it produces when no callback of the visitor throws and the call
    stack has room for the recursion ([Engine.traverseAST] takes the stack
    into account).  Primitives (and [null]) return at once; arrays are
    objects whose keys are their indices. *)
Fixpoint traverseAST (node : tree) (nodePath : list tree) : list event :=
  let currentPath := nodePath ++ [get "type" node] in
  let child_loop (child : tree) : list event :=
    match child with
    | TArray cs => flat_map (fun c => traverseAST c currentPath) cs
    | TObject _ => traverseAST child currentPath
    | TPrim _ => []
    end in
  match node with
  | TPrim _ => []
  | TArray items => visit node currentPath ++ flat_map child_loop items
  | TObject fields =>
      visit node currentPath
      ++ flat_map (fun kv => if skipped kv.1 then [] else child_loop kv.2) fields
  end.

(** [node && typeof node === 'object'] *)
Definition is_object (node : tree) : bool :=
  match node with
  | TPrim _ => false
  | _ => true
  end.

(** The nodes one call of [traverseAST] recurses into. *)
Definition expand (child : tree) : list tree :=
  match child with
  | TArray cs => cs
  | TObject _ => [child]
  | TPrim _ => []
  end.

Definition direct_children (node : tree) : list tree :=
  match node with
  | TPrim _ => []
  | TArray items => flat_map expand items
  | TObject fields =>
      flat_map (fun kv => if skipped kv.1 then [] else expand kv.2) fields
  end.

(** [descendant root p n p']: the walk started at [root] with node path
    [p] arrives at [n] with node path [p']. *)
Inductive descendant : tree → list tree → tree → list tree → Prop :=
  | descendant_refl node p : descendant node p node p
  | descendant_step node p c n p' :
      c ∈ direct_children node →
      descendant c (p ++ [get "type" node]) n p' →
      descendant node p n p'.

Definition event_depth (e : event) : nat :=
  match e with
  | VisitCallExpression _ currentPath => length currentPath
  | SetCurrentFunction _ => 0
  end.

(** [n] wrappers around [inner]. *)
Fixpoint nest (n : nat) (inner : tree) : tree :=
  match n with
  | O => inner
  | S n' => TObject [("type", TPrim (VString "ExpressionStatement"));
                     ("expression", nest n' inner)]
  end.

Definition call_leaf : tree :=
  TObject [("type", TPrim (VString "CallExpression"));
           ("callee", TObject [("type", TPrim (VString "Identifier"));
                               ("value", TPrim (VString "fetch"))]);
           ("arguments", TArray [])].

End Walker.

(** ** The walker on an engine with a bounded call stack *)

Module Engine.
Import Walker.

(** What the engine throws when a call finds no room on the stack. *)
Definition stack_overflow : js_error := RangeError "Maximum call stack size exceeded".

(** A loop whose iterations call the visitor: the events of the
    iterations in order; an iteration that throws ends the loop. *)
Fixpoint forEach {A} (f : A → completion (list event)) (items : list A)
  : completion (list event) :=
  match items with
  | [] => Return []
  | item :: rest => events ← f item; below ← forEach f rest; Return (events ++ below)
  end.

(** [traverseAST(node, visitor, nodePath)] on a call stack with room for
    [stack] more nested activations of [traverseAST] (the frames of
    [forEach] and of its callback are reckoned with the activation they
    lead to).  The function has no depth parameter and no guard: an
    activation that finds no room throws, and nothing on the way up to the
    caller catches it. *)
Fixpoint traverseAST (stack : nat) (node : tree) (nodePath : list tree)
  : completion (list event) :=
  match stack with
  | O => Throw stack_overflow
  | S stack' =>
      let currentPath := nodePath ++ [get "type" node] in
      let child_loop (child : tree) : completion (list event) :=
        match child with
        | TArray cs => forEach (fun c => traverseAST stack' c currentPath) cs
        | TObject _ => traverseAST stack' child currentPath
        | TPrim _ => Return []
        end in
      match node with
      | TPrim _ => Return []
      | TArray items =>
          below ← forEach child_loop items;
          Return (visit node currentPath ++ below)
      | TObject fields =>
          below ← forEach (fun kv => if skipped kv.1 then Return [] else child_loop kv.2)
                          fields;
          Return (visit node currentPath ++ below)
      end
  end.

End Engine.

(** ** The deduplicator: [deduplicateEndpoints] *)

Module Dedup.

(** The [seen] map, in insertion order. *)
Abbreviation seen_map := (list (string * Endpoint.t)).

Fixpoint seen_get (key : string) (seen : seen_map) : option Endpoint.t :=
  match seen with
  | [] => None
  | (k, v) :: seen' => if String.eqb k key then Some v else seen_get key seen'
  end.

(** In-place update of the record stored under [key]. *)
Fixpoint seen_update (key : string) (v : Endpoint.t) (seen : seen_map) : seen_map :=
  match seen with
  | [] => []
  | (k, v0) :: seen' =>
      if String.eqb k key then (k, v) :: seen' else (k, v0) :: seen_update key v seen'
  end.

Definition key_of (ep : Endpoint.t) : string :=
  Endpoint.method ep +:+ ":" +:+ Endpoint.url_template ep.

(** [[...a, ...b]] where either operand may be [undefined]. *)
Definition spread2 (a b : option (list Evidence.t)) : completion (list Evidence.t) :=
  match a, b with
  | Some ea, Some eb => Return (ea ++ eb)
  | _, _ => Throw (TypeError "undefined is not iterable")
  end.

(** The body of [endpoints.forEach(ep => ...)]. *)
Definition step (seen : seen_map) (ep : Endpoint.t) : completion seen_map :=
  let key := key_of ep in
  match seen_get key seen with
  | None => Return (seen ++ [(key, ep)])
  | Some existing =>
      ev ← spread2 (Endpoint.evidence existing) (Endpoint.evidence ep);
      Return (seen_update key (Endpoint.with_evidence existing ev) seen)
  end.

Fixpoint forEach (seen : seen_map) (endpoints : list Endpoint.t) : completion seen_map :=
  match endpoints with
  | [] => Return seen
  | ep :: rest => seen' ← step seen ep; forEach seen' rest
  end.

(** [deduplicateEndpoints(endpoints)].  The retained records are the
    input objects themselves; the input list is taken to hold distinct
    objects, as the visitor's [endpoints] array does. *)
Definition deduplicateEndpoints (endpoints : list Endpoint.t)
  : completion (list Endpoint.t) :=
  seen ← forEach [] endpoints; Return (seen.*2).

End Dedup.

(** ** The taint tracker: [TaintAnalyzer] and [TaintVisitor] *)

(** A [VariableDeclarator]: [id] is a pattern, [init] may be missing. *)
Record VariableDeclarator : Type := mkDeclarator {
  id : expr;
  init : option expr
}.

(** The nodes the taint walk dispatches on. *)
Inductive tnode : Type :=
  | VariableDeclaration (declarations : list VariableDeclarator) (span : option Position)
  | Expression (e : expr).

Module Taint.
Import JsString.

(** A value of the [taintState] map.  [isSource] is only written by
    [markTainted]; [reachesSink] and [sinkName] are only written at a
    sink call (absent reads as falsy). *)
Record TaintState : Type := mkTaintState {
  name : string;
  isTainted : bool;
  isSource : option bool;
  sourceName : string;
  operation : string;
  location : option Position;
  dependencies : list string;
  reachesSink : bool;
  sinkName : option string
}.

Record DataflowEdge : Type := mkEdge {
  from : string;
  to : string;
  edge_operation : string;
  edge_location : option Position
}.

Record TaintAnalyzer : Type := mkAnalyzer {
  taintState : gmap string TaintState;
  dataflowEdges : list DataflowEdge
}.

Definition sources : list string :=
  ["req.params"; "req.query"; "req.body"; "window.location"; "URLSearchParams";
   "document.cookie"; "localStorage"; "sessionStorage"; "location.search";
   "location.hash"].

Definition sinks : list string :=
  ["fetch"; "axios"; "XMLHttpRequest.open"; "document.write"; "innerHTML"; "eval";
   "Function"; "setTimeout"; "setInterval"; "postMessage"].

(** [new TaintAnalyzer()] *)
Definition new : TaintAnalyzer := mkAnalyzer ∅ [].

(** [markTainted(varName, sourceName, operation, location)] *)
Definition markTainted (self : TaintAnalyzer) (varName sourceName operation : string)
    (location : option Position) : TaintAnalyzer :=
  mkAnalyzer
    (<[varName := mkTaintState varName true (Some (negb (String.eqb sourceName "")))
                    sourceName operation location [] false None]> (taintState self))
    (dataflowEdges self).

(** [propagateTaint(fromVar, toVar, operation, location)] *)
Definition propagateTaint (self : TaintAnalyzer) (fromVar toVar operation : string)
    (location : option Position) : TaintAnalyzer :=
  match taintState self !! fromVar with
  | None => self
  | Some fromTaint =>
      if negb (isTainted fromTaint) then self
      else
        let toTaint :=
          default (mkTaintState toVar false None "" "" None [] false None)
                  (taintState self !! toVar) in
        let toTaint' :=
          mkTaintState (name toTaint) true (isSource toTaint) (sourceName fromTaint)
            operation location (dependencies toTaint ++ [fromVar])
            (reachesSink toTaint) (sinkName toTaint) in
        mkAnalyzer (<[toVar := toTaint']> (taintState self))
                   (dataflowEdges self ++ [mkEdge fromVar toVar operation location])
  end.

(** [isTainted(varName)] *)
Definition is_tainted (self : TaintAnalyzer) (varName : string) : bool :=
  match taintState self !! varName with
  | Some taint => isTainted taint
  | None => false
  end.

(** Whether the table records [reachesSink] for a variable. *)
Definition reaches_sink (self : TaintAnalyzer) (varName : string) : bool :=
  match taintState self !! varName with
  | Some taint => reachesSink taint
  | None => false
  end.

(** *** [TaintVisitor] *)

(** [getIdentifierName(node)] *)
Definition getIdentifierName (node : expr) : option string :=
  match node with
  | Identifier v => Some v
  | _ => None
  end.

(** The [walk] closure of [getMemberPath]: [parts] after the walk. *)
Fixpoint memberParts (n : expr) : list string :=
  match n with
  | Identifier v => [v]
  | MemberExpression object property =>
      memberParts object
      ++ match property with
         | PropIdentifier v => [v]
         | _ => []
         end
  | _ => []
  end.

(** [getMemberPath(node)] *)
Definition getMemberPath (node : expr) : string := join "." (memberParts node).

(** [getCalleeName(node)] *)
Definition getCalleeName (node : expr) : string :=
  match node with
  | Identifier v => v
  | MemberExpression _ _ => getMemberPath node
  | _ => ""
  end.

(** [visitMemberExpression(node)]: the first source, in the set's
    insertion order, that the dotted path contains. *)
Definition visitMemberExpression (node : expr) : option string :=
  List.find (fun source => includes source (getMemberPath node)) sources.

(** [checkSource(node)] *)
Definition checkSource (node : expr) : option string :=
  match node with
  | MemberExpression _ _ => visitMemberExpression node
  | _ => None
  end.

(** A falsy name (the empty string) is skipped like a missing one. *)
Definition truthyName (n : option string) : option string :=
  match n with
  | Some v => if String.eqb v "" then None else Some v
  | None => None
  end.

(** The body of the [for (const decl of node.declarations)] loop. *)
Definition declStep (span : option Position) (self : TaintAnalyzer)
    (decl : VariableDeclarator) : TaintAnalyzer :=
  match truthyName (getIdentifierName (id decl)) with
  | None => self
  | Some varName =>
      match init decl with
      | None => self
      | Some init =>
          let self1 :=
            match truthyName (checkSource init) with
            | Some sourceName => markTainted self varName sourceName "assignment" span
            | None => self
            end in
          match init with
          | Identifier initVar =>
              if is_tainted self1 initVar
              then propagateTaint self1 initVar varName "assignment" span
              else self1
          | _ => self1
          end
      end
  end.

(** [visitVariableDeclaration(node)] *)
Definition visitVariableDeclaration (self : TaintAnalyzer)
    (declarations : list VariableDeclarator) (span : option Position) : TaintAnalyzer :=
  foldl (declStep span) self declarations.

(** [visitAssignment(node)] *)
Definition visitAssignment (self : TaintAnalyzer) (left right : expr)
    (span : option Position) : TaintAnalyzer :=
  match truthyName (getIdentifierName left) with
  | None => self
  | Some leftVar =>
      let self1 :=
        match right with
        | Identifier rightVar =>
            if is_tainted self rightVar
            then propagateTaint self rightVar leftVar "assignment" span
            else self
        | _ => self
        end in
      match truthyName (checkSource right) with
      | Some sourceName => markTainted self1 leftVar sourceName "assignment" span
      | None => self1
      end
  end.

(** [taint.reachesSink = true; taint.sinkName = calleeName] on the record
    stored under [argVar]. *)
Definition markSink (calleeName : string) (taint : TaintState) : TaintState :=
  mkTaintState (name taint) (isTainted taint) (isSource taint) (sourceName taint)
    (operation taint) (location taint) (dependencies taint) true (Some calleeName).

(** The body of the [for (const arg of node.arguments)] loop. *)
Definition argStep (calleeName : string) (self : TaintAnalyzer) (arg : expr)
  : TaintAnalyzer :=
  match arg with
  | Identifier argVar =>
      if is_tainted self argVar
      then mkAnalyzer (alter (markSink calleeName) argVar (taintState self))
                      (dataflowEdges self)
      else self
  | _ => self
  end.

(** [visitCallExpression(node)]: [sinks.has] is set membership. *)
Definition visitCallExpression (self : TaintAnalyzer) (callee : expr)
    (arguments : list expr) : TaintAnalyzer :=
  let calleeName := getCalleeName callee in
  if bool_decide (calleeName ∈ sinks)
  then foldl (argStep calleeName) self arguments
  else self.

(** The dispatch at the head of [visitNode]; member accesses and
    template literals are visited without any effect on the analyzer. *)
Definition visit (self : TaintAnalyzer) (node : tnode) : TaintAnalyzer :=
  match node with
  | VariableDeclaration declarations span =>
      visitVariableDeclaration self declarations span
  | Expression (AssignmentExpression lhs rhs span) =>
      visitAssignment self lhs rhs span
  | Expression (CallExpression callee arguments _) =>
      visitCallExpression self callee arguments
  | Expression _ => self
  end.

(** The visitor operations of a run, in traversal order. *)
Definition run (self : TaintAnalyzer) (nodes : list tnode) : TaintAnalyzer :=
  foldl visit self nodes.

(** The names a visit hands to [markTainted]. *)
Definition declMarks (decl : VariableDeclarator) : list string :=
  match truthyName (getIdentifierName (id decl)), init decl with
  | Some varName, Some init =>
      if truthyName (checkSource init) is Some _ then [varName] else []
  | _, _ => []
  end.

Definition marks (node : tnode) : list string :=
  match node with
  | VariableDeclaration declarations _ => flat_map declMarks declarations
  | Expression (AssignmentExpression lhs rhs _) =>
      match truthyName (getIdentifierName lhs) with
      | Some leftVar => if truthyName (checkSource rhs) is Some _ then [leftVar] else []
      | None => []
      end
  | Expression _ => []
  end.

End Taint.

(** ** Flow scoring: [TaintAnalyzer.calculateConfidence] *)

Module Confidence.
Import JsString.

(** A step [{ variable, operation, location }] of a reconstructed path. *)
Record PathStep : Type := mkStep {
  variable : string;
  operation : string;
  location : option Position
}.

Definition sanitizers : list string :=
  ["encodeURIComponent"; "escape"; "sanitize"; "validate"].

(** [sanitizers.some(s => step.operation?.includes(s))] *)
Definition sanitized (step : PathStep) : bool :=
  existsb (fun s => includes s (operation step)) sanitizers.

(** The body of the [for (const step of path)] loop. *)
Definition penalize (confidence : R) (step : PathStep) : R :=
  if sanitized step then (confidence * 0.3)%R else confidence.

(** [calculateConfidence(path)] *)
Definition calculateConfidence (path : list PathStep) : R :=
  let confidence := (1.0 * exp (- 0.1 * INR (length path)))%R in
  let confidence := foldl penalize confidence path in
  Rmax 0.0 (Rmin 1.0 confidence).

End Confidence.

(** ** Flow reconstruction: [TaintAnalyzer.reconstructPath] and [assessRisk] *)

Module Flow.
Import JsString Taint.

(** The [visited] set and the [path] array of [reconstructPath]. *)
Record WalkState : Type := mkWalk {
  visited : gset string;
  path : list Confidence.PathStep
}.

(** The [walk] closure.  [fuel] bounds the depth of the recursion: the
    result is [None] when it runs out. *)
Fixpoint walk (fuel : nat) (table : gmap string TaintState) (name : string)
    (st : WalkState) : option WalkState :=
  match fuel with
  | O => None
  | S fuel' =>
      if bool_decide (name ∈ visited st) then Some st
      else
        let st1 := mkWalk ({[name]} ∪ visited st) (path st) in
        match table !! name with
        | None => Some st1
        | Some taint =>
            (fix forEach (deps : list string) (st : WalkState) : option WalkState :=
               match deps with
               | [] => Some st
               | dep :: deps' =>
                   match walk fuel' table dep st with
                   | Some st' => forEach deps' st'
                   | None => None
                   end
               end)
              (dependencies taint)
              (mkWalk (visited st1)
                      (path st1 ++ [Confidence.mkStep name (operation taint) (location taint)]))
        end
  end.

(** [reconstructPath(varName)]; the recursion is never deeper than the
    table has entries, plus one. *)
Definition reconstructPath (table : gmap string TaintState) (varName : string)
  : option (list Confidence.PathStep) :=
  path <$> walk (S (size table)) table varName (mkWalk ∅ []).

Inductive Risk : Type := low | medium | high.

#[global] Instance Risk_eq_dec : EqDecision Risk.
Proof. solve_decision. Defined.

Definition highRisk : list (string * string) :=
  [("req.params", "fetch"); ("req.query", "innerHTML"); ("location.hash", "eval");
   ("URLSearchParams", "document.write")].

(** [assessRisk(source, sink)] *)
Definition assessRisk (source sink : string) : Risk :=
  if existsb (fun pair => includes pair.1 source && includes pair.2 sink) highRisk
  then high
  else if includes "innerHTML" sink || includes "document.write" sink then medium
  else low.

End Flow.

(** ** Node counting: [countASTNodes] *)

Module NodeCount.

(** [countASTNodes(node, count)]; only [span] is skipped here. *)
Fixpoint countASTNodes (node : tree) (count : nat) : nat :=
  let child_loop (count : nat) (child : tree) : nat :=
    match child with
    | TArray cs => fold_left (fun count c => countASTNodes c count) cs count
    | TObject _ => countASTNodes child count
    | TPrim _ => count
    end in
  match node with
  | TPrim _ => count
  | TArray items => fold_left child_loop items (S count)
  | TObject fields =>
      fold_left (fun count kv => if String.eqb kv.1 "span" then count
                                 else child_loop count kv.2)
                fields (S count)
  end.

End NodeCount.

(** * Reference definitions in the specification's words *)

(** ** URL parameterisation *)

Module ParameterizeSpec.
Import JsString Parameterize.

(** The naming rule in the specification's words: from the previous
    segment, strip a trailing [s] if there is one and append [Id]; [id]
    when there is no previous segment. *)
Definition spec_param_name (previous : option string) : string :=
  match previous with
  | None => "id"
  | Some prev => (if endsWithChar "s" prev then dropLast prev else prev) +:+ "Id"
  end.

(** The heuristic in the specification's words, walking the segments
    with the previous one at hand. *)
Fixpoint spec_walk (previous : option string) (segments : list string)
  : list string * list Param :=
  match segments with
  | [] => ([], [])
  | seg :: rest =>
      let '(segs, ps) := spec_walk (Some seg) rest in
      let nm := spec_param_name previous in
      if test_digits seg then
        (("{" +:+ nm +:+ "}") :: segs, mkParameter nm in_path ty_integer true None :: ps)
      else if test_uuid seg then
        (("{" +:+ nm +:+ "}") :: segs, mkParameter nm in_path ty_string true None :: ps)
      else (seg :: segs, ps)
  end.

End ParameterizeSpec.

(** ** Template literals *)

Module TemplateSpec.
Import JsString UrlBuilder.

(** The expression at the base of a property-access chain. *)
Fixpoint chain_base (e : expr) : expr :=
  match e with
  | MemberExpression object _ => chain_base object
  | _ => e
  end.

(** The property names along a chain, outermost last. *)
Fixpoint chain_segments (e : expr) : list string :=
  match e with
  | MemberExpression object property =>
      chain_segments object
      ++ match property with
         | PropIdentifier v => [v]
         | _ => []
         end
  | _ => []
  end.

Definition root_names (e : expr) : list string :=
  match chain_base e with
  | Identifier v => [v]
  | _ => []
  end.

Definition matches_suspect (nm : string) : bool :=
  existsb (fun src => includes src nm) taintSources.

(** The specification's rule: a property-access chain whose root or any
    segment name matches the list of suspect identifiers. *)
Definition spec_taint_source (e : expr) : bool :=
  match e with
  | MemberExpression _ _ => existsb matches_suspect (root_names e ++ chain_segments e)
  | _ => false
  end.

(** What the code tests: a property access whose base carries a string
    [value] (an identifier's name or a string literal) that contains a
    suspect identifier. *)
Definition suspect_root (e : expr) : Prop :=
  ∃ object property nm src,
    e = MemberExpression object property
    ∧ value_of (chain_base object) = VString nm
    ∧ src ∈ taintSources
    ∧ includes src nm = true.

Definition returns {A} (c : completion A) : Prop := ∃ a, c = Return a.

End TemplateSpec.

(** ** Header extraction *)

Module HeaderSpec.

(** Literal nodes and the JavaScript value each one denotes. *)
Definition is_literal (v : expr) : bool :=
  match v with
  | StringLiteral _ | NumericLiteral _ | BooleanLiteral _ | NullLiteral => true
  | _ => false
  end.

Definition literal_value (v : expr) : jsval :=
  match v with
  | StringLiteral s => VString s
  | NumericLiteral n => VNumber n
  | BooleanLiteral b => VBool b
  | NullLiteral => VNull
  | _ => VUndefined
  end.

(** What is stored for a literal: itself if truthy, else the
    placeholder. *)
Definition recorded (l : jsval) : jsval :=
  if JsVal.truthy l then l else VString "{dynamic}".

(** The key of a property as text, when it has one that counts: the
    name of an identifier key or the value of a string or number key, an
    empty name and zero excepted. *)
Definition key_text (p : Property) : option string :=
  match p with
  | KeyValueProperty k _ | MethodProperty k =>
      match k with
      | KeyIdentifier name | KeyStringLiteral name =>
          if String.eqb name "" then None else Some name
      | KeyNumericLiteral n => if N.eqb n 0 then None else Some (JsNumber.toString n)
      | KeyComputed _ => None
      end
  | ShorthandProperty _ | SpreadElement _ => None
  end.

(** The name a property is recorded under, if it is recorded at all:
    nothing is recorded under [__proto__]. *)
Definition recorded_under (p : Property) : option string :=
  match key_text p with
  | Some name => if String.eqb name "__proto__" then None else Some name
  | None => None
  end.

(** What is recorded for a property: for a literal value what [recorded]
    says, for an identifier its name, for every other value the
    placeholder. *)
Definition entry (p : Property) : jsval :=
  match p with
  | KeyValueProperty _ v =>
      if is_literal v then recorded (literal_value v)
      else match v with
           | Identifier name => recorded (VString name)
           | _ => VString "{dynamic}"
           end
  | _ => VString "{dynamic}"
  end.

(** The property that decides what is found under [name]: the last one
    recorded under it. *)
Definition deciding (name : string) (properties : list Property) : option Property :=
  last (filter (fun p => recorded_under p = Some name) properties).

End HeaderSpec.

(** ** Deduplication *)

Module DedupSpec.
Import Dedup.

Definition evidence_of (ep : Endpoint.t) : list Evidence.t :=
  default [] (Endpoint.evidence ep).

(** The evidence entries of the records filed under [key], in encounter
    order. *)
Definition evidence_for (key : string) (endpoints : list Endpoint.t)
  : list Evidence.t :=
  flat_map (fun ep => if String.eqb (key_of ep) key then evidence_of ep else [])
           endpoints.

(** The records that are the first seen for their key, the keys of
    [seen_keys] being taken already. *)
Fixpoint firsts (seen_keys : list string) (endpoints : list Endpoint.t)
  : list Endpoint.t :=
  match endpoints with
  | [] => []
  | ep :: rest =>
      if bool_decide (key_of ep ∈ seen_keys) then firsts seen_keys rest
      else ep :: firsts (seen_keys ++ [key_of ep]) rest
  end.

(** Deduplication in the specification's words: the first record seen
    for each key, with the evidence of every record of that key appended
    in encounter order. *)
Definition spec_dedup (endpoints : list Endpoint.t) : list Endpoint.t :=
  (fun first => Endpoint.with_evidence first (evidence_for (key_of first) endpoints))
    <$> firsts [] endpoints.

(** The string has no colon. *)
Definition colon_free (s : string) : Prop :=
  JsString.includes ":" s = false.

(** The record has an [evidence] field. *)
Definition has_evidence (ep : Endpoint.t) : Prop := is_Some (Endpoint.evidence ep).

(** The entry of the [seen] map after the remaining [endpoints]. *)
Definition settle (endpoints : list Endpoint.t) (kr : string * Endpoint.t)
  : string * Endpoint.t :=
  (kr.1, Endpoint.with_evidence kr.2 (evidence_of kr.2 ++ evidence_for kr.1 endpoints)).

Definition settle_first (endpoints : list Endpoint.t) (first : Endpoint.t)
  : string * Endpoint.t :=
  (key_of first, Endpoint.with_evidence first (evidence_for (key_of first) endpoints)).

End DedupSpec.

(** ** Sample programs *)

(** ** Nesting of a tree *)

Module Nesting.
Import Walker.

(** The nodes a walk of [node] goes through on its deepest way down,
    [node] included: a field of an object counts when it is not [span] or
    [ctxt] and holds an object or an array, and the elements of such an
    array, of whatever kind, lie one step below the node that holds the
    array. *)
Fixpoint depth (node : tree) : nat :=
  let below (child : tree) : nat :=
    match child with
    | TArray cs => list_max (map depth cs)
    | TObject _ => depth child
    | TPrim _ => 0
    end in
  match node with
  | TPrim _ => 1
  | TArray items => S (list_max (map below items))
  | TObject fields =>
      S (list_max (map (fun kv => if String.eqb kv.1 "span" || String.eqb kv.1 "ctxt"
                                  then 0 else below kv.2) fields))
  end.

(** [child node c]: [c] is a node one step below [node]. *)
Inductive child : tree → tree → Prop :=
  | child_field fields key fs :
      (key, TObject fs) ∈ fields → key ≠ "span" → key ≠ "ctxt" →
      child (TObject fields) (TObject fs)
  | child_field_element fields key cs c :
      (key, TArray cs) ∈ fields → key ≠ "span" → key ≠ "ctxt" → c ∈ cs →
      child (TObject fields) c
  | child_element items fs :
      TObject fs ∈ items → child (TArray items) (TObject fs)
  | child_element_element items cs c :
      TArray cs ∈ items → c ∈ cs → child (TArray items) c.

(** [reaches root p n p']: [n] lies below [root], or is [root]; [p'] is
    [p] followed by the kinds of the nodes from [root] down to the parent
    of [n]. *)
Inductive reaches : tree → list tree → tree → list tree → Prop :=
  | reaches_here node p : reaches node p node p
  | reaches_below node p c n p' :
      child node c →
      reaches c (p ++ [get "type" node]) n p' →
      reaches node p n p'.

(** The claim with a limit: on the engine with room for [stack]
    activations the walk of every tree completes, and it visits nothing
    more than [limit] steps down. *)
Definition depth_limited (limit stack : nat) : Prop :=
  ∀ root : tree,
    ∃ events, Engine.traverseAST stack root [] = Return events
              ∧ ∀ e, e ∈ events → (event_depth e ≤ limit)%nat.

End Nesting.

Module Scenario.

(** [req.query.url] *)
Definition req_query_url : expr :=
  MemberExpression (MemberExpression (Identifier "req") (PropIdentifier "query"))
                   (PropIdentifier "url").

(** [req.body.next] *)
Definition req_body_next : expr :=
  MemberExpression (MemberExpression (Identifier "req") (PropIdentifier "body"))
                   (PropIdentifier "next").

(** [const u = req.query.url;] *)
Definition decl_u : tnode :=
  VariableDeclaration [mkDeclarator (Identifier "u") (Some req_query_url)] None.

(** [const w = u;] *)
Definition decl_w : tnode :=
  VariableDeclaration [mkDeclarator (Identifier "w") (Some (Identifier "u"))] None.

(** [v = req.body.next] *)
Definition assign_v : tnode :=
  Expression (AssignmentExpression (Identifier "v") req_body_next None).

(** [u = req.body.next] *)
Definition reassign_u : tnode :=
  Expression (AssignmentExpression (Identifier "u") req_body_next None).

(** [axios.get] *)
Definition axios_get : expr :=
  MemberExpression (Identifier "axios") (PropIdentifier "get").

(** [axios.get(u)] *)
Definition call_axios_get_u : tnode :=
  Expression (CallExpression axios_get [Identifier "u"] None).

(** [fetch(u)] *)
Definition call_fetch_u : tnode :=
  Expression (CallExpression (Identifier "fetch") [Identifier "u"] None).

(** [$.ajax({ url: '/api/items' })] *)
Definition ajax_callee : expr :=
  MemberExpression (Identifier "$") (PropIdentifier "ajax").
Definition ajax_args : list expr :=
  [ObjectExpression [KeyValueProperty (KeyIdentifier "url") (StringLiteral "/api/items")]].

(** [fetch('/api/items')] *)
Definition fetch_args : list expr := [StringLiteral "/api/items"].

Definition call_path : list string := ["Module"; "ExpressionStatement"; "CallExpression"].

(** The visitor after the same call expression has been visited twice,
    on lines 3 and 8. *)
Definition visit_twice (callee : expr) (args : list expr)
  : completion EndpointVisitor.t :=
  v1 ← EndpointVisitor.visitCallExpression (EndpointVisitor.new "app.js")
          callee args (Some (mkPosition 3 0)) call_path;
  EndpointVisitor.visitCallExpression v1 callee args (Some (mkPosition 8 0)) call_path.

End Scenario.

(** ** Segments of a URL *)

Module Segments.

(** The segment is replaced by a placeholder: all digits, or UUID-shaped. *)
Definition is_variable (seg : string) : bool :=
  JsString.test_digits seg || JsString.test_uuid seg.

(** The character does not occur in the string. *)
Fixpoint free_of (sep : ascii) (s : string) : bool :=
  match s with
  | EmptyString => true
  | String c s' => negb (Ascii.eqb c sep) && free_of sep s'
  end.

(** The values the [protocol] field takes. *)
Definition protocols : list string := ["http"; "https"; "ws"; "wss"].

End Segments.

(** ** Records of the recognisers *)

Module Built.
Import JsString EndpointVisitor.

(** What every record built by a recogniser satisfies. *)
Definition well_built (self : EndpointVisitor.t) (span : option Position)
    (nodePath : list string) (ep : Endpoint.t) : Prop :=
  Endpoint.protocol ep ∈ Segments.protocols
  ∧ SourceCode.original_file (Endpoint.source_code ep) = fileName self
  ∧ SourceCode.ast_node_path (Endpoint.source_code ep) = join " > " nodePath.

End Built.

(** ** The [seen] map *)

Module SeenSpec.
Import Dedup.

(** Distinct keys, each the key of its record. *)
Definition keyed (seen : seen_map) : Prop :=
  NoDup seen.*1 ∧ Forall (fun kr => key_of kr.2 = kr.1) seen.

(** Every two records of the list that share a key both carry
    evidence. *)
Fixpoint mergeable (endpoints : list Endpoint.t) : Prop :=
  match endpoints with
  | [] => True
  | ep :: rest =>
      (∀ b, b ∈ rest → key_of b = key_of ep →
            DedupSpec.has_evidence ep ∧ DedupSpec.has_evidence b)
      ∧ mergeable rest
  end.

(** The records kept so far can take in what is still to come. *)
Definition absorbs (seen : seen_map) (endpoints : list Endpoint.t) : Prop :=
  ∀ k r b, (k, r) ∈ seen → b ∈ endpoints → key_of b = k →
           DedupSpec.has_evidence r ∧ DedupSpec.has_evidence b.

End SeenSpec.

(** ** Sample records *)

Module Samples.

Definition ev (line : nat) : Evidence.t :=
  Evidence.mk "code_pattern" "fetch() call with GET method" (Location.mk "app.js" line).

(** A [fetch] record for [GET /a] found on the given line. *)
Definition get_a (line : nat) : Endpoint.t :=
  Endpoint.mk "/a" "/a" "GET" "https" []
    (SourceCode.mk "app.js" line (Some 0%nat) (Some None) "Module > CallExpression")
    (Some [ev line]) (Some ∅).

(** A jQuery record for [POST /b]: no [evidence] field. *)
Definition post_b (line : nat) : Endpoint.t :=
  Endpoint.mk "/b" "/b" "POST" "https" []
    (SourceCode.mk "app.js" line None None "Module > CallExpression") None None.

End Samples.

(** ** Well-formed taint tables *)

Module TaintInv.
Import Taint.

(** What holds of the record stored under [x] in a table built by the
    visitor. *)
Definition record_ok (table : gmap string TaintState) (x : string) (t : TaintState)
  : Prop :=
  name t = x
  ∧ isTainted t = true
  ∧ sourceName t ∈ sources
  ∧ operation t = "assignment"
  ∧ Forall (fun d => is_Some (table !! d)) (dependencies t)
  ∧ match sinkName t with
    | Some s => reachesSink t = true ∧ s ∈ sinks
    | None => reachesSink t = false
    end.

Definition edge_ok (table : gmap string TaintState) (e : DataflowEdge) : Prop :=
  is_Some (table !! from e) ∧ is_Some (table !! to e) ∧ edge_operation e = "assignment".

Definition wf (self : TaintAnalyzer) : Prop :=
  (∀ x t, taintState self !! x = Some t → record_ok (taintState self) x t)
  ∧ Forall (edge_ok (taintState self)) (dataflowEdges self).

End TaintInv.

(** ** Flow reconstruction *)

Module FlowSpec.
Import Taint Flow.

(** The [dependencies.forEach(dep => walk(dep))] loop over a given
    [walk]. *)
Definition walkEach (walk : string → WalkState → option WalkState)
  : list string → WalkState → option WalkState :=
  fix forEach (deps : list string) (st : WalkState) : option WalkState :=
    match deps with
    | [] => Some st
    | dep :: deps' =>
        match walk dep st with
        | Some st' => forEach deps' st'
        | None => None
        end
    end.

(** The step pushed for a variable of the table. *)
Definition step_of (table : gmap string TaintState) (s : Confidence.PathStep) : Prop :=
  ∃ t, table !! Confidence.variable s = Some t
       ∧ s = Confidence.mkStep (Confidence.variable s) (operation t) (location t).

(** What holds of the walk's state at every moment. *)
Definition walk_inv (table : gmap string TaintState) (st : WalkState) : Prop :=
  NoDup (Confidence.variable <$> path st)
  ∧ ∀ s, s ∈ path st → Confidence.variable s ∈ visited st ∧ step_of table s.

(** Table entries not visited yet. *)
Definition remaining (table : gmap string TaintState) (st : WalkState) : nat :=
  size (dom table ∖ visited st).

(** What one [walk] achieves. *)
Definition walked (table : gmap string TaintState) (name : string)
    (st st' : WalkState) : Prop :=
  visited st ⊆ visited st'
  ∧ name ∈ visited st'
  ∧ walk_inv table st'
  ∧ path st `prefix_of` path st'
  ∧ (name ∉ visited st → ∀ t, table !! name = Some t →
       (path st ++ [Confidence.mkStep name (operation t) (location t)])
         `prefix_of` path st').

End FlowSpec.

(** ** Risk rating *)

Module RiskSpec.
Import Taint Flow.

(** The rating over the registries. *)
Definition rated (source sink : string) : Prop :=
  (assessRisk source sink = high ↔ (source, sink) ∈ highRisk)
  ∧ (assessRisk source sink = medium
     ↔ sink ∈ ["innerHTML"; "document.write"] ∧ (source, sink) ∉ highRisk).

End RiskSpec.

(** ** Trees *)

Module TreeSpec.
Import Walker.

(** The number of constructors of a tree. *)
Fixpoint tsize (t : tree) : nat :=
  match t with
  | TPrim _ => 1
  | TArray items => S (list_sum (map tsize items))
  | TObject fields => S (list_sum (map (fun kv => tsize kv.2) fields))
  end.

(** The nodes one call of [countASTNodes] recurses into. *)
Definition count_children (node : tree) : list tree :=
  match node with
  | TPrim _ => []
  | TArray items => flat_map expand items
  | TObject fields =>
      flat_map (fun kv => if String.eqb kv.1 "span" then [] else expand kv.2) fields
  end.

End TreeSpec.

(** * Properties *)

(** ** URL parameterisation *)

Example parameterize_orders :
  Parameterize.parameterizeURL "/users/123/orders/456"
  = Return ("/users/{userId}/orders/{orderId}",
            [mkParameter "userId" in_path ty_integer true None;
             mkParameter "orderId" in_path ty_integer true None]).
Proof. reflexivity. Qed.

Example template_orders :
  UrlBuilder.extractURL
    (TemplateLiteral
       [mkTemplateElement (Some "") ""; mkTemplateElement (Some "/orders/") "/orders/";
        mkTemplateElement (Some "") ""]
       [Identifier "baseUrl"; Identifier "orderId"])
  = Return (Some (mkUrlInfo "{baseUrl}/orders/{orderId}" "{baseUrl}/orders/{orderId}"
                    [mkParameter "baseUrl" in_path ty_string true (Some false);
                     mkParameter "orderId" in_path ty_string true (Some false)]
                    "https")).
Proof. reflexivity. Qed.

Module ParameterizeFacts.
Import JsString Parameterize ParameterizeSpec.

Lemma inferParameterName_spec (done todo : list string) :
  inferParameterName (done ++ todo) (length done)
  = Return (spec_param_name (last done)).
Proof.
  unfold inferParameterName.
  destruct done as [|d done'] using rev_ind; [reflexivity|].
  rewrite length_app, last_snoc; simpl length.
  replace (0 <? length done' + 1)%nat with true
    by (symmetry; apply Nat.ltb_lt; lia).
  replace (length done' + 1 - 1)%nat with (length done') by lia.
  rewrite <- app_assoc. change ([d] ++ todo) with (d :: todo).
  rewrite list_lookup_middle by reflexivity.
  simpl. by destruct (endsWithChar "s" d).
Qed.

Lemma mapSegments_spec (done todo : list string) :
  mapSegments (done ++ todo) (length done) todo
  = Return (spec_walk (last done) todo).
Proof.
  revert done. induction todo as [|seg todo IH]; intros done; [reflexivity|].
  cbn [mapSegments spec_walk].
  specialize (IH (done ++ [seg])).
  rewrite <- app_assoc, length_app, last_snoc in IH. simpl in IH.
  replace (length done + 1)%nat with (S (length done)) in IH by lia.
  unfold parameterizeSegment.
  rewrite inferParameterName_spec.
  destruct (spec_walk (Some seg) todo) as [segs ps].
  destruct (test_digits seg); [|destruct (test_uuid seg)];
    cbn; unfold mbind, completion_bind in *; cbn; rewrite IH; reflexivity.
Qed.

Lemma parameterizeURL_spec (url : string) :
  parameterizeURL url
  = Return (join "/" (spec_walk None (split "/" url)).1,
            (spec_walk None (split "/" url)).2).
Proof.
  unfold parameterizeURL.
  pose proof (mapSegments_spec [] (split "/" url)) as H. simpl in H.
  rewrite H. by destruct (spec_walk None (split "/" url)).
Qed.

End ParameterizeFacts.

(** C5. [parameterizeURL] maps ['/users/123'] to the template
    ['/users/{userId}'] with the single parameter
    [{name: "userId", location: "path", param_type: "integer", required: true}];
    and on every string it returns what the naming rule of the
    specification gives: each all-digit or UUID-shaped segment is replaced
    by a placeholder named after the previous segment (trailing [s]
    stripped if present, [Id] appended), or [id] when it is the first
    segment. *)
Theorem C5_parameterizeURL :
  Parameterize.parameterizeURL "/users/123"
  = Return ("/users/{userId}", [mkParameter "userId" in_path ty_integer true None])
  ∧ ∀ url : string,
      Parameterize.parameterizeURL url
      = Return (JsString.join "/" (ParameterizeSpec.spec_walk None (JsString.split "/" url)).1,
                (ParameterizeSpec.spec_walk None (JsString.split "/" url)).2).
Proof.
  split; [reflexivity|]. apply ParameterizeFacts.parameterizeURL_spec.
Qed.

Example parameterize_uuid :
  Parameterize.parameterizeURL "/users/550e8400-e29b-41d4-a716-446655440000"
  = Return ("/users/{userId}", [mkParameter "userId" in_path ty_string true None]).
Proof. reflexivity. Qed.

Example parameterize_first_segment :
  Parameterize.parameterizeURL "42/items"
  = Return ("{id}/items", [mkParameter "id" in_path ty_integer true None]).
Proof. reflexivity. Qed.

(** [parseURL] never takes its [catch] branch. *)
Lemma parseURL_is_Some (urlString : string) : is_Some (UrlBuilder.parseURL urlString).
Proof.
  unfold UrlBuilder.parseURL. rewrite ParameterizeFacts.parameterizeURL_spec.
  cbn. eauto.
Qed.

(** ** Template literals *)

Module TemplateFacts.
Import JsString UrlBuilder TemplateSpec.

Lemma getMemberExpressionRoot_base (object : expr) (property : MemberProp) :
  getMemberExpressionRoot (MemberExpression object property)
  = JsVal.or (value_of (chain_base object)) (VString "").
Proof.
  revert property. induction object; intros p; try reflexivity.
  change (getMemberExpressionRoot (MemberExpression object property)
          = JsVal.or (value_of (chain_base object)) (VString "")).
  apply IHobject.
Qed.

Lemma matches_suspect_iff (nm : string) :
  matches_suspect nm = true ↔ ∃ src, src ∈ taintSources ∧ includes src nm = true.
Proof.
  unfold matches_suspect. rewrite existsb_exists.
  split; intros (src & Hin & Hs); exists src; split; auto;
    by apply list_elem_of_In.
Qed.

Lemma suspect_root_iff (object : expr) (property : MemberProp) :
  suspect_root (MemberExpression object property)
  ↔ ∃ nm, value_of (chain_base object) = VString nm ∧ matches_suspect nm = true.
Proof.
  setoid_rewrite matches_suspect_iff. split.
  - intros (o & p & nm & src & Heq & Hv & Hin & Hs).
    injection Heq as -> ->. eauto.
  - intros (nm & Hv & src & Hin & Hs). by exists object, property, nm, src.
Qed.

Lemma isTaintedExpression_member (object : expr) (property : MemberProp) :
  isTaintedExpression (MemberExpression object property)
  = match JsVal.or (value_of (chain_base object)) (VString "") with
    | VString objName => Return (matches_suspect objName)
    | _ => Throw (TypeError "objName.includes is not a function")
    end.
Proof.
  unfold isTaintedExpression. by rewrite getMemberExpressionRoot_base.
Qed.

Lemma isTaintedExpression_suspect_root (e : expr) (b : bool) :
  isTaintedExpression e = Return b → (b = true ↔ suspect_root e).
Proof.
  destruct e as [| | | | | |object property| | | | | |];
    try (intros [= <-]; split; [done | by intros (?&?&?&?&?&?)]).
  rewrite isTaintedExpression_member, suspect_root_iff.
  destruct (value_of (chain_base object)) as [| |[]|n|nm] eqn:Hv;
    cbv [JsVal.or JsVal.truthy].
  - intros [= <-]. split; [done | by intros (? & ? & ?)].
  - intros [= <-]. split; [done | by intros (? & ? & ?)].
  - done.
  - intros [= <-]. split; [done | by intros (? & ? & ?)].
  - destruct (N.eqb n 0); cbn [negb]; [|done].
    intros [= <-]. split; [done | by intros (? & ? & ?)].
  - intros Hb.
    assert (b = matches_suspect nm) as ->.
    { destruct (String.eqb_spec nm ""); cbn [negb] in Hb; [subst nm|]; congruence. }
    split; [by exists nm|]. by intros (nm' & [= <-] & ?).
Qed.

Lemma templateLoop_returns (quasis : list TemplateElement) (expressions : list expr) :
  Forall (fun e => returns (isTaintedExpression e)) expressions →
  returns (templateLoop quasis expressions).
Proof.
  revert expressions. induction quasis as [|q quasis IH]; intros es Hes.
  { by eexists. }
  destruct es as [|e es]; cbn [templateLoop].
  - destruct (IH [] Hes) as [[rest ps] ->]. by eexists.
  - inversion Hes as [|?? [b Hb] Hes']; subst.
    rewrite Hb. destruct (IH es Hes') as [[rest ps] ->]. by eexists.
Qed.

Lemma templateLoop_taint_source (quasis : list TemplateElement) :
  ∀ (expressions : list expr) (tpl : string) (ps : list Param),
    templateLoop quasis expressions = Return (tpl, ps) →
    ∀ (i : nat) (e : expr),
      (i < length quasis)%nat → expressions !! i = Some e →
      ∃ p b, ps !! i = Some p ∧ taint_source p = Some b ∧ (b = true ↔ suspect_root e).
Proof.
  induction quasis as [|q quasis IH]; intros es tpl ps Hloop i e Hi He.
  { simpl in Hi. lia. }
  destruct es as [|e0 es]; [done|].
  cbn [templateLoop] in Hloop.
  destruct (isTaintedExpression e0) as [b0|] eqn:Hb0; [|done].
  destruct (templateLoop quasis es) as [[rest ps']|] eqn:Hrest; [|done].
  injection Hloop as <- <-.
  destruct i as [|i]; simpl in He.
  - injection He as <-. eexists _, b0. split; [reflexivity|]. split; [reflexivity|].
    by apply isTaintedExpression_suspect_root.
  - simpl in Hi. eapply (IH es rest ps' Hrest i e); [lia | done].
Qed.

End TemplateFacts.

(** C9. For every template-literal URL expression on which the builder
    returns, the [raw] field of its output is the same string as the
    [template] field (with [{name}] placeholders, not the [${...}] markers
    of the source); and the builder does return whenever the taint test of
    every embedded expression returns. *)
Theorem C9_template_raw_is_template
    (quasis : list TemplateElement) (expressions : list expr) :
  (Forall (fun e => TemplateSpec.returns (UrlBuilder.isTaintedExpression e)) expressions →
   ∃ u, UrlBuilder.extractURL (TemplateLiteral quasis expressions) = Return (Some u))
  ∧ ∀ u : UrlInfo,
      UrlBuilder.extractURL (TemplateLiteral quasis expressions) = Return (Some u) →
      Url.raw u = Url.template u.
Proof.
  cbn [UrlBuilder.extractURL]. unfold UrlBuilder.parseTemplateLiteral. split.
  - intros Hes.
    destruct (TemplateFacts.templateLoop_returns quasis expressions Hes) as [[tpl ps] ->].
    by eexists.
  - intros u. destruct (UrlBuilder.templateLoop quasis expressions) as [[tpl ps]|]; [|done].
    by intros [= <-].
Qed.

Lemma C9_witness :
  (∃ u, UrlBuilder.extractURL
          (TemplateLiteral [mkTemplateElement (Some "/orders/") "/orders/";
                            mkTemplateElement (Some "") ""]
                           [Identifier "orderId"]) = Return (Some u))
  ∧ Url.raw (mkUrlInfo "/orders/{orderId}" "/orders/{orderId}"
               [mkParameter "orderId" in_path ty_string true (Some false)] "https")
    = "/orders/{orderId}".
Proof.
  pose proof (C9_template_raw_is_template
                [mkTemplateElement (Some "/orders/") "/orders/";
                 mkTemplateElement (Some "") ""]
                [Identifier "orderId"]) as [Hret Hraw].
  split.
  - apply Hret. repeat constructor. by exists false.
  - apply (Hraw (mkUrlInfo "/orders/{orderId}" "/orders/{orderId}"
               [mkParameter "orderId" in_path ty_string true (Some false)] "https")).
    reflexivity.
Defined.

(** On [`${user.params.id}`] the specification's rule says [true] (the
    segment [params] is a suspect identifier) and the emitted parameter
    says [false]: only the root [user] is examined. *)
Lemma C8_counterexample :
  UrlBuilder.templateLoop
    [mkTemplateElement (Some "/u/") "/u/"; mkTemplateElement (Some "") ""]
    [MemberExpression (MemberExpression (Identifier "user") (PropIdentifier "params"))
                      (PropIdentifier "id")]
  = Return ("/u/{id}", [mkParameter "id" in_path ty_string true (Some false)])
  ∧ TemplateSpec.spec_taint_source
      (MemberExpression (MemberExpression (Identifier "user") (PropIdentifier "params"))
                        (PropIdentifier "id")) = true.
Proof. split; reflexivity. Qed.

(** C8 (amended). For every embedded expression of a template literal
    on which the builder returns, the emitted parameter's [taint_source] is
    [true] if and only if the expression is a property access whose root
    object (the base of the chain, an identifier or a string literal) has a
    name containing one of [props], [params], [req], [request],
    [location], [window]; the property names along the chain are not
    examined. *)
Theorem C8_taint_source_root_only
    (quasis : list TemplateElement) (expressions : list expr)
    (tpl : string) (ps : list Param) (i : nat) (e : expr) :
  UrlBuilder.templateLoop quasis expressions = Return (tpl, ps) →
  (i < length quasis)%nat →
  expressions !! i = Some e →
  ∃ p b, ps !! i = Some p ∧ taint_source p = Some b
         ∧ (b = true ↔ TemplateSpec.suspect_root e).
Proof.
  intros Hloop Hi He.
  exact (TemplateFacts.templateLoop_taint_source quasis expressions tpl ps Hloop i e Hi He).
Qed.

Lemma C8_witness :
  ∃ p b,
    [mkParameter "id" in_path ty_string true (Some true)] !! 0%nat = Some p
    ∧ taint_source p = Some b
    ∧ (b = true ↔ TemplateSpec.suspect_root
                    (MemberExpression (MemberExpression (Identifier "req")
                                                        (PropIdentifier "params"))
                                      (PropIdentifier "id"))).
Proof.
  apply (C8_taint_source_root_only
           [mkTemplateElement (Some "/u/") "/u/"; mkTemplateElement (Some "") ""]
           [MemberExpression (MemberExpression (Identifier "req") (PropIdentifier "params"))
                             (PropIdentifier "id")]
           "/u/{id}" _ 0%nat).
  - reflexivity.
  - simpl. lia.
  - reflexivity.
Defined.

(** A truthy number at the root makes the taint test, and with it the
    whole builder, throw. *)
Example template_numeric_root_throws :
  UrlBuilder.extractURL
    (TemplateLiteral [mkTemplateElement (Some "/u/") "/u/"; mkTemplateElement (Some "") ""]
                     [MemberExpression (NumericLiteral 5) (PropIdentifier "constructor")])
  = Throw (TypeError "objName.includes is not a function").
Proof. reflexivity. Qed.

(** [this.props.id] has no name at its root and is not tainted. *)
Example template_this_props :
  UrlBuilder.isTaintedExpression
    (MemberExpression (MemberExpression ThisExpression (PropIdentifier "props"))
                      (PropIdentifier "id"))
  = Return false.
Proof. reflexivity. Qed.

(** ** Header extraction *)

Module HeaderFacts.
Import EndpointVisitor HeaderSpec.

Local Ltac key_cases b :=
  unfold JsVal.or; cbn [JsVal.truthy];
  destruct b eqn:Hfalsy; cbn [negb JsVal.truthy JsVal.toString];
  rewrite ?Hfalsy; cbn [negb]; try done;
  match goal with |- context [String.eqb ?k "__proto__"] =>
    by destruct (String.eqb k "__proto__") end.

(** One step of the loop, in the words of the specification. *)
Lemma headerStep_spec (headers : gmap string jsval) (p : Property) :
  headerStep headers p
  = match recorded_under p with
    | Some name => <[name := entry p]> headers
    | None => headers
    end.
Proof.
  unfold headerStep, recorded_under, key_name_of.
  destruct p as [k v|k|x|a]; [| |done|done].
  - assert (JsVal.or (value_value_of (KeyValueProperty k v)) (VString "{dynamic}")
            = entry (KeyValueProperty k v)) as ->.
    { cbn [value_value_of entry]. by destruct v as [x| | | | | | | | | | | |]; try destruct x. }
    destruct k as [name|name|n|e]; cbn [key_value_of key_text]; [| | |done].
    + key_cases (String.eqb name "").
    + key_cases (String.eqb name "").
    + key_cases (N.eqb n 0).
  - assert (JsVal.or (value_value_of (MethodProperty k)) (VString "{dynamic}")
            = entry (MethodProperty k)) as -> by done.
    destruct k as [name|name|n|e]; cbn [key_value_of key_text]; [| | |done].
    + key_cases (String.eqb name "").
    + key_cases (String.eqb name "").
    + key_cases (N.eqb n 0).
Qed.

Lemma deciding_snoc (name : string) (properties : list Property) (p : Property) :
  deciding name (properties ++ [p])
  = if decide (recorded_under p = Some name) then Some p else deciding name properties.
Proof.
  unfold deciding. rewrite filter_app.
  destruct (decide (recorded_under p = Some name)) as [Hp|Hp].
  - rewrite filter_cons_True by done. rewrite filter_nil. apply last_snoc.
  - rewrite filter_cons_False by done. by rewrite filter_nil, app_nil_r.
Qed.

(** The whole loop: under each name, the entry of the last property
    recorded under it. *)
Lemma headers_spec (properties : list Property) (name : string) :
  foldl headerStep ∅ properties !! name = entry <$> deciding name properties.
Proof.
  induction properties as [|p properties IH] using rev_ind; [done|].
  rewrite foldl_snoc, deciding_snoc, headerStep_spec.
  destruct (recorded_under p) as [name'|] eqn:Hp.
  - destruct (decide (name' = name)) as [->|Hne].
    + rewrite decide_True by done. by rewrite lookup_insert_eq.
    + rewrite decide_False by congruence. by rewrite lookup_insert_ne.
  - by rewrite decide_False.
Qed.

Lemma filter_none {A} (P : A → Prop) `{!∀ x, Decision (P x)} (l : list A) :
  Forall (fun x => ¬ P x) l → filter P l = [].
Proof.
  induction 1 as [|x l Hx _ IH]; [done|]. by rewrite filter_cons_False.
Qed.

Lemma deciding_at (name : string) (properties : list Property) (i : nat) (p : Property) :
  properties !! i = Some p →
  recorded_under p = Some name →
  (∀ j q, (i < j)%nat → properties !! j = Some q → recorded_under q ≠ Some name) →
  deciding name properties = Some p.
Proof.
  intros Hi Hp Hlater. unfold deciding.
  rewrite <- (take_drop_middle _ _ _ Hi), filter_app.
  rewrite filter_cons_True by done.
  assert (filter (fun q => recorded_under q = Some name) (drop (S i) properties) = [])
    as ->.
  { apply filter_none, Forall_forall. intros q Hq.
    apply list_elem_of_lookup in Hq as [j Hj]. rewrite lookup_drop in Hj.
    apply (Hlater (S i + j)%nat q); [lia|done]. }
  apply last_snoc.
Qed.

(** A property can be exchanged for one with the same key and the same
    entry. *)
Lemma foldl_headerStep_exchange (properties : list Property) (i : nat) (p p' : Property) :
  properties !! i = Some p →
  recorded_under p' = recorded_under p →
  entry p' = entry p →
  foldl headerStep ∅ (<[i := p']> properties) = foldl headerStep ∅ properties.
Proof.
  intros Hi Hkey Hentry.
  rewrite <- (take_drop_middle _ _ _ Hi) at 2.
  rewrite insert_take_drop by (by eapply lookup_lt_Some).
  rewrite !foldl_app. cbn [foldl]. by rewrite !(headerStep_spec _ p'), Hkey, Hentry,
    <- headerStep_spec.
Qed.

Lemma recorded_verbatim_iff (l : jsval) :
  recorded l = l ↔ JsVal.truthy l = true.
Proof.
  unfold recorded. destruct (JsVal.truthy l) eqn:Hl; split; try done.
  intros <-. done.
Qed.

End HeaderFacts.

(** C10. [extractHeaders] returns on every object literal, and every one
    of its properties is accounted for: under each name the map holds the
    entry of the last property recorded under it.  For every property with
    a literal value that is recorded under a name no later property takes,
    the entry is the literal itself when the literal is truthy and the
    placeholder ['{dynamic}'] when it is falsy (empty string, [0],
    [false], [null]); so the literal is recorded verbatim exactly when it
    is truthy, and a falsy literal leaves the very map that a value without
    a [value] field, such as a call, leaves in its place. *)
Theorem C10_falsy_header_literals (properties : list Property) :
  ∃ headers,
    EndpointVisitor.extractHeaders (Some (ObjectExpression properties)) = Return headers
    ∧ (∀ name, headers !! name = HeaderSpec.entry <$> HeaderSpec.deciding name properties)
    ∧ ∀ (i : nat) (k : PropertyName) (v : expr) (name : string),
        properties !! i = Some (KeyValueProperty k v) →
        HeaderSpec.is_literal v = true →
        HeaderSpec.recorded_under (KeyValueProperty k v) = Some name →
        (∀ j q, (i < j)%nat → properties !! j = Some q →
                HeaderSpec.recorded_under q ≠ Some name) →
        headers !! name = Some (HeaderSpec.recorded (HeaderSpec.literal_value v))
        ∧ (HeaderSpec.recorded (HeaderSpec.literal_value v) = HeaderSpec.literal_value v
           ↔ JsVal.truthy (HeaderSpec.literal_value v) = true)
        ∧ (JsVal.truthy (HeaderSpec.literal_value v) = false →
           headers !! name = Some (VString "{dynamic}")
           ∧ ∀ callee args span,
               EndpointVisitor.extractHeaders
                 (Some (ObjectExpression
                          (<[i := KeyValueProperty k (CallExpression callee args span)]>
                             properties)))
               = Return headers).
Proof.
  eexists. split; [reflexivity|]. split; [apply HeaderFacts.headers_spec|].
  intros i k v name Hi Hlit Hname Hlater.
  assert (foldl EndpointVisitor.headerStep ∅ properties !! name
          = Some (HeaderSpec.recorded (HeaderSpec.literal_value v))) as Hentry.
  { rewrite HeaderFacts.headers_spec,
      (HeaderFacts.deciding_at name properties i _ Hi Hname Hlater).
    cbn [fmap option_fmap option_map HeaderSpec.entry]. by rewrite Hlit. }
  split; [done|]. split; [apply HeaderFacts.recorded_verbatim_iff|].
  intros Hfalsy. split.
  - rewrite Hentry. unfold HeaderSpec.recorded. by rewrite Hfalsy.
  - intros callee args span. cbn [EndpointVisitor.extractHeaders]. f_equal.
    apply (HeaderFacts.foldl_headerStep_exchange properties i (KeyValueProperty k v));
      [done|done|].
    cbn [HeaderSpec.entry HeaderSpec.is_literal]. rewrite Hlit.
    unfold HeaderSpec.recorded. by rewrite Hfalsy.
Qed.

Lemma C10_witness :
  ∃ headers,
    EndpointVisitor.extractHeaders
      (Some (ObjectExpression
               [KeyValueProperty (KeyStringLiteral "Content-Type")
                                 (StringLiteral "application/json");
                KeyValueProperty (KeyIdentifier "Authorization") (StringLiteral "");
                KeyValueProperty (KeyStringLiteral "X-Retries") (NumericLiteral 0);
                KeyValueProperty (KeyIdentifier "Accept") (StringLiteral "text/plain")]))
    = Return headers
    ∧ headers !! "Authorization" = Some (VString "{dynamic}")
    ∧ ∀ callee args span,
        EndpointVisitor.extractHeaders
          (Some (ObjectExpression
                   [KeyValueProperty (KeyStringLiteral "Content-Type")
                                     (StringLiteral "application/json");
                    KeyValueProperty (KeyIdentifier "Authorization")
                                     (CallExpression callee args span);
                    KeyValueProperty (KeyStringLiteral "X-Retries") (NumericLiteral 0);
                    KeyValueProperty (KeyIdentifier "Accept") (StringLiteral "text/plain")]))
        = Return headers.
Proof.
  destruct (C10_falsy_header_literals
              [KeyValueProperty (KeyStringLiteral "Content-Type")
                                (StringLiteral "application/json");
               KeyValueProperty (KeyIdentifier "Authorization") (StringLiteral "");
               KeyValueProperty (KeyStringLiteral "X-Retries") (NumericLiteral 0);
               KeyValueProperty (KeyIdentifier "Accept") (StringLiteral "text/plain")])
    as (headers & Hreturns & _ & Hproperty).
  exists headers. split; [exact Hreturns|].
  apply (Hproperty 1%nat (KeyIdentifier "Authorization") (StringLiteral "")
                   "Authorization"); [reflexivity | reflexivity | reflexivity | | reflexivity].
  intros [|[|[|[|j]]]] q Hlater Hq; try lia; try discriminate Hq;
    injection Hq as <-; vm_compute; discriminate.
Defined.

(** Nothing is stored under [__proto__], a key written as a number is
    stored under its text, and of two properties with one key the later
    one decides. *)
Example header_keys :
  EndpointVisitor.extractHeaders
    (Some (ObjectExpression
             [KeyValueProperty (KeyStringLiteral "__proto__") (StringLiteral "x");
              KeyValueProperty (KeyNumericLiteral 7) (StringLiteral "");
              KeyValueProperty (KeyNumericLiteral 1000000000000000000000)
                               (StringLiteral "big");
              KeyValueProperty (KeyIdentifier "Accept") (NumericLiteral 0);
              KeyValueProperty (KeyStringLiteral "Accept") (StringLiteral "text/plain")]))
  = Return (<["Accept" := VString "text/plain"]>
            (<["1e+21" := VString "big"]>
             (<["7" := VString "{dynamic}"]> ∅))).
Proof. vm_compute. reflexivity. Qed.

(** [Number::toString] on integers: exact up to [2^53], the shortest
    digits that name the double beyond, in exponent notation from [10^21]
    on. *)
Example number_keys :
  JsNumber.toString 42 = "42"
  ∧ JsNumber.toString 9007199254740993 = "9007199254740992"
  ∧ JsNumber.toString 295147905179352825856 = "295147905179352830000"
  ∧ JsNumber.toString 1000000000000000000000 = "1e+21"
  ∧ JsNumber.toString 1180591620717411303424 = "1.1805916207174113e+21"
  ∧ JsNumber.toString 100000000000000000000000 = "1e+23"
  ∧ JsNumber.toString (2 ^ 1024) = "Infinity".
Proof. vm_compute. repeat split. Qed.

(** An identifier as value is recorded by its name: its node has a
    [value] field too. *)
Example header_identifier_value :
  EndpointVisitor.extractHeaders
    (Some (ObjectExpression
             [KeyValueProperty (KeyIdentifier "Authorization") (Identifier "token");
              KeyValueProperty (KeyIdentifier "X-Retries") (NumericLiteral 0);
              KeyValueProperty (KeyIdentifier "X-Trace") (BooleanLiteral true)]))
  = Return (<["X-Trace" := VBool true]>
            (<["X-Retries" := VString "{dynamic}"]>
             (<["Authorization" := VString "token"]> ∅))).
Proof. reflexivity. Qed.

(** ** Flow scoring *)

Module ConfidenceFacts.
Import Confidence.
Local Open Scope R_scope.

Lemma clamp_range (c : R) : 0 <= Rmax 0.0 (Rmin 1.0 c) <= 1.
Proof.
  split.
  - apply Rle_trans with 0.0; [lra | apply Rmax_l].
  - apply Rmax_lub; [lra|]. apply Rle_trans with 1.0; [apply Rmin_l | lra].
Qed.

Lemma clamp_id (c : R) : 0 <= c <= 1 → Rmax 0.0 (Rmin 1.0 c) = c.
Proof.
  intros [H0 H1]. rewrite Rmin_right by lra. apply Rmax_right. lra.
Qed.

Lemma exp_tenth_bounds : 0.9 <= exp (- 0.1) <= 0.91.
Proof.
  split.
  - pose proof (exp_ineq1_le (- 0.1)). lra.
  - pose proof (exp_ineq1_le 0.1) as Hle.
    pose proof (exp_pos (- 0.1)) as Hpos.
    assert (exp (- 0.1) * exp 0.1 = 1) as Hinv.
    { rewrite <- exp_plus. replace (- 0.1 + 0.1) with 0 by lra. apply exp_0. }
    nra.
Qed.

Lemma calculateConfidence_single (step : PathStep) :
  sanitized step = false → calculateConfidence [step] = exp (- 0.1).
Proof.
  intros Hs. unfold calculateConfidence. cbn [foldl length]. unfold penalize.
  rewrite Hs. cbn [INR].
  replace (- 0.1 * 1) with (- 0.1) by lra.
  replace (1.0 * exp (- 0.1)) with (exp (- 0.1)) by lra.
  apply clamp_id. pose proof exp_tenth_bounds. lra.
Qed.

End ConfidenceFacts.

(** C7. The confidence of every path lies in [[0, 1]]; for a path of one
    step whose operation contains no sanitizer name it is [exp(-0.1)],
    which is within 0.005 of 0.905.  (Arithmetic over the reals.) *)
Theorem C7_confidence_range (path : list Confidence.PathStep) :
  (0 <= Confidence.calculateConfidence path <= 1)%R
  ∧ ∀ step : Confidence.PathStep,
      path = [step] → Confidence.sanitized step = false →
      Confidence.calculateConfidence path = exp (- 0.1)
      ∧ (0.9 <= Confidence.calculateConfidence path <= 0.91)%R.
Proof.
  split; [apply ConfidenceFacts.clamp_range|].
  intros step -> Hs. rewrite ConfidenceFacts.calculateConfidence_single by done.
  split; [reflexivity | apply ConfidenceFacts.exp_tenth_bounds].
Qed.

Lemma C7_witness :
  Confidence.calculateConfidence [Confidence.mkStep "userId" "assignment" None]
  = exp (- 0.1)
  ∧ (0.9 <= Confidence.calculateConfidence [Confidence.mkStep "userId" "assignment" None]
     <= 0.91)%R.
Proof.
  apply (proj2 (C7_confidence_range [Confidence.mkStep "userId" "assignment" None])
               (Confidence.mkStep "userId" "assignment" None));
    reflexivity.
Defined.

(** A sanitizer name in a step's operation multiplies the score by 0.3. *)
Example confidence_sanitized :
  Confidence.calculateConfidence [Confidence.mkStep "q" "encodeURIComponent(q)" None]
  = Rmax 0.0 (Rmin 1.0 (1.0 * exp (- 0.1 * INR 1) * 0.3))%R.
Proof. reflexivity. Qed.

(** ** The taint tracker *)

Module TaintFacts.
Import Taint.

Lemma propagateTaint_untainted self fromVar toVar operation location :
  is_tainted self fromVar = false →
  propagateTaint self fromVar toVar operation location = self.
Proof.
  unfold is_tainted, propagateTaint.
  destruct (taintState self !! fromVar) as [fromTaint|]; [|done].
  by intros ->.
Qed.

Lemma propagateTaint_tainted self fromVar toVar operation location fromTaint :
  taintState self !! fromVar = Some fromTaint →
  isTainted fromTaint = true →
  propagateTaint self fromVar toVar operation location
  = let toTaint :=
      default (mkTaintState toVar false None "" "" None [] false None)
              (taintState self !! toVar) in
    mkAnalyzer
      (<[toVar := mkTaintState (name toTaint) true (isSource toTaint)
                    (sourceName fromTaint) operation location
                    (dependencies toTaint ++ [fromVar])
                    (reachesSink toTaint) (sinkName toTaint)]> (taintState self))
      (dataflowEdges self ++ [mkEdge fromVar toVar operation location]).
Proof. unfold propagateTaint. by intros -> ->. Qed.

(** *** [reachesSink] through the analyzer's operations *)

Lemma reaches_sink_markTainted_same self x sourceName operation location :
  reaches_sink (markTainted self x sourceName operation location) x = false.
Proof. unfold reaches_sink, markTainted; cbn. by rewrite lookup_insert_eq. Qed.

Lemma reaches_sink_markTainted_other self v x sourceName operation location :
  v ≠ x →
  reaches_sink (markTainted self v sourceName operation location) x
  = reaches_sink self x.
Proof. intros. unfold reaches_sink, markTainted; cbn. by rewrite lookup_insert_ne. Qed.

Lemma reaches_sink_propagateTaint self fromVar toVar operation location x :
  reaches_sink self x = true →
  reaches_sink (propagateTaint self fromVar toVar operation location) x = true.
Proof.
  intros Hx. unfold propagateTaint.
  destruct (taintState self !! fromVar) as [fromTaint|]; [|done].
  destruct (isTainted fromTaint); [|done]. cbn.
  unfold reaches_sink in *; cbn.
  destruct (decide (toVar = x)) as [->|Hne].
  - rewrite lookup_insert_eq. cbn.
    by destruct (taintState self !! x) as [taint|].
  - by rewrite lookup_insert_ne.
Qed.

Lemma reaches_sink_argStep calleeName self arg x :
  reaches_sink self x = true → reaches_sink (argStep calleeName self arg) x = true.
Proof.
  intros Hx. unfold argStep.
  destruct arg; try done.
  destruct (is_tainted self value); [|done].
  unfold reaches_sink in *; cbn. rewrite lookup_alter.
  case_decide; [|done]. subst.
  by destruct (taintState self !! x).
Qed.

Lemma reaches_sink_visitCallExpression self callee arguments x :
  reaches_sink self x = true →
  reaches_sink (visitCallExpression self callee arguments) x = true.
Proof.
  unfold visitCallExpression. case_bool_decide; [|done].
  revert self. induction arguments as [|arg args IH]; intros self Hx; [done|].
  cbn [foldl]. apply IH. by apply reaches_sink_argStep.
Qed.

Lemma reaches_sink_declStep span self decl x :
  x ∉ declMarks decl →
  reaches_sink self x = true → reaches_sink (declStep span self decl) x = true.
Proof.
  unfold declMarks, declStep. intros Hx Hr.
  destruct (truthyName (getIdentifierName (id decl))) as [varName|]; [|done].
  destruct (init decl) as [init|]; [|done].
  assert (reaches_sink
            match truthyName (checkSource init) with
            | Some sourceName => markTainted self varName sourceName "assignment" span
            | None => self
            end x = true) as Hr1.
  { destruct (truthyName (checkSource init)); [|done].
    rewrite reaches_sink_markTainted_other; [done|]. set_solver. }
  destruct init; try done.
  match goal with |- context [if ?c then _ else _] => destruct c end; [|done].
  by apply reaches_sink_propagateTaint.
Qed.

Lemma reaches_sink_visitVariableDeclaration self declarations span x :
  x ∉ flat_map declMarks declarations →
  reaches_sink self x = true →
  reaches_sink (visitVariableDeclaration self declarations span) x = true.
Proof.
  unfold visitVariableDeclaration. revert self.
  induction declarations as [|decl decls IH]; intros self Hx Hr; [done|].
  cbn [foldl flat_map] in *. rewrite elem_of_app in Hx.
  apply IH; [tauto|]. apply reaches_sink_declStep; [tauto | done].
Qed.

Lemma reaches_sink_visitAssignment self lhs rhs span x :
  x ∉ marks (Expression (AssignmentExpression lhs rhs span)) →
  reaches_sink self x = true →
  reaches_sink (visitAssignment self lhs rhs span) x = true.
Proof.
  unfold marks, visitAssignment. intros Hx Hr.
  destruct (truthyName (getIdentifierName lhs)) as [leftVar|]; [|done].
  assert (reaches_sink
            match rhs with
            | Identifier rightVar =>
                if is_tainted self rightVar
                then propagateTaint self rightVar leftVar "assignment" span
                else self
            | _ => self
            end x = true) as Hr1.
  { destruct rhs; try done.
    match goal with |- context [if ?c then _ else _] => destruct c end; [|done].
    by apply reaches_sink_propagateTaint. }
  destruct (truthyName (checkSource rhs)); [|done].
  rewrite reaches_sink_markTainted_other; [done|]. set_solver.
Qed.

Lemma reaches_sink_visit self node x :
  x ∉ marks node →
  reaches_sink self x = true → reaches_sink (visit self node) x = true.
Proof.
  destruct node as [declarations span|e].
  - apply reaches_sink_visitVariableDeclaration.
  - destruct e; try done.
    + apply reaches_sink_visitAssignment.
    + intros _. apply reaches_sink_visitCallExpression.
Qed.

Lemma reaches_sink_run nodes : ∀ self x,
  Forall (fun node => x ∉ marks node) nodes →
  reaches_sink self x = true → reaches_sink (run self nodes) x = true.
Proof.
  unfold run. induction nodes as [|node nodes IH]; intros self x Hm Hr; [done|].
  inversion Hm; subst. cbn [foldl]. apply IH; [done|].
  by apply reaches_sink_visit.
Qed.

(** *** [markTainted] on the same name drops the flag *)

Lemma reaches_sink_propagateTaint_false self fromVar toVar operation location x :
  reaches_sink self x = false →
  reaches_sink (propagateTaint self fromVar toVar operation location) x = false.
Proof.
  intros Hx. unfold propagateTaint.
  destruct (taintState self !! fromVar) as [fromTaint|]; [|done].
  destruct (isTainted fromTaint); [|done]. cbn.
  unfold reaches_sink in *; cbn.
  destruct (decide (toVar = x)) as [->|Hne].
  - rewrite lookup_insert_eq. cbn.
    by destruct (taintState self !! x) as [taint|].
  - by rewrite lookup_insert_ne.
Qed.

Lemma reaches_sink_declStep_false span self decl x :
  x ∈ declMarks decl ∨ reaches_sink self x = false →
  reaches_sink (declStep span self decl) x = false.
Proof.
  unfold declMarks, declStep. intros Hx.
  destruct (truthyName (getIdentifierName (id decl))) as [varName|];
    [|by destruct Hx as [?%elem_of_nil|]].
  destruct (init decl) as [init|]; [|by destruct Hx as [?%elem_of_nil|]].
  assert (reaches_sink
            match truthyName (checkSource init) with
            | Some sourceName => markTainted self varName sourceName "assignment" span
            | None => self
            end x = false) as Hr1.
  { destruct (truthyName (checkSource init)).
    - destruct (decide (varName = x)) as [->|Hne].
      + apply reaches_sink_markTainted_same.
      + rewrite reaches_sink_markTainted_other by done.
        destruct Hx as [Hx|]; [|done]. apply list_elem_of_singleton in Hx. congruence.
    - by destruct Hx as [?%elem_of_nil|]. }
  destruct init; try done.
  match goal with |- context [if ?c then _ else _] => destruct c end; [|done].
  by apply reaches_sink_propagateTaint_false.
Qed.

Lemma reaches_sink_visit_marked self node x :
  x ∈ marks node → reaches_sink (visit self node) x = false.
Proof.
  destruct node as [declarations span|e]; cbn [marks visit].
  - unfold visitVariableDeclaration. revert self.
    assert (∀ decls self, reaches_sink self x = false →
              reaches_sink (foldl (declStep span) self decls) x = false) as Hkeep.
    { induction decls as [|d decls IH]; intros self Hf; [done|].
      cbn [foldl]. apply IH, reaches_sink_declStep_false. by right. }
    induction declarations as [|decl decls IH]; intros self Hx.
    { by apply elem_of_nil in Hx. }
    cbn [flat_map foldl] in *. apply elem_of_app in Hx as [Hx|Hx].
    + apply Hkeep, reaches_sink_declStep_false. by left.
    + by apply IH.
  - destruct e; try by intros ?%elem_of_nil.
    unfold visitAssignment.
    destruct (truthyName (getIdentifierName e1)) as [leftVar|];
      [|by intros ?%elem_of_nil].
    destruct (truthyName (checkSource e2)); [|by intros ?%elem_of_nil].
    intros ->%list_elem_of_singleton. apply reaches_sink_markTainted_same.
Qed.

(** *** Sink detection *)

Lemma visitCallExpression_not_sink self callee arguments :
  getCalleeName callee ∉ sinks → visitCallExpression self callee arguments = self.
Proof. intros Hn. unfold visitCallExpression. by rewrite bool_decide_eq_false_2. Qed.

End TaintFacts.

(** C1. Sink detection is set membership of the flattened callee name,
    not a substring test: with [u] tainted, [axios.get(u)] -- whose callee
    name contains the sink fragment [axios] -- leaves the analyzer as it
    was, so the tainted argument is never inspected; [fetch(u)] marks it. *)
Theorem C1_axios_get_is_not_matched :
  Taint.is_tainted (Taint.run Taint.new [Scenario.decl_u]) "u" = true
  ∧ Taint.getCalleeName Scenario.axios_get = "axios.get"
  ∧ JsString.includes "axios" (Taint.getCalleeName Scenario.axios_get) = true
  ∧ "axios" ∈ Taint.sinks
  ∧ Taint.visit (Taint.run Taint.new [Scenario.decl_u]) Scenario.call_axios_get_u
    = Taint.run Taint.new [Scenario.decl_u]
  ∧ Taint.reaches_sink
      (Taint.run Taint.new [Scenario.decl_u; Scenario.call_axios_get_u]) "u" = false
  ∧ Taint.reaches_sink
      (Taint.run Taint.new [Scenario.decl_u; Scenario.call_fetch_u]) "u" = true.
Proof.
  repeat split; try reflexivity.
  by apply (bool_decide_unpack _).
Qed.

(** After [const u = req.query.url; fetch(u);] the table records
    [reachesSink] for [u]; a later [u = req.body.next], which calls
    [markTainted] on [u], stores a fresh record without the flag. *)
Lemma C2_counterexample :
  Taint.reaches_sink (Taint.run Taint.new [Scenario.decl_u; Scenario.call_fetch_u]) "u"
  = true
  ∧ Taint.reaches_sink
      (Taint.visit (Taint.run Taint.new [Scenario.decl_u; Scenario.call_fetch_u])
                   Scenario.reassign_u) "u" = false
  ∧ Taint.reaches_sink
      (Taint.markTainted (Taint.run Taint.new [Scenario.decl_u; Scenario.call_fetch_u])
                         "u" "req.body" "assignment" None) "u" = false.
Proof. repeat split; reflexivity. Qed.

(** C2 (amended). Once the table records [reachesSink] for a variable, it
    stays recorded through every later visitor operation of the run --
    declarations, assignments, sink calls, and with them [propagateTaint]
    into or out of the variable and [markTainted] on other names -- as
    long as none of them calls [markTainted] on that same name; an
    operation that does call it replaces the record by a fresh one, in
    which the flag is not set. *)
Theorem C2_reaches_sink_kept
    (self : Taint.TaintAnalyzer) (nodes : list tnode) (x : string) :
  (Taint.reaches_sink self x = true →
   Forall (fun node => x ∉ Taint.marks node) nodes →
   Taint.reaches_sink (Taint.run self nodes) x = true)
  ∧ (∀ node, x ∈ Taint.marks node →
       Taint.reaches_sink (Taint.visit (Taint.run self nodes) node) x = false).
Proof.
  split.
  - intros Hr Hm. by apply TaintFacts.reaches_sink_run.
  - intros node. apply TaintFacts.reaches_sink_visit_marked.
Qed.

Lemma C2_witness :
  Taint.reaches_sink
    (Taint.run (Taint.run Taint.new [Scenario.decl_u; Scenario.call_fetch_u])
               [Scenario.decl_w; Scenario.assign_v; Scenario.call_axios_get_u]) "u"
  = true
  ∧ Taint.reaches_sink
      (Taint.visit (Taint.run (Taint.run Taint.new [Scenario.decl_u; Scenario.call_fetch_u])
                              [Scenario.decl_w])
                   Scenario.reassign_u) "u" = false.
Proof.
  split.
  - apply (proj1 (C2_reaches_sink_kept
                    (Taint.run Taint.new [Scenario.decl_u; Scenario.call_fetch_u])
                    [Scenario.decl_w; Scenario.assign_v; Scenario.call_axios_get_u] "u")).
    + reflexivity.
    + repeat constructor; by apply (bool_decide_unpack _).
  - apply (proj2 (C2_reaches_sink_kept
                    (Taint.run Taint.new [Scenario.decl_u; Scenario.call_fetch_u])
                    [Scenario.decl_w] "u")).
    by apply (bool_decide_unpack _).
Defined.

(** C4. [propagateTaint] changes nothing when [fromVar] is not tainted.
    When it is, the record of [toVar] becomes tainted, takes the
    [sourceName] recorded for [fromVar] (the origin label, not the name
    [fromVar]), has [fromVar] appended to the dependencies it already had
    (none if [toVar] was not in the table), every other record is
    untouched, and exactly one edge is appended to the edge log. *)
Theorem C4_propagateTaint
    (self : Taint.TaintAnalyzer) (fromVar toVar operation : string)
    (location : option Position) :
  (Taint.is_tainted self fromVar = false →
   Taint.propagateTaint self fromVar toVar operation location = self)
  ∧ (Taint.is_tainted self fromVar = true →
     ∃ fromTaint toTaint,
       Taint.taintState self !! fromVar = Some fromTaint
       ∧ Taint.taintState (Taint.propagateTaint self fromVar toVar operation location)
           !! toVar = Some toTaint
       ∧ Taint.isTainted toTaint = true
       ∧ Taint.sourceName toTaint = Taint.sourceName fromTaint
       ∧ Taint.dependencies toTaint
         = from_option Taint.dependencies [] (Taint.taintState self !! toVar) ++ [fromVar]
       ∧ (∀ other, other ≠ toVar →
            Taint.taintState (Taint.propagateTaint self fromVar toVar operation location)
              !! other = Taint.taintState self !! other)
       ∧ Taint.dataflowEdges (Taint.propagateTaint self fromVar toVar operation location)
         = Taint.dataflowEdges self ++ [Taint.mkEdge fromVar toVar operation location]).
Proof.
  split; [apply TaintFacts.propagateTaint_untainted|].
  unfold Taint.is_tainted.
  destruct (Taint.taintState self !! fromVar) as [fromTaint|] eqn:Hfrom; [|done].
  intros Ht.
  rewrite (TaintFacts.propagateTaint_tainted _ _ _ _ _ _ Hfrom Ht). cbn.
  eexists fromTaint, _. split; [done|]. split; [apply lookup_insert_eq|].
  cbn. split; [done|]. split; [done|]. split.
  - by destruct (Taint.taintState self !! toVar).
  - split; [|done]. intros other Hne. by rewrite lookup_insert_ne.
Qed.

Lemma C4_witness :
  (∃ fromTaint toTaint,
     Taint.taintState (Taint.run Taint.new [Scenario.decl_u]) !! "u" = Some fromTaint
     ∧ Taint.taintState
         (Taint.propagateTaint (Taint.run Taint.new [Scenario.decl_u])
                               "u" "w" "assignment" None) !! "w" = Some toTaint
     ∧ Taint.isTainted toTaint = true
     ∧ Taint.sourceName toTaint = Taint.sourceName fromTaint
     ∧ Taint.dependencies toTaint
       = from_option Taint.dependencies []
           (Taint.taintState (Taint.run Taint.new [Scenario.decl_u]) !! "w") ++ ["u"]
     ∧ (∀ other, other ≠ "w" →
          Taint.taintState
            (Taint.propagateTaint (Taint.run Taint.new [Scenario.decl_u])
                                  "u" "w" "assignment" None) !! other
          = Taint.taintState (Taint.run Taint.new [Scenario.decl_u]) !! other)
     ∧ Taint.dataflowEdges
         (Taint.propagateTaint (Taint.run Taint.new [Scenario.decl_u])
                               "u" "w" "assignment" None)
       = Taint.dataflowEdges (Taint.run Taint.new [Scenario.decl_u])
         ++ [Taint.mkEdge "u" "w" "assignment" None])
  ∧ Taint.propagateTaint Taint.new "u" "w" "assignment" None = Taint.new.
Proof.
  split.
  - apply (proj2 (C4_propagateTaint (Taint.run Taint.new [Scenario.decl_u])
                                    "u" "w" "assignment" None)).
    reflexivity.
  - apply (proj1 (C4_propagateTaint Taint.new "u" "w" "assignment" None)).
    reflexivity.
Defined.

(** Along a chain the origin label travels, and dependencies pile up
    under repeated propagation into one variable. *)
Example propagate_chain :
  let a0 := Taint.markTainted Taint.new "a" "req.params" "assignment" None in
  let a1 := Taint.markTainted a0 "d" "location.hash" "assignment" None in
  let a2 := Taint.propagateTaint a1 "a" "b" "assignment" None in
  let a3 := Taint.propagateTaint a2 "b" "c" "assignment" None in
  let a4 := Taint.propagateTaint a3 "d" "c" "assignment" None in
  (Taint.sourceName <$> Taint.taintState a3 !! "c") = Some "req.params"
  ∧ (Taint.dependencies <$> Taint.taintState a4 !! "c") = Some ["b"; "d"]
  ∧ (Taint.sourceName <$> Taint.taintState a4 !! "c") = Some "location.hash"
  ∧ length (Taint.dataflowEdges a4) = 3%nat.
Proof. repeat split; reflexivity. Qed.

(** ** The tree walker *)

Module WalkerFacts.
Import Walker.

Lemma flat_map_flat_map {A B C} (f : B → list C) (g : A → list B) (l : list A) :
  flat_map f (flat_map g l) = flat_map (fun x => flat_map f (g x)) l.
Proof.
  induction l as [|x l IH]; [done|]. cbn [flat_map].
  by rewrite flat_map_app, IH.
Qed.

(** One call of the walker: the visit of the node, then the walks of the
    nodes it recurses into, all with the extended path. *)
Lemma traverseAST_unfold (node : tree) (nodePath : list tree) :
  traverseAST node nodePath
  = if is_object node then
      visit node (nodePath ++ [get "type" node])
      ++ flat_map (fun c => traverseAST c (nodePath ++ [get "type" node]))
                  (direct_children node)
    else [].
Proof.
  destruct node as [v|items|fields]; [done| |]; cbn [is_object direct_children].
  - cbn [traverseAST]. f_equal. rewrite flat_map_flat_map.
    apply flat_map_ext. intros [v|cs|fs]; cbn [expand flat_map]; try done.
    by rewrite app_nil_r.
  - cbn [traverseAST]. f_equal. rewrite flat_map_flat_map.
    apply flat_map_ext. intros [k [v|cs|fs]]; cbn [fst snd];
      destruct (skipped k); cbn [expand flat_map]; try done.
    by rewrite app_nil_r.
Qed.

Lemma direct_children_object (node c : tree) :
  c ∈ direct_children node → is_object node = true.
Proof. destruct node; [by intros ?%elem_of_nil|done|done]. Qed.

Lemma descendant_visited (root : tree) (p : list tree) (n : tree) (p' : list tree) :
  descendant root p n p' →
  is_object n = true →
  is_str (get "type" n) "CallExpression" = true →
  VisitCallExpression n (p' ++ [get "type" n]) ∈ traverseAST root p.
Proof.
  intros Hd Hobj Hcall. induction Hd as [node p|node p c n p' Hc Hd IH].
  - rewrite traverseAST_unfold, Hobj. apply elem_of_app; left.
    unfold visit. rewrite Hcall. apply elem_of_app; left. apply list_elem_of_singleton.
    done.
  - rewrite traverseAST_unfold, (direct_children_object _ _ Hc).
    apply elem_of_app; right. apply list_elem_of_In, in_flat_map.
    exists c. split; apply list_elem_of_In; [done | by apply IH].
Qed.

Lemma expand_nest (n : nat) (fields : list (string * tree)) :
  expand (nest n (TObject fields)) = [nest n (TObject fields)].
Proof. by destruct n. Qed.

Lemma descendant_nest (n : nat) (fields : list (string * tree)) (p : list tree) :
  descendant (nest n (TObject fields)) p (TObject fields)
             (p ++ replicate n (TPrim (VString "ExpressionStatement"))).
Proof.
  revert p. induction n as [|n IH]; intros p.
  - rewrite app_nil_r. constructor.
  - cbn [nest replicate]. eapply descendant_step.
    + cbn. rewrite expand_nest. cbn. apply list_elem_of_singleton. reflexivity.
    + cbn. specialize (IH (p ++ [TPrim (VString "ExpressionStatement")])).
      by rewrite <- app_assoc in IH.
Qed.

Lemma nest_call_visited (n : nat) :
  VisitCallExpression call_leaf
    (replicate n (TPrim (VString "ExpressionStatement"))
     ++ [TPrim (VString "CallExpression")])
  ∈ traverseAST (nest n call_leaf) [].
Proof.
  apply (descendant_visited (nest n call_leaf) [] call_leaf
           (replicate n (TPrim (VString "ExpressionStatement"))));
    [|done|done].
  apply (descendant_nest n _ []).
Qed.

(** *** The bounded stack *)

Lemma forEach_app {A} (f : A → completion (list event)) (l1 l2 : list A) :
  Engine.forEach f (l1 ++ l2)
  = events ← Engine.forEach f l1; below ← Engine.forEach f l2; Return (events ++ below).
Proof.
  induction l1 as [|x l1 IH]; cbn [app Engine.forEach].
  - destruct (Engine.forEach f l2); reflexivity.
  - destruct (f x) as [ex|]; [|done]. rewrite IH.
    destruct (Engine.forEach f l1) as [e1|]; [|done].
    destruct (Engine.forEach f l2) as [e2|]; [|done].
    cbn. by rewrite app_assoc.
Qed.

Lemma forEach_flat_map {A B} (f : B → completion (list event)) (g : A → list B)
    (l : list A) :
  Engine.forEach f (flat_map g l) = Engine.forEach (fun x => Engine.forEach f (g x)) l.
Proof.
  induction l as [|x l IH]; [done|]. cbn [flat_map Engine.forEach].
  by rewrite forEach_app, IH.
Qed.

Lemma forEach_ext {A} (f g : A → completion (list event)) (l : list A) :
  (∀ x, f x = g x) → Engine.forEach f l = Engine.forEach g l.
Proof. intros Hfg. induction l as [|x l IH]; [done|]. cbn. by rewrite Hfg, IH. Qed.

Lemma forEach_singleton {A} (f : A → completion (list event)) (x : A) :
  Engine.forEach f [x] = f x.
Proof. cbn. destruct (f x); [|done]. cbn. by rewrite app_nil_r. Qed.

(** One activation on the bounded stack. *)
Lemma engine_unfold (stack : nat) (node : tree) (nodePath : list tree) :
  Engine.traverseAST (S stack) node nodePath
  = if is_object node then
      below ← Engine.forEach
                (fun c => Engine.traverseAST stack c (nodePath ++ [get "type" node]))
                (direct_children node);
      Return (visit node (nodePath ++ [get "type" node]) ++ below)
    else Return [].
Proof.
  destruct node as [v|items|fields]; [done| |]; cbn [is_object direct_children].
  - cbn [Engine.traverseAST]. f_equal. rewrite forEach_flat_map.
    apply forEach_ext. intros [v|cs|fs]; cbn [expand]; by rewrite ?forEach_singleton.
  - cbn [Engine.traverseAST]. f_equal. rewrite forEach_flat_map.
    apply forEach_ext. intros [k [v|cs|fs]]; cbn [fst snd];
      destruct (skipped k); cbn [expand]; by rewrite ?forEach_singleton.
Qed.

Lemma list_max_flat_map {A B} (h : B → nat) (g : A → list B) (l : list A) :
  list_max (map h (flat_map g l)) = list_max (map (fun x => list_max (map h (g x))) l).
Proof.
  induction l as [|x l IH]; [done|]. cbn [flat_map map].
  rewrite map_app, list_max_app. cbn [list_max]. by rewrite IH.
Qed.

Lemma list_max_ext {A} (f g : A → nat) (l : list A) :
  (∀ x, f x = g x) → list_max (map f l) = list_max (map g l).
Proof.
  intros Hfg. induction l as [|x l IH]; [done|]. cbn [map].
  change (Nat.max (f x) (list_max (map f l)) = Nat.max (g x) (list_max (map g l))).
  by rewrite Hfg, IH.
Qed.

(** The nesting of a node is one more than that of the deepest node the
    walk recurses into. *)
Lemma depth_unfold (node : tree) :
  Nesting.depth node
  = if is_object node then S (list_max (map Nesting.depth (direct_children node)))
    else 1%nat.
Proof.
  destruct node as [v|items|fields]; [done| |]; cbn [is_object direct_children].
  - cbn [Nesting.depth]. f_equal. rewrite list_max_flat_map.
    apply list_max_ext. by intros [v|cs|fs].
  - cbn [Nesting.depth]. f_equal. rewrite list_max_flat_map.
    apply list_max_ext. intros [k [v|cs|fs]]; cbn [fst snd]; unfold skipped;
      by destruct (String.eqb k "span" || String.eqb k "ctxt").
Qed.

Lemma loop_returns {A} (f : A → completion (list event)) (g : A → list event)
    (l : list A) :
  (∀ x, x ∈ l → f x = Return (g x)) → Engine.forEach f l = Return (flat_map g l).
Proof.
  induction l as [|x l IH]; intros Hf; [done|]. cbn [Engine.forEach flat_map].
  rewrite (Hf x) by (apply elem_of_cons; by left).
  rewrite IH by (intros y Hy; apply Hf, elem_of_cons; by right). done.
Qed.

Lemma loop_throws {A} (f : A → completion (list event)) (e : js_error) (l : list A) :
  (∀ x, x ∈ l → (∃ events, f x = Return events) ∨ f x = Throw e) →
  (∃ x, x ∈ l ∧ f x = Throw e) →
  Engine.forEach f l = Throw e.
Proof.
  induction l as [|x l IH]; intros Hall (y & Hy & Hthrow).
  - by apply elem_of_nil in Hy.
  - cbn [Engine.forEach].
    destruct (Hall x) as [[events Hx]|Hx]; [apply elem_of_cons; by left| |by rewrite Hx].
    rewrite Hx. apply elem_of_cons in Hy as [->|Hy]; [congruence|].
    rewrite IH; [done| |by exists y].
    intros z Hz. apply Hall, elem_of_cons. by right.
Qed.

(** The walk on a bounded stack: the whole walk when the tree's nesting
    fits, the overflow otherwise. *)
Lemma engine_spec (stack : nat) : ∀ (node : tree) (nodePath : list tree),
  Engine.traverseAST stack node nodePath
  = if bool_decide (Nesting.depth node ≤ stack)%nat
    then Return (traverseAST node nodePath)
    else Throw Engine.stack_overflow.
Proof.
  induction stack as [|stack IH]; intros node nodePath.
  - rewrite bool_decide_eq_false_2; [done|].
    rewrite depth_unfold. destruct (is_object node); lia.
  - rewrite engine_unfold, traverseAST_unfold, depth_unfold.
    destruct (is_object node); [|by rewrite bool_decide_eq_true_2 by lia].
    set (q := nodePath ++ [get "type" node]).
    destruct (decide (list_max (map Nesting.depth (direct_children node)) ≤ stack)%nat)
      as [Hfit|Hdeep].
    + rewrite bool_decide_eq_true_2 by lia.
      rewrite (loop_returns _ (fun c => traverseAST c q)); [done|].
      intros c Hc. rewrite IH, bool_decide_eq_true_2; [done|].
      apply list_max_le in Hfit. rewrite Forall_forall in Hfit.
      apply Hfit, list_elem_of_In, in_map, list_elem_of_In, Hc.
    + rewrite bool_decide_eq_false_2 by lia.
      rewrite (loop_throws _ Engine.stack_overflow); [done| |].
      * intros c _. rewrite IH. destruct (bool_decide _); [left; by eexists|by right].
      * assert (¬ Forall (fun k => k ≤ stack)%nat
                         (map Nesting.depth (direct_children node))) as Hsome
          by (by rewrite <- list_max_le).
        apply not_Forall_Exists in Hsome; [|intros k; apply _].
        apply Exists_exists in Hsome as (k & Hk & Hgt).
        apply list_elem_of_In, in_map_iff in Hk as (c & <- & Hc).
        exists c. split; [by apply list_elem_of_In|].
        rewrite IH, bool_decide_eq_false_2; [done|]. exact Hgt.
Qed.

Lemma child_direct (node c : tree) :
  Nesting.child node c → c ∈ direct_children node.
Proof.
  assert (∀ key, key ≠ "span" → key ≠ "ctxt" → skipped key = false) as Hskip.
  { intros key H1 H2. unfold skipped.
    destruct (String.eqb_spec key "span"), (String.eqb_spec key "ctxt"); done. }
  destruct 1 as [fields key fs Hin H1 H2|fields key cs c Hin H1 H2 Hc
                 |items fs Hin|items cs c Hin Hc];
    cbn [direct_children]; apply list_elem_of_In, in_flat_map.
  - exists (key, TObject fs). split; [by apply list_elem_of_In|].
    cbn [fst snd]. rewrite Hskip by done. by left.
  - exists (key, TArray cs). split; [by apply list_elem_of_In|].
    cbn [fst snd]. rewrite Hskip by done. by apply list_elem_of_In.
  - exists (TObject fs). split; [by apply list_elem_of_In|]. by left.
  - exists (TArray cs). split; [by apply list_elem_of_In|]. by apply list_elem_of_In.
Qed.

Lemma reaches_descendant (root : tree) (p : list tree) (n : tree) (p' : list tree) :
  Nesting.reaches root p n p' → descendant root p n p'.
Proof.
  induction 1 as [node p|node p c n p' Hc _ IH]; [constructor|].
  eapply descendant_step; [by apply child_direct|done].
Qed.

Lemma reaches_nest (n : nat) (fields : list (string * tree)) (p : list tree) :
  Nesting.reaches (nest n (TObject fields)) p (TObject fields)
                  (p ++ replicate n (TPrim (VString "ExpressionStatement"))).
Proof.
  revert p. induction n as [|n IH]; intros p.
  - rewrite app_nil_r. constructor.
  - cbn [nest replicate]. apply Nesting.reaches_below with (nest n (TObject fields)).
    + assert (∃ fs, nest n (TObject fields) = TObject fs) as [fs ->]
        by (destruct n; by eexists).
      apply (Nesting.child_field _ "expression"); [|done|done].
      apply elem_of_cons; right. apply elem_of_cons; by left.
    + cbn. specialize (IH (p ++ [TPrim (VString "ExpressionStatement")])).
      by rewrite <- app_assoc in IH.
Qed.

Lemma depth_nest (n : nat) (fields : list (string * tree)) :
  Nesting.depth (nest n (TObject fields)) = (n + Nesting.depth (TObject fields))%nat.
Proof.
  induction n as [|n IH]; [done|]. cbn [nest]. rewrite depth_unfold.
  cbn [is_object direct_children flat_map fst snd].
  change (skipped "type") with false. change (skipped "expression") with false.
  rewrite expand_nest. cbn [expand app map].
  change (list_max [?a]) with (Nat.max a 0). lia.
Qed.

End WalkerFacts.

(** There is no depth limit, on whatever engine, under which the walk of
    every tree completes with its visits kept within the limit: for a call
    nested deeper than the limit, a stack with room for the tree lets the
    walk visit it, and a stack without lets the whole walk fail. *)
Lemma C3_counterexample :
  ¬ ∃ limit stack : nat, Nesting.depth_limited limit stack.
Proof.
  intros (limit & stack & Hlimited).
  destruct (Hlimited (Walker.nest limit Walker.call_leaf)) as (events & Hreturns & Hbound).
  rewrite WalkerFacts.engine_spec in Hreturns.
  destruct (bool_decide _); [|done]. injection Hreturns as <-.
  specialize (Hbound _ (WalkerFacts.nest_call_visited limit)).
  cbn [Walker.event_depth] in Hbound.
  rewrite length_app, length_replicate in Hbound. simpl in Hbound. lia.
Qed.

(** C3 (amended). The walk applies no depth limit and aborts no subtree.
    On a tree whose nesting fits the call stack it returns, and every
    call-expression node that lies below the root through fields other than
    [span] and [ctxt], at whatever depth, has been handed to the visitor
    with its chain of ancestor kinds as node path (as long as no visitor
    callback throws).  On a tree nested deeper than the stack has room for,
    the whole walk ends in the engine's [RangeError]. *)
Theorem C3_every_call_visited (stack : nat) (root : tree) (p : list tree) :
  ((Nesting.depth root ≤ stack)%nat →
   ∃ events,
     Engine.traverseAST stack root p = Return events
     ∧ ∀ n p',
         Nesting.reaches root p n p' →
         Walker.is_object n = true →
         Walker.is_str (Walker.get "type" n) "CallExpression" = true →
         Walker.VisitCallExpression n (p' ++ [Walker.get "type" n]) ∈ events)
  ∧ ((stack < Nesting.depth root)%nat →
     Engine.traverseAST stack root p = Throw Engine.stack_overflow).
Proof.
  rewrite WalkerFacts.engine_spec. split.
  - intros Hfits. rewrite bool_decide_eq_true_2 by done.
    eexists. split; [done|]. intros n p' Hreaches.
    by apply WalkerFacts.descendant_visited, WalkerFacts.reaches_descendant.
  - intros Hdeep. by rewrite bool_decide_eq_false_2 by lia.
Qed.

Lemma C3_witness :
  (∃ events,
     Engine.traverseAST 60 (Walker.nest 40 Walker.call_leaf) [] = Return events
     ∧ Walker.VisitCallExpression Walker.call_leaf
         (([] ++ replicate 40 (TPrim (VString "ExpressionStatement")))
          ++ [Walker.get "type" Walker.call_leaf])
       ∈ events)
  ∧ Engine.traverseAST 30 (Walker.nest 40 Walker.call_leaf) []
    = Throw Engine.stack_overflow.
Proof.
  split.
  - destruct (proj1 (C3_every_call_visited 60 (Walker.nest 40 Walker.call_leaf) []))
      as (events & Hreturns & Hvisited); [vm_compute; lia|].
    exists events. split; [exact Hreturns|].
    apply Hvisited; [|reflexivity|reflexivity].
    apply (WalkerFacts.reaches_nest 40 _ []).
  - apply (proj2 (C3_every_call_visited 30 (Walker.nest 40 Walker.call_leaf) [])).
    vm_compute; lia.
Defined.

(** The nesting of the wrappers adds to that of the node they wrap: a
    stack with room for less lets the walk fail, however shallow the
    limit one might have wished for. *)
Example nest_overflows (n : nat) :
  Engine.traverseAST n (Walker.nest n Walker.call_leaf) [] = Throw Engine.stack_overflow.
Proof.
  rewrite WalkerFacts.engine_spec, bool_decide_eq_false_2; [done|].
  unfold Walker.call_leaf. rewrite WalkerFacts.depth_nest.
  rewrite WalkerFacts.depth_unfold. cbn [Walker.is_object]. lia.
Qed.

(** A call nested too deep for the stack takes its shallow sibling with
    it; with room enough both are visited. *)
Example overflow_fails_whole_walk :
  Engine.traverseAST 5
    (TObject [("type", TPrim (VString "Module"));
              ("body", TArray [Walker.nest 4 Walker.call_leaf; Walker.call_leaf])]) []
  = Throw Engine.stack_overflow
  ∧ Engine.traverseAST 7
      (TObject [("type", TPrim (VString "Module"));
                ("body", TArray [Walker.nest 4 Walker.call_leaf; Walker.call_leaf])]) []
    = Return [Walker.VisitCallExpression Walker.call_leaf
                (TPrim (VString "Module")
                 :: replicate 4 (TPrim (VString "ExpressionStatement"))
                 ++ [TPrim (VString "CallExpression")]);
              Walker.VisitCallExpression Walker.call_leaf
                [TPrim (VString "Module"); TPrim (VString "CallExpression")]].
Proof. split; reflexivity. Qed.

(** Siblings are walked in order, and metadata fields are skipped. *)
Example traverse_siblings :
  Walker.traverseAST
    (TObject [("type", TPrim (VString "Module"));
              ("span", TObject [("type", TPrim (VString "CallExpression"))]);
              ("body", TArray [Walker.nest 2 Walker.call_leaf;
                               TPrim VNull;
                               TObject [("type", TPrim (VString "FunctionDeclaration"));
                                        ("identifier",
                                         TObject [("value", TPrim (VString "load"))]);
                                        ("body", Walker.call_leaf)]])]) []
  = [Walker.VisitCallExpression Walker.call_leaf
       [TPrim (VString "Module"); TPrim (VString "ExpressionStatement");
        TPrim (VString "ExpressionStatement"); TPrim (VString "CallExpression")];
     Walker.SetCurrentFunction (TPrim (VString "load"));
     Walker.VisitCallExpression Walker.call_leaf
       [TPrim (VString "Module"); TPrim (VString "FunctionDeclaration");
        TPrim (VString "CallExpression")]].
Proof. reflexivity. Qed.

(** ** The deduplicator *)

Module DedupFacts.
Import Dedup DedupSpec.

Lemma with_evidence_id (ep : Endpoint.t) :
  has_evidence ep → Endpoint.with_evidence ep (evidence_of ep) = ep.
Proof. destruct ep as [? ? ? ? ? ? [ev|] ?]; [done | by intros [? [=]]]. Qed.

Lemma evidence_of_with_evidence (ep : Endpoint.t) (ev : list Evidence.t) :
  evidence_of (Endpoint.with_evidence ep ev) = ev.
Proof. done. Qed.

Lemma with_evidence_twice (ep : Endpoint.t) (ev ev' : list Evidence.t) :
  Endpoint.with_evidence (Endpoint.with_evidence ep ev) ev'
  = Endpoint.with_evidence ep ev'.
Proof. done. Qed.

Lemma evidence_of_Some (ep : Endpoint.t) (ev : list Evidence.t) :
  Endpoint.evidence ep = Some ev → evidence_of ep = ev.
Proof. unfold evidence_of. by intros ->. Qed.

Lemma seen_get_None (key : string) (seen : seen_map) :
  seen_get key seen = None ↔ key ∉ seen.*1.
Proof.
  induction seen as [|[k r] seen IH]; cbn.
  - split; [intros _; apply not_elem_of_nil | done].
  - rewrite not_elem_of_cons. destruct (String.eqb_spec k key) as [->|Hne].
    + split; [done | tauto].
    + rewrite IH. split; [by split | tauto].
Qed.

Lemma seen_get_Some (key : string) (seen : seen_map) (existing : Endpoint.t) :
  seen_get key seen = Some existing → (key, existing) ∈ seen.
Proof.
  induction seen as [|[k r] seen IH]; cbn; [done|].
  destruct (String.eqb_spec k key) as [->|Hne].
  - intros [= ->]. apply elem_of_cons; by left.
  - intros H. apply elem_of_cons; right. by apply IH.
Qed.

(** With distinct keys, the in-place update is a pointwise map. *)
Lemma seen_update_fmap (key : string) (v : Endpoint.t) (seen : seen_map) :
  NoDup seen.*1 →
  seen_update key v seen
  = (fun kr => if String.eqb kr.1 key then (kr.1, v) else kr) <$> seen.
Proof.
  induction seen as [|[k r] seen IH]; intros Hnd; [done|].
  cbn in *. apply NoDup_cons in Hnd as [Hk Hnd].
  destruct (String.eqb_spec k key) as [->|Hne]; f_equal; [|by apply IH].
  symmetry. etransitivity; [|apply list_fmap_id].
  apply list_fmap_ext. intros i [k' r'] Hi. cbn.
  destruct (String.eqb_spec k' key) as [->|]; [|done].
  exfalso. apply Hk. apply list_elem_of_fmap. exists (key, r').
  split; [done|]. by eapply list_elem_of_lookup_2.
Qed.

Lemma update_keys (key : string) (v : Endpoint.t) (seen : seen_map) :
  ((fun kr : string * Endpoint.t =>
      if String.eqb kr.1 key then (kr.1, v) else kr) <$> seen).*1 = seen.*1.
Proof.
  rewrite <- list_fmap_compose. apply list_fmap_ext.
  intros i [k r] _. cbn. by destruct (String.eqb k key).
Qed.

Lemma NoDup_lookup_unique (seen : seen_map) (k : string) (r r' : Endpoint.t) :
  NoDup seen.*1 → (k, r) ∈ seen → (k, r') ∈ seen → r = r'.
Proof.
  intros Hnd [i Hi]%list_elem_of_lookup [j Hj]%list_elem_of_lookup.
  assert (i = j) as ->.
  { eapply (NoDup_lookup _ _ _ _ Hnd); rewrite list_lookup_fmap.
    - by rewrite Hi.
    - by rewrite Hj. }
  congruence.
Qed.

Lemma evidence_for_cons_ne (key : string) (ep : Endpoint.t) (rest : list Endpoint.t) :
  key_of ep ≠ key → evidence_for key (ep :: rest) = evidence_for key rest.
Proof.
  intros Hne. unfold evidence_for. cbn [flat_map].
  by destruct (String.eqb_spec (key_of ep) key).
Qed.

Lemma evidence_for_cons_eq (ep : Endpoint.t) (rest : list Endpoint.t) :
  evidence_for (key_of ep) (ep :: rest)
  = evidence_of ep ++ evidence_for (key_of ep) rest.
Proof. unfold evidence_for. cbn [flat_map]. by rewrite String.eqb_refl. Qed.

Lemma firsts_fresh (seen_keys : list string) (endpoints : list Endpoint.t)
    (first : Endpoint.t) :
  first ∈ firsts seen_keys endpoints → key_of first ∉ seen_keys.
Proof.
  revert seen_keys. induction endpoints as [|ep rest IH]; intros ks; cbn.
  { by intros ?%elem_of_nil. }
  case_bool_decide as Hin; [apply IH|].
  intros [->|Hf]%elem_of_cons; [done|].
  specialize (IH _ Hf). rewrite elem_of_app in IH. tauto.
Qed.

Lemma forEach_spec (endpoints : list Endpoint.t) : ∀ seen : seen_map,
  NoDup seen.*1 →
  Forall has_evidence seen.*2 →
  Forall has_evidence endpoints →
  forEach seen endpoints
  = Return ((settle endpoints <$> seen)
            ++ (settle_first endpoints <$> firsts seen.*1 endpoints)).
Proof.
  induction endpoints as [|ep rest IH]; intros seen Hnd Hseen Heps.
  { cbn [forEach firsts fmap list_fmap]. f_equal. rewrite app_nil_r.
    symmetry. etransitivity; [|apply list_fmap_id].
    apply list_fmap_ext. intros i [k r] Hi. unfold settle; cbn.
    rewrite app_nil_r, with_evidence_id; [done|].
    rewrite Forall_forall in Hseen. apply Hseen.
    apply list_elem_of_fmap. exists (k, r). split; [done|].
    by eapply list_elem_of_lookup_2. }
  apply Forall_cons in Heps as [Hep Hrest].
  cbn [forEach firsts]. unfold step.
  destruct (seen_get (key_of ep) seen) as [existing|] eqn:Hget.
  - (* the key has been seen: merge the evidence *)
    pose proof (seen_get_Some _ _ _ Hget) as Hin.
    assert (key_of ep ∈ seen.*1) as Hkey.
    { apply list_elem_of_fmap. by exists (key_of ep, existing). }
    assert (has_evidence existing) as Hex.
    { rewrite Forall_forall in Hseen. apply Hseen.
      apply list_elem_of_fmap. by exists (key_of ep, existing). }
    destruct Hex as [e Hex]. destruct Hep as [e' Hep].
    rewrite Hex, Hep. cbn.
    rewrite bool_decide_eq_true_2 by done.
    rewrite seen_update_fmap by done.
    change (mbind ?f (Return ?x)) with (f x). cbn beta.
    rewrite IH; cycle 1.
    { by rewrite update_keys. }
    { rewrite <- list_fmap_compose. apply Forall_fmap, Forall_forall.
      intros [k r] Hkr. cbn. destruct (String.eqb k (key_of ep)); cbn; [by eexists|].
      rewrite Forall_forall in Hseen. apply Hseen.
      apply list_elem_of_fmap. by exists (k, r). }
    { done. }
    f_equal. f_equal.
    + rewrite <- list_fmap_compose. apply list_fmap_ext.
      intros i [k r] Hi. unfold settle, compose; cbn [fst snd].
      destruct (String.eqb_spec k (key_of ep)) as [->|Hne]; cbn [fst snd].
      * assert (r = existing) as ->.
        { eapply NoDup_lookup_unique; [done| |done]. by eapply list_elem_of_lookup_2. }
        rewrite evidence_for_cons_eq, evidence_of_with_evidence, with_evidence_twice.
        rewrite (evidence_of_Some _ _ Hex), (evidence_of_Some _ _ Hep).
        by rewrite <- !app_assoc.
      * by rewrite evidence_for_cons_ne.
    + rewrite update_keys.
      apply list_fmap_ext. intros i first Hi. unfold settle_first.
      rewrite evidence_for_cons_ne; [done|].
      intros Heq. eapply firsts_fresh; [by eapply list_elem_of_lookup_2|].
      by rewrite <- Heq.
  - (* a new key: the record is appended *)
    apply seen_get_None in Hget.
    rewrite bool_decide_eq_false_2 by done.
    change (mbind ?f (Return ?x)) with (f x). cbn beta.
    rewrite IH; cycle 1.
    { rewrite fmap_app. cbn. apply NoDup_app. split; [done|].
      split; [|apply NoDup_singleton].
      intros k Hk ->%list_elem_of_singleton. done. }
    { rewrite fmap_app. apply Forall_app. split; [done|]. by repeat constructor. }
    { done. }
    f_equal. rewrite !fmap_app, <- !app_assoc. cbn [fmap list_fmap app].
    f_equal.
    + apply list_fmap_ext. intros i [k r] Hi. unfold settle; cbn [fst snd].
      rewrite evidence_for_cons_ne; [done|].
      intros <-. apply Hget. apply list_elem_of_fmap. exists (key_of ep, r).
      split; [done|]. by eapply list_elem_of_lookup_2.
    + f_equal.
      * unfold settle, settle_first; cbn [fst snd]. by rewrite evidence_for_cons_eq.
      * apply list_fmap_ext. intros i first Hi. unfold settle_first.
        rewrite evidence_for_cons_ne; [done|].
        intros Heq. eapply firsts_fresh; [by eapply list_elem_of_lookup_2|].
        rewrite <- Heq. apply elem_of_app; right. by apply list_elem_of_singleton.
Qed.

(** On records that all carry evidence, the code computes the
    deduplication of the specification. *)
Lemma deduplicateEndpoints_spec (endpoints : list Endpoint.t) :
  Forall has_evidence endpoints →
  deduplicateEndpoints endpoints = Return (spec_dedup endpoints).
Proof.
  intros Heps. unfold deduplicateEndpoints.
  rewrite forEach_spec by (done || constructor).
  change (mbind ?f (Return ?x)) with (f x). cbn beta. f_equal.
  cbn [fmap list_fmap app]. unfold spec_dedup.
  rewrite <- list_fmap_compose. by apply list_fmap_ext.
Qed.

(** Two records of one key, in either order: one record is returned, the
    first, and the two evidence lists hold the same entries. *)
Lemma deduplicate_pair (r1 r2 : Endpoint.t) (e1 e2 : list Evidence.t) :
  key_of r1 = key_of r2 →
  Endpoint.evidence r1 = Some e1 →
  Endpoint.evidence r2 = Some e2 →
  deduplicateEndpoints [r1; r2] = Return [Endpoint.with_evidence r1 (e1 ++ e2)]
  ∧ deduplicateEndpoints [r2; r1] = Return [Endpoint.with_evidence r2 (e2 ++ e1)]
  ∧ e1 ++ e2 ≡ₚ e2 ++ e1.
Proof.
  intros Hk H1 H2.
  assert (∀ a b ea eb, key_of a = key_of b →
            Endpoint.evidence a = Some ea → Endpoint.evidence b = Some eb →
            deduplicateEndpoints [a; b] = Return [Endpoint.with_evidence a (ea ++ eb)])
    as Hpair.
  { intros a b ea eb Hab Ha Hb.
    rewrite deduplicateEndpoints_spec by (repeat constructor; by eexists).
    unfold spec_dedup. cbn [firsts app].
    rewrite bool_decide_eq_false_2 by apply not_elem_of_nil.
    rewrite bool_decide_eq_true_2 by (rewrite Hab; apply list_elem_of_singleton; done).
    cbn [fmap list_fmap]. rewrite evidence_for_cons_eq, Hab, evidence_for_cons_eq.
    rewrite (evidence_of_Some _ _ Ha), (evidence_of_Some _ _ Hb).
    unfold evidence_for. cbn [flat_map]. by rewrite app_nil_r. }
  rewrite (Hpair r1 r2 e1 e2), (Hpair r2 r1 e2 e1) by done.
  split; [done|]. split; [done|]. apply Permutation_app_comm.
Qed.

Lemma includes_colon_cons (c : ascii) (s : string) :
  JsString.includes ":" (String c s) = Ascii.eqb ":" c || JsString.includes ":" s.
Proof. cbn [JsString.includes JsString.startsWith]. by rewrite andb_true_r. Qed.

Lemma append_cons (c : ascii) (s t : string) :
  String c s +:+ t = String c (s +:+ t).
Proof. done. Qed.

Lemma append_nil (t : string) : "" +:+ t = t.
Proof. done. Qed.

Lemma colon_split (m1 m2 t1 t2 : string) :
  colon_free m1 → colon_free m2 →
  m1 +:+ ":" +:+ t1 = m2 +:+ ":" +:+ t2 → m1 = m2 ∧ t1 = t2.
Proof.
  unfold colon_free. revert m2.
  induction m1 as [|c m1 IH]; intros [|c' m2];
    rewrite ?includes_colon_cons, ?append_cons, ?append_nil;
    intros Hm1 Hm2 Heq.
  - by injection Heq as ->.
  - injection Heq as <- _. by rewrite Ascii.eqb_refl in Hm2.
  - injection Heq as -> _. by rewrite Ascii.eqb_refl in Hm1.
  - injection Heq as -> Heq.
    apply orb_false_iff in Hm1 as [_ Hm1]. apply orb_false_iff in Hm2 as [_ Hm2].
    by destruct (IH m2 Hm1 Hm2 Heq) as [-> ->].
Qed.

(** The string key stands for the pair (method, url_template) as long
    as methods hold no colon. *)
Lemma key_of_pair (r1 r2 : Endpoint.t) :
  colon_free (Endpoint.method r1) → colon_free (Endpoint.method r2) →
  key_of r1 = key_of r2
  ↔ (Endpoint.method r1, Endpoint.url_template r1)
    = (Endpoint.method r2, Endpoint.url_template r2).
Proof.
  intros H1 H2. unfold key_of. split.
  - intros Hk. by destruct (colon_split _ _ _ _ H1 H2 Hk) as [-> ->].
  - by intros [= -> ->].
Qed.

End DedupFacts.

(** Two identical [fetch] calls merge into one record carrying both
    evidence entries. *)
Example dedup_fetch_twice :
  (v ← Scenario.visit_twice (Identifier "fetch") Scenario.fetch_args;
   Dedup.deduplicateEndpoints (EndpointVisitor.endpoints v))
  = Return
      [Endpoint.mk "/api/items" "/api/items" "GET" "https" []
         (SourceCode.mk "app.js" 3 (Some 0%nat) (Some None)
            "Module > ExpressionStatement > CallExpression")
         (Some [Evidence.mk "code_pattern" "fetch() call with GET method"
                  (Location.mk "app.js" 3);
                Evidence.mk "code_pattern" "fetch() call with GET method"
                  (Location.mk "app.js" 8)])
         (Some ∅)].
Proof. reflexivity. Qed.

(** The key is the string [method + ":" + url_template]: a method with a
    colon can collide with another pair. *)
Example key_collision :
  Dedup.key_of (Endpoint.mk "x" "x" "GET:" "https" []
                  (SourceCode.mk "app.js" 1 None None "") (Some []) None)
  = Dedup.key_of (Endpoint.mk ":x" ":x" "GET" "https" []
                    (SourceCode.mk "app.js" 2 None None "") (Some []) None).
Proof. reflexivity. Qed.

(** C6. The records of the jQuery (and WebSocket) recogniser carry no
    [evidence] field, and merging spreads that field: two [$.ajax] calls
    with the same method and URL make [deduplicateEndpoints] throw instead
    of retaining the first record. *)
Theorem C6_duplicate_jquery_calls_throw :
  (∃ v r1 r2,
     Scenario.visit_twice Scenario.ajax_callee Scenario.ajax_args = Return v
     ∧ EndpointVisitor.endpoints v = [r1; r2]
     ∧ (Endpoint.method r1, Endpoint.url_template r1) = ("GET", "/api/items")
     ∧ (Endpoint.method r2, Endpoint.url_template r2) = ("GET", "/api/items")
     ∧ Endpoint.evidence r1 = None ∧ Endpoint.evidence r2 = None)
  ∧ (v ← Scenario.visit_twice Scenario.ajax_callee Scenario.ajax_args;
     Dedup.deduplicateEndpoints (EndpointVisitor.endpoints v))
    = Throw (TypeError "undefined is not iterable").
Proof.
  split; [|reflexivity].
  eexists _, _, _. split; [reflexivity|]. repeat split; reflexivity.
Qed.

(** * Further properties of the code *)

(** ** Completions *)

Module CompletionFacts.

Lemma mbind_Return {A B} (f : A → completion B) (a : A) : mbind f (Return a) = f a.
Proof. done. Qed.

Lemma mbind_Throw {A B} (f : A → completion B) (e : js_error) :
  mbind f (Throw e) = Throw e.
Proof. done. Qed.

Lemma fmap_Return {A B} (f : A → B) (a : A) : f <$> Return a = Return (f a).
Proof. done. Qed.

Lemma fmap_Throw {A B} (f : A → B) (e : js_error) :
  f <$> (Throw e : completion A) = Throw e.
Proof. done. Qed.

End CompletionFacts.

(** ** Splitting and joining *)

Module StringFacts.
Import JsString Segments.

Lemma append_String (c : ascii) (s t : string) : String c s +:+ t = String c (s +:+ t).
Proof. done. Qed.

Lemma append_nil_l (t : string) : "" +:+ t = t.
Proof. done. Qed.

Lemma append_nil_r (s : string) : s +:+ "" = s.
Proof. induction s as [|c s IH]; [done|]. by rewrite append_String, IH. Qed.

Lemma append_assoc (s t u : string) : (s +:+ t) +:+ u = s +:+ t +:+ u.
Proof. induction s as [|c s IH]; [done|]. by rewrite !append_String, IH. Qed.

Lemma split_not_nil (sep : ascii) (s : string) : split sep s ≠ [].
Proof.
  destruct s as [|c s]; cbn; [done|].
  destruct (Ascii.eqb c sep); [done|]. by destruct (split sep s).
Qed.

Lemma join_cons (sep p : string) (rest : list string) :
  rest ≠ [] → join sep (p :: rest) = p +:+ sep +:+ join sep rest.
Proof. by destruct rest. Qed.

(** [s.split(sep).join(sep)] gives [s] back. *)
Lemma join_split (sep : ascii) (s : string) :
  join (String sep "") (split sep s) = s.
Proof.
  induction s as [|c s IH]; [done|]. cbn [split].
  destruct (Ascii.eqb_spec c sep) as [->|Hne].
  - rewrite join_cons by apply split_not_nil. by rewrite IH.
  - destruct (split sep s) as [|h t] eqn:Hs; [by apply split_not_nil in Hs|].
    destruct t as [|h' t].
    + cbn in *. by rewrite IH.
    + rewrite join_cons by done. rewrite join_cons in IH by done.
      by rewrite append_String, IH.
Qed.

Lemma split_free (sep : ascii) (s : string) :
  Forall (fun seg => free_of sep seg = true) (split sep s).
Proof.
  induction s as [|c s IH]; [by repeat constructor|]. cbn [split].
  destruct (Ascii.eqb_spec c sep) as [->|Hne].
  - by constructor.
  - destruct (split sep s) as [|h t] eqn:Hs; [by apply split_not_nil in Hs|].
    apply Forall_cons in IH as [Hh Ht]. constructor; [|done].
    cbn. rewrite Hh. by destruct (Ascii.eqb_spec c sep).
Qed.

Lemma split_free_app (sep : ascii) (p rest : string) :
  free_of sep p = true →
  split sep (p +:+ String sep rest) = p :: split sep rest.
Proof.
  induction p as [|c p IH]; cbn [free_of].
  - intros _. rewrite append_nil_l. cbn [split]. by rewrite Ascii.eqb_refl.
  - intros [Hc Hp]%andb_true_iff. rewrite append_String. cbn [split].
    destruct (Ascii.eqb c sep); [done|]. by rewrite IH.
Qed.

Lemma split_free_id (sep : ascii) (p : string) :
  free_of sep p = true → split sep p = [p].
Proof.
  induction p as [|c p IH]; cbn [free_of split]; [done|].
  intros [Hc Hp]%andb_true_iff. destruct (Ascii.eqb c sep); [done|]. by rewrite IH.
Qed.

(** [parts.join(sep).split(sep)] gives [parts] back when no part holds
    the separator. *)
Lemma split_join (sep : ascii) (parts : list string) :
  parts ≠ [] →
  Forall (fun seg => free_of sep seg = true) parts →
  split sep (join (String sep "") parts) = parts.
Proof.
  induction parts as [|p parts IH]; [done|]. intros _ [Hp Hparts]%Forall_cons.
  destruct parts as [|p' parts].
  - cbn [join]. by apply split_free_id.
  - rewrite join_cons by done. rewrite append_String, append_nil_l.
    rewrite split_free_app by done. f_equal. by apply IH.
Qed.

Lemma free_of_append (sep : ascii) (s t : string) :
  free_of sep (s +:+ t) = free_of sep s && free_of sep t.
Proof.
  induction s as [|c s IH]; [done|]. rewrite append_String. cbn [free_of].
  by rewrite IH, andb_assoc.
Qed.

Lemma free_of_dropLast (sep : ascii) (s : string) :
  free_of sep s = true → free_of sep (dropLast s) = true.
Proof.
  induction s as [|c s IH]; [done|]. cbn [free_of dropLast].
  intros [Hc Hs]%andb_true_iff. destruct s; [done|].
  cbn [free_of] in *. rewrite Hc. cbn. by apply IH.
Qed.

End StringFacts.

(** ** URL parameterisation, continued *)

Module ParameterizeMore.
Import JsString Segments Parameterize ParameterizeSpec StringFacts.

Lemma placeholder_not_variable (nm : string) :
  is_variable ("{" +:+ nm +:+ "}") = false.
Proof.
  unfold is_variable, test_digits, test_uuid. rewrite append_String, append_nil_l.
  cbn [forallb_string]. by rewrite andb_false_r.
Qed.

Lemma spec_param_name_free (previous : option string) :
  from_option (free_of "/") true previous = true →
  free_of "/" (spec_param_name previous) = true.
Proof.
  destruct previous as [prev|]; [|done]. cbn [from_option spec_param_name].
  intros Hp. rewrite free_of_append.
  destruct (endsWithChar "s" prev); [rewrite free_of_dropLast|rewrite Hp]; done.
Qed.

Lemma spec_walk_fixed (segments : list string) : ∀ previous,
  Forall (fun seg => is_variable seg = false) segments →
  spec_walk previous segments = (segments, []).
Proof.
  induction segments as [|seg rest IH]; intros prev Hs; [done|].
  apply Forall_cons in Hs as [Hseg Hrest]. cbn [spec_walk].
  rewrite (IH _ Hrest). unfold is_variable in Hseg.
  apply orb_false_iff in Hseg as [-> ->]. done.
Qed.

Lemma spec_walk_segments (segments : list string) : ∀ previous,
  length (spec_walk previous segments).1 = length segments
  ∧ Forall (fun seg => is_variable seg = false) (spec_walk previous segments).1
  ∧ (from_option (free_of "/") true previous = true →
     Forall (fun seg => free_of "/" seg = true) segments →
     Forall (fun seg => free_of "/" seg = true) (spec_walk previous segments).1)
  ∧ length (spec_walk previous segments).2 = length (filter (fun seg => is_variable seg = true) segments)
  ∧ Forall (fun p => location p = in_path ∧ required p = true ∧ taint_source p = None)
           (spec_walk previous segments).2.
Proof.
  induction segments as [|seg rest IH]; intros prev.
  { cbn. repeat split; by constructor. }
  cbn [spec_walk]. destruct (IH (Some seg)) as (Hlen & Hfix & Hfree & Hcount & Hps).
  destruct (spec_walk (Some seg) rest) as [segs ps]. cbn [fst snd] in *.
  assert (from_option (free_of "/") true prev = true →
            Forall (fun s => free_of "/" s = true) (seg :: rest) →
            Forall (fun s => free_of "/" s = true)
                   (("{" +:+ spec_param_name prev +:+ "}") :: segs)) as Hplace.
  { intros Hp [Hs Hr]%Forall_cons. constructor; [|by apply Hfree].
    rewrite !free_of_append, spec_param_name_free by done. done. }
  rewrite filter_cons. unfold is_variable at 2 3 4 5.
  destruct (test_digits seg) eqn:Hd; [|destruct (test_uuid seg) eqn:Hu];
    cbn [fst snd orb length]; rewrite ?decide_True, ?decide_False by done;
    cbn [length].
  - repeat split; [by rewrite Hlen | by constructor; [apply placeholder_not_variable|]
                   | by apply Hplace | by rewrite Hcount | by constructor].
  - repeat split; [by rewrite Hlen | by constructor; [apply placeholder_not_variable|]
                   | by apply Hplace | by rewrite Hcount | by constructor].
  - repeat split; [by rewrite Hlen | constructor; [by unfold is_variable; rewrite Hd, Hu|done]
                   | | done | done].
    intros Hp [Hs Hr]%Forall_cons. constructor; [done|]. by apply Hfree.
Qed.

(** A URL without a variable segment is its own template. *)
Lemma parameterizeURL_fixed (url : string) :
  Forall (fun seg => Segments.is_variable seg = false) (JsString.split "/" url) →
  Parameterize.parameterizeURL url = Return (url, []).
Proof.
  intros Hplain. rewrite ParameterizeFacts.parameterizeURL_spec.
  rewrite spec_walk_fixed by done.
  cbn [fst snd]. by rewrite StringFacts.join_split.
Qed.

End ParameterizeMore.

(** X1. A URL none of whose segments is all digits or UUID-shaped comes
    back unchanged as its own template, with no parameter. *)
Theorem X1_parameterizeURL_plain (url : string) :
  Forall (fun seg => Segments.is_variable seg = false) (JsString.split "/" url) →
  Parameterize.parameterizeURL url = Return (url, []).
Proof. apply ParameterizeMore.parameterizeURL_fixed. Qed.

Lemma X1_witness :
  Parameterize.parameterizeURL "https://api.example.com/v2/users" =
  Return ("https://api.example.com/v2/users", []).
Proof.
  apply (X1_parameterizeURL_plain "https://api.example.com/v2/users").
  by apply (bool_decide_unpack _).
Defined.

(** X2. Parameterisation is idempotent: run on a template it produced, it
    returns that template again and finds nothing more to replace. *)
Theorem X2_parameterizeURL_idempotent (url tpl : string) (ps : list Param) :
  Parameterize.parameterizeURL url = Return (tpl, ps) →
  Parameterize.parameterizeURL tpl = Return (tpl, []).
Proof.
  rewrite ParameterizeFacts.parameterizeURL_spec. intros [= <- _].
  destruct (ParameterizeMore.spec_walk_segments (JsString.split "/" url) None)
    as (Hlen & Hfix & Hfree & _).
  apply ParameterizeMore.parameterizeURL_fixed.
  rewrite StringFacts.split_join; [done| |].
  - intros Hnil. rewrite Hnil in Hlen. cbn in Hlen.
    destruct (JsString.split "/" url) eqn:Hs; [|done].
    by apply StringFacts.split_not_nil in Hs.
  - apply Hfree; [done|]. apply StringFacts.split_free.
Qed.

Lemma X2_witness :
  Parameterize.parameterizeURL "/users/{userId}/orders/{orderId}"
  = Return ("/users/{userId}/orders/{orderId}", []).
Proof.
  apply (X2_parameterizeURL_idempotent "/users/123/orders/456"
           "/users/{userId}/orders/{orderId}"
           [mkParameter "userId" in_path ty_integer true None;
            mkParameter "orderId" in_path ty_integer true None]).
  reflexivity.
Defined.

(** X3. The template has as many [/]-separated segments as the URL, and
    there is exactly one parameter per all-digit or UUID-shaped segment,
    each a required path parameter without a [taint_source] field. *)
Theorem X3_parameterizeURL_counts (url tpl : string) (ps : list Param) :
  Parameterize.parameterizeURL url = Return (tpl, ps) →
  length (JsString.split "/" tpl) = length (JsString.split "/" url)
  ∧ length ps
    = length (filter (fun seg => Segments.is_variable seg = true) (JsString.split "/" url))
  ∧ Forall (fun p => location p = in_path ∧ required p = true ∧ taint_source p = None) ps.
Proof.
  rewrite ParameterizeFacts.parameterizeURL_spec. intros [= <- <-].
  destruct (ParameterizeMore.spec_walk_segments (JsString.split "/" url) None)
    as (Hlen & Hfix & Hfree & Hcount & Hps).
  split; [|done].
  rewrite StringFacts.split_join; [done| |].
  - intros Hnil. rewrite Hnil in Hlen. cbn in Hlen.
    destruct (JsString.split "/" url) eqn:Hs; [|done].
    by apply StringFacts.split_not_nil in Hs.
  - apply Hfree; [done|]. apply StringFacts.split_free.
Qed.

Lemma X3_witness :
  length (JsString.split "/" "/users/{userId}/orders/{orderId}")
  = length (JsString.split "/" "/users/123/orders/456")
  ∧ length [mkParameter "userId" in_path ty_integer true None;
            mkParameter "orderId" in_path ty_integer true None]
    = length (filter (fun seg => Segments.is_variable seg = true)
                     (JsString.split "/" "/users/123/orders/456"))
  ∧ Forall (fun p => location p = in_path ∧ required p = true ∧ taint_source p = None)
           [mkParameter "userId" in_path ty_integer true None;
            mkParameter "orderId" in_path ty_integer true None].
Proof.
  apply (X3_parameterizeURL_counts "/users/123/orders/456"
           "/users/{userId}/orders/{orderId}").
  reflexivity.
Defined.

(** ** The URL builder, continued *)

Module UrlFacts.
Import JsString UrlBuilder Segments.

Lemma parseURL_eq (urlString : string) :
  parseURL urlString
  = Some (mkUrlInfo
            (join "/" (ParameterizeSpec.spec_walk None (split "/" urlString)).1)
            urlString
            (ParameterizeSpec.spec_walk None (split "/" urlString)).2
            (if startsWith "ws://" urlString || startsWith "wss://" urlString
             then (if startsWith "wss://" urlString then "wss" else "ws")
             else if startsWith "http://" urlString then "http"
             else "https")).
Proof. unfold parseURL. by rewrite ParameterizeFacts.parameterizeURL_spec. Qed.

Lemma protocol_choice (a b c : bool) :
  (if a || b then (if b then "wss" else "ws") else if c then "http" else "https")
  ∈ protocols.
Proof. destruct a, b, c; by apply (bool_decide_unpack _). Qed.

Lemma parseURL_protocol (urlString : string) (u : UrlInfo) :
  parseURL urlString = Some u → Url.protocol u ∈ protocols.
Proof.
  rewrite parseURL_eq.
  pose proof (protocol_choice (startsWith "ws://" urlString)
                (startsWith "wss://" urlString) (startsWith "http://" urlString)) as Hp.
  revert Hp. generalize (startsWith "ws://" urlString), (startsWith "wss://" urlString),
    (startsWith "http://" urlString). intros a b c Hp [= <-]. exact Hp.
Qed.

Lemma extractURL_protocol (node : expr) : ∀ u : UrlInfo,
  extractURL node = Return (Some u) → Url.protocol u ∈ protocols.
Proof.
  induction node as [v|v| | | | | |quasis es|op l IHl r IHr| | | |]; intros u; cbn [extractURL];
    try (intros [=]; fail).
  - intros [= <-]. cbn. by apply (bool_decide_unpack _).
  - intros [= H]. by eapply parseURL_protocol.
  - unfold parseTemplateLiteral.
    destruct (templateLoop quasis es) as [[tpl ps]|]; [|done].
    intros [= <-]. cbn. by apply (bool_decide_unpack _).
  - destruct (String.eqb op "+"); [|done].
    destruct (extractURL l) as [[lu|]|]; [| |done]; cbn.
    + destruct (extractURL r) as [[ru|]|]; [| |done]; cbn;
        intros [= <-]; cbn; by apply IHl.
    + destruct (extractURL r) as [[ru|]|]; [| |done]; cbn; [|done].
      intros [= <-]. by apply IHr.
Qed.

End UrlFacts.

(** X4. [parseURL] never takes its [catch] branch: for every string it
    returns a result whose [raw] is the string itself and whose protocol is
    [wss], [ws] or [http] for the matching prefix and [https] for anything
    else. *)
Theorem X4_parseURL_total (urlString : string) :
  ∃ tpl ps,
    UrlBuilder.parseURL urlString
    = Some (mkUrlInfo tpl urlString ps
              (if JsString.startsWith "wss://" urlString then "wss"
               else if JsString.startsWith "ws://" urlString then "ws"
               else if JsString.startsWith "http://" urlString then "http"
               else "https")).
Proof.
  rewrite UrlFacts.parseURL_eq. eexists _, _. do 2 f_equal.
  destruct (JsString.startsWith "wss://" urlString) eqn:Hwss; cbn [orb].
  - by rewrite orb_true_r.
  - by rewrite orb_false_r.
Qed.

(** X5. Whatever expression the builder accepts, the protocol of its
    result is one of [http], [https], [ws], [wss]. *)
Theorem X5_extractURL_protocol (node : expr) (u : UrlInfo) :
  UrlBuilder.extractURL node = Return (Some u) →
  Url.protocol u ∈ ["http"; "https"; "ws"; "wss"].
Proof. apply UrlFacts.extractURL_protocol. Qed.

Lemma X5_witness :
  Url.protocol (mkUrlInfo "ws://host/{roomId}" "ws://host/{roomId}" [] "ws")
  ∈ ["http"; "https"; "ws"; "wss"].
Proof.
  apply (X5_extractURL_protocol
           (BinaryExpression "+" (StringLiteral "ws://host/") (Identifier "roomId"))).
  reflexivity.
Defined.

(** ** The endpoint recogniser, continued *)

Module RecogniserFacts.
Import JsString UrlBuilder EndpointVisitor Built.

Ltac bind_step :=
  rewrite ?CompletionFacts.mbind_Return, ?CompletionFacts.mbind_Throw.

Ltac unfold_record :=
  unfold well_built;
  cbn [Endpoint.method Endpoint.protocol Endpoint.evidence Endpoint.source_code
       SourceCode.original_file SourceCode.ast_node_path].

Lemma extractFetchEndpoint_built self args span nodePath ep :
  extractFetchEndpoint self args span nodePath = Return (Some ep) →
  well_built self span nodePath ep ∧ is_Some (Endpoint.evidence ep).
Proof.
  unfold extractFetchEndpoint. destruct args as [|urlNode rest]; [done|].
  destruct (extractURL urlNode) as [[url|]|] eqn:Hurl; bind_step; [| done | done].
  pose proof (UrlFacts.extractURL_protocol _ _ Hurl) as Hproto.
  match goal with |- context [mbind _ ?c] => destruct c as [[method headers]|] eqn:Hmh end;
    bind_step; [|done].
  intros [= <-]. unfold_record. split; [|by eexists]. by repeat split.
Qed.

Lemma extractAxiosEndpoint_built self verb args span nodePath ep :
  extractAxiosEndpoint self verb args span nodePath = Return (Some ep) →
  well_built self span nodePath ep ∧ is_Some (Endpoint.evidence ep).
Proof.
  unfold extractAxiosEndpoint. destruct args as [|urlNode rest]; [done|].
  destruct (extractURL urlNode) as [[url|]|] eqn:Hurl; bind_step; [| done | done].
  pose proof (UrlFacts.extractURL_protocol _ _ Hurl) as Hproto.
  intros [= <-]. unfold_record. split; [|by eexists]. by repeat split.
Qed.

Lemma websocket_protocol (p : string) :
  p ∈ Segments.protocols →
  (if startsWith "ws" p then p else "wss") ∈ ["ws"; "wss"].
Proof.
  unfold Segments.protocols. intros Hp.
  repeat (apply elem_of_cons in Hp as [->|Hp]); [..|by apply elem_of_nil in Hp];
    by apply (bool_decide_unpack _).
Qed.

Lemma websocket_protocols (p : string) : p ∈ ["ws"; "wss"] → p ∈ Segments.protocols.
Proof.
  intros Hp.
  repeat (apply elem_of_cons in Hp as [->|Hp]); [..|by apply elem_of_nil in Hp];
    by apply (bool_decide_unpack _).
Qed.

Lemma extractWebSocketEndpoint_built self args span nodePath ep :
  extractWebSocketEndpoint self args span nodePath = Return (Some ep) →
  well_built self span nodePath ep
  ∧ Endpoint.method ep = "WS"
  ∧ Endpoint.protocol ep ∈ ["ws"; "wss"]
  ∧ Endpoint.evidence ep = None.
Proof.
  unfold extractWebSocketEndpoint. destruct args as [|urlNode rest]; [done|].
  destruct (extractURL urlNode) as [[url|]|] eqn:Hurl; bind_step; [| done | done].
  pose proof (UrlFacts.extractURL_protocol _ _ Hurl) as Hproto.
  intros [= <-]. unfold_record.
  pose proof (websocket_protocol _ Hproto) as Hws.
  repeat split; try done. by apply websocket_protocols.
Qed.

Lemma extractJQueryEndpoint_built self args span nodePath ep :
  extractJQueryEndpoint self args span nodePath = Return (Some ep) →
  well_built self span nodePath ep ∧ Endpoint.evidence ep = None.
Proof.
  unfold extractJQueryEndpoint. destruct args as [|[] rest]; try done.
  destruct (List.find _ properties) as [urlProp|]; [|done].
  destruct (extractURL_field (value_node_of urlProp)) as [[url|]|] eqn:Hurl; bind_step;
    [| done | done].
  assert (Url.protocol url ∈ Segments.protocols) as Hproto.
  { unfold extractURL_field in Hurl. destruct (value_node_of urlProp); [|done].
    by eapply UrlFacts.extractURL_protocol. }
  match goal with |- context [jqueryMethod ?tp] =>
    destruct (jqueryMethod tp) as [method|] eqn:Hm end; bind_step; [|done].
  intros [= <-]. unfold_record. by repeat split.
Qed.

Lemma push_frame self endpoint :
  fileName (push self endpoint) = fileName self
  ∧ currentFunction (push self endpoint) = currentFunction self
  ∧ endpoints (push self endpoint) = endpoints self ++ option_list endpoint.
Proof. destruct endpoint; cbn; [done|]. by rewrite app_nil_r. Qed.

(** [visitCallExpression] is [push] of what one recogniser returned. *)
Lemma visitCallExpression_push self callee args span nodePath self' :
  visitCallExpression self callee args span nodePath = Return self' →
  ∃ endpoint,
    self' = push self endpoint
    ∧ ∀ ep, endpoint = Some ep → well_built self span nodePath ep.
Proof.
  unfold visitCallExpression.
  assert (∀ c : completion (option Endpoint.t),
            push self <$> c = Return self' →
            (∀ ep, c = Return (Some ep) → well_built self span nodePath ep) →
            ∃ endpoint, self' = push self endpoint
              ∧ ∀ ep, endpoint = Some ep → well_built self span nodePath ep) as Hfmap.
  { intros [endpoint|] [= <-] Hb. exists endpoint. split; [done|].
    intros ep ->. by apply Hb. }
  destruct (isFetchCall callee).
  { intros H. apply (Hfmap _ H). intros ep Hep.
    by apply extractFetchEndpoint_built in Hep as [? _]. }
  destruct (isAxiosCall callee) as [verb|].
  { intros H. apply (Hfmap _ H). intros ep Hep.
    by apply extractAxiosEndpoint_built in Hep as [? _]. }
  destruct (isWebSocketCall callee).
  { intros H. apply (Hfmap _ H). intros ep Hep.
    by apply extractWebSocketEndpoint_built in Hep as [? _]. }
  destruct (isJQueryAjax callee).
  { intros H. apply (Hfmap _ H). intros ep Hep.
    by apply extractJQueryEndpoint_built in Hep as [? _]. }
  intros [= <-]. by exists None.
Qed.

Lemma headerStep_truthy (headers : gmap string jsval) (prop : Property) :
  map_Forall (fun _ v => JsVal.truthy v = true) headers →
  map_Forall (fun _ v => JsVal.truthy v = true) (headerStep headers prop).
Proof.
  intros Hh. unfold headerStep.
  destruct (JsVal.truthy (JsVal.or (key_value_of prop) (key_name_of prop))); [|done].
  destruct (String.eqb _ "__proto__"); [done|].
  apply map_Forall_insert_2; [|done].
  unfold JsVal.or. by destruct (JsVal.truthy (value_value_of prop)) eqn:Hv.
Qed.

End RecogniserFacts.

(** X6. A recognised call without arguments yields no endpoint: on an
    empty argument list [visitCallExpression] returns the visitor as it
    was, whatever the callee. *)
Theorem X6_no_arguments_no_endpoint
    (self : EndpointVisitor.t) (callee : expr) (span : option Position)
    (nodePath : list string) :
  EndpointVisitor.visitCallExpression self callee [] span nodePath = Return self.
Proof.
  unfold EndpointVisitor.visitCallExpression.
  destruct (EndpointVisitor.isFetchCall callee); [done|].
  destruct (EndpointVisitor.isAxiosCall callee); [done|].
  destruct (EndpointVisitor.isWebSocketCall callee); [done|].
  by destruct (EndpointVisitor.isJQueryAjax callee).
Qed.

(** X7. When [visitCallExpression] returns, it has kept the file name, the
    current function and every endpoint collected so far, and has appended
    at most one record; that record has one of the four protocols, the
    visitor's file name and the joined node path. *)
Theorem X7_visitCallExpression_appends
    (self self' : EndpointVisitor.t) (callee : expr) (args : list expr)
    (span : option Position) (nodePath : list string) :
  EndpointVisitor.visitCallExpression self callee args span nodePath = Return self' →
  EndpointVisitor.fileName self' = EndpointVisitor.fileName self
  ∧ EndpointVisitor.currentFunction self' = EndpointVisitor.currentFunction self
  ∧ ∃ added,
      EndpointVisitor.endpoints self' = EndpointVisitor.endpoints self ++ added
      ∧ (length added ≤ 1)%nat
      ∧ Forall (fun ep =>
                  Endpoint.protocol ep ∈ ["http"; "https"; "ws"; "wss"]
                  ∧ SourceCode.original_file (Endpoint.source_code ep)
                    = EndpointVisitor.fileName self
                  ∧ SourceCode.ast_node_path (Endpoint.source_code ep)
                    = JsString.join " > " nodePath) added.
Proof.
  intros (endpoint & -> & Hb)%RecogniserFacts.visitCallExpression_push.
  destruct (RecogniserFacts.push_frame self endpoint) as (-> & -> & ->).
  split; [done|]. split; [done|]. exists (option_list endpoint).
  split; [done|]. destruct endpoint as [ep|]; cbn; [|by split; [lia|constructor]].
  split; [lia|]. constructor; [|constructor].
  by apply Hb.
Qed.

Lemma X7_witness :
  ∃ v,
    EndpointVisitor.visitCallExpression (EndpointVisitor.new "app.js")
      (MemberExpression (Identifier "axios") (PropIdentifier "post"))
      [StringLiteral "http://host/api/orders/17"] (Some (mkPosition 4 2))
      ["Module"; "CallExpression"] = Return v
    ∧ EndpointVisitor.fileName v = "app.js"
    ∧ Endpoint.protocol <$> EndpointVisitor.endpoints v = ["http"].
Proof.
  eexists. split; [reflexivity|].
  split; [|reflexivity].
  apply (X7_visitCallExpression_appends (EndpointVisitor.new "app.js") _
           (MemberExpression (Identifier "axios") (PropIdentifier "post"))
           [StringLiteral "http://host/api/orders/17"] (Some (mkPosition 4 2))
           ["Module"; "CallExpression"]).
  reflexivity.
Defined.

(** X8. A socket record always has method [WS] and protocol [ws] or
    [wss] -- an [http://] literal or a bare identifier is filed under
    [wss] -- and carries no evidence. *)
Theorem X8_websocket_record
    (self : EndpointVisitor.t) (args : list expr) (span : option Position)
    (nodePath : list string) (ep : Endpoint.t) :
  EndpointVisitor.extractWebSocketEndpoint self args span nodePath = Return (Some ep) →
  Endpoint.method ep = "WS"
  ∧ Endpoint.protocol ep ∈ ["ws"; "wss"]
  ∧ Endpoint.evidence ep = None.
Proof.
  intros H. by apply RecogniserFacts.extractWebSocketEndpoint_built in H as (_ & ? & ? & ?).
Qed.

Lemma X8_witness :
  Endpoint.method
    (Endpoint.mk "http://host/feed" "http://host/feed" "WS" "wss" []
       (SourceCode.mk "app.js" 0 None None "CallExpression") None None) = "WS"
  ∧ Endpoint.protocol
      (Endpoint.mk "http://host/feed" "http://host/feed" "WS" "wss" []
         (SourceCode.mk "app.js" 0 None None "CallExpression") None None) ∈ ["ws"; "wss"]
  ∧ Endpoint.evidence
      (Endpoint.mk "http://host/feed" "http://host/feed" "WS" "wss" []
         (SourceCode.mk "app.js" 0 None None "CallExpression") None None) = None.
Proof.
  apply (X8_websocket_record (EndpointVisitor.new "app.js")
           [StringLiteral "http://host/feed"] None ["CallExpression"]).
  reflexivity.
Defined.

(** X9. [extractHeaders] never stores a falsy value: every entry of the
    map it returns is a truthy literal, an identifier's name or the
    placeholder; and on a node that is not an object literal it returns the
    empty map. *)
Theorem X9_headers_truthy (node : expr) (headers : gmap string jsval) :
  EndpointVisitor.extractHeaders (Some node) = Return headers →
  map_Forall (fun _ v => JsVal.truthy v = true) headers
  ∧ (HeaderSpec.is_literal node = true ∨ (∃ v, node = Identifier v) → headers = ∅).
Proof.
  intros H. split.
  - destruct node; try (injection H as <-; apply map_Forall_empty).
    injection H as <-.
    assert (∀ h, map_Forall (fun _ v => JsVal.truthy v = true) h →
              map_Forall (fun _ v => JsVal.truthy v = true)
                         (foldl EndpointVisitor.headerStep h properties)) as Hfold.
    { induction properties as [|p ps IH]; intros h Hh; [done|].
      cbn [foldl]. by apply IH, RecogniserFacts.headerStep_truthy. }
    apply Hfold, map_Forall_empty.
  - intros [Hl|[v ->]]; [destruct node; try done|]; by injection H as <-.
Qed.

Lemma X9_witness :
  map_Forall (fun _ v => JsVal.truthy v = true)
    (<["X-Retries" := VString "{dynamic}"]> (<["Accept" := VString "*/*"]> ∅)
       : gmap string jsval).
Proof.
  apply (X9_headers_truthy
           (ObjectExpression
              [KeyValueProperty (KeyIdentifier "Accept") (StringLiteral "*/*");
               KeyValueProperty (KeyIdentifier "X-Retries") (NumericLiteral 0)])).
  reflexivity.
Defined.

(** ** The deduplicator, continued *)

Module DedupMore.
Import Dedup DedupSpec DedupFacts SeenSpec.

Lemma key_of_with_evidence (ep : Endpoint.t) (ev : list Evidence.t) :
  key_of (Endpoint.with_evidence ep ev) = key_of ep.
Proof. done. Qed.

Lemma step_keys (seen seen' : seen_map) (ep : Endpoint.t) :
  keyed seen → step seen ep = Return seen' →
  keyed seen'
  ∧ seen'.*1 = seen.*1 ++ (if bool_decide (key_of ep ∈ seen.*1) then [] else [key_of ep]).
Proof.
  intros [Hnd Hk]. unfold step.
  destruct (seen_get (key_of ep) seen) as [existing|] eqn:Hget.
  - pose proof (seen_get_Some _ _ _ Hget) as Hin.
    destruct (spread2 (Endpoint.evidence existing) (Endpoint.evidence ep)) as [ev|];
      rewrite ?CompletionFacts.mbind_Return, ?CompletionFacts.mbind_Throw; [|done].
    intros [= <-]. rewrite seen_update_fmap, update_keys by done.
    rewrite bool_decide_eq_true_2, app_nil_r
      by (apply list_elem_of_fmap; by exists (key_of ep, existing)).
    split; [|done]. split; [by rewrite update_keys|].
    apply Forall_fmap, Forall_forall. intros [k r] Hkr. cbn.
    rewrite Forall_forall in Hk. specialize (Hk _ Hkr). cbn in Hk.
    destruct (String.eqb_spec k (key_of ep)) as [->|]; cbn; [|done].
    assert (r = existing) as -> by (by eapply NoDup_lookup_unique).
    exact Hk.
  - apply seen_get_None in Hget. intros [= <-].
    rewrite bool_decide_eq_false_2 by done. rewrite fmap_app. split; [|done].
    split.
    + rewrite fmap_app. apply NoDup_app. split; [done|]. split; [|apply NoDup_singleton].
      by intros k Hk' ->%list_elem_of_singleton.
    + apply Forall_app. split; [done|]. by repeat constructor.
Qed.

Lemma forEach_keys (endpoints : list Endpoint.t) : ∀ seen seen' : seen_map,
  keyed seen → forEach seen endpoints = Return seen' →
  keyed seen'
  ∧ (∀ k, k ∈ seen'.*1 ↔ k ∈ seen.*1 ∨ k ∈ key_of <$> endpoints)
  ∧ (length seen' ≤ length seen + length endpoints)%nat.
Proof.
  induction endpoints as [|ep rest IH]; intros seen seen' Hkeyed.
  { intros [= <-]. split; [done|]. split; [|cbn; lia].
    intros k. rewrite fmap_nil, elem_of_nil. tauto. }
  cbn [forEach]. destruct (step seen ep) as [seen1|] eqn:Hstep;
    rewrite ?CompletionFacts.mbind_Return, ?CompletionFacts.mbind_Throw; [|done].
  intros Hrest. destruct (step_keys _ _ _ Hkeyed Hstep) as [Hkeyed1 Hkeys1].
  destruct (IH _ _ Hkeyed1 Hrest) as (Hkeyed' & Hmem & Hlen).
  split; [done|]. split.
  - intros k. rewrite Hmem, Hkeys1, fmap_cons, elem_of_app, elem_of_cons.
    case_bool_decide as Hin; [rewrite elem_of_nil|rewrite list_elem_of_singleton].
    + split; [tauto|]. intros [?|[->|?]]; tauto.
    + tauto.
  - assert (length seen1 ≤ S (length seen))%nat.
    { rewrite <- (length_fmap fst seen1), Hkeys1, length_app, length_fmap.
      case_bool_decide; cbn; lia. }
    cbn [length]. lia.
Qed.

Lemma forEach_distinct (endpoints : list Endpoint.t) : ∀ seen : seen_map,
  NoDup (seen.*1 ++ (key_of <$> endpoints)) →
  forEach seen endpoints = Return (seen ++ ((fun ep => (key_of ep, ep)) <$> endpoints)).
Proof.
  induction endpoints as [|ep rest IH]; intros seen Hnd.
  { cbn. by rewrite app_nil_r. }
  cbn [forEach]. unfold step.
  rewrite fmap_cons in Hnd. pose proof Hnd as Hnd'.
  apply NoDup_app in Hnd as (_ & Hdisj & _).
  assert (seen_get (key_of ep) seen = None) as ->.
  { apply seen_get_None. intros Hin. apply (Hdisj _ Hin). apply elem_of_cons. by left. }
  rewrite CompletionFacts.mbind_Return, IH.
  - by rewrite fmap_cons, <- app_assoc.
  - rewrite fmap_app. cbn [fmap list_fmap fst]. by rewrite <- app_assoc.
Qed.

Lemma deduplicate_distinct (endpoints : list Endpoint.t) :
  NoDup (key_of <$> endpoints) → deduplicateEndpoints endpoints = Return endpoints.
Proof.
  intros Hnd. unfold deduplicateEndpoints.
  rewrite (forEach_distinct endpoints []) by done.
  rewrite CompletionFacts.mbind_Return. f_equal.
  rewrite app_nil_l, <- list_fmap_compose. apply list_fmap_id.
Qed.

End DedupMore.

(** X10. On candidate records that all carry an evidence list,
    [deduplicateEndpoints] returns, in first-seen order, the first record
    of each key with every field but [evidence] as it was, and as evidence
    the entries of all records of that key in encounter order. *)
Theorem X10_deduplicate_functional (endpoints : list Endpoint.t) :
  Forall DedupSpec.has_evidence endpoints →
  Dedup.deduplicateEndpoints endpoints = Return (DedupSpec.spec_dedup endpoints).
Proof. apply DedupFacts.deduplicateEndpoints_spec. Qed.

(** X11. Records with pairwise distinct keys pass through unchanged and
    in order, whether or not they carry evidence: the merge, and with it
    the spread of a missing [evidence], is only reached on a repeated key. *)
Theorem X11_deduplicate_distinct (endpoints : list Endpoint.t) :
  NoDup (Dedup.key_of <$> endpoints) →
  Dedup.deduplicateEndpoints endpoints = Return endpoints.
Proof. apply DedupMore.deduplicate_distinct. Qed.

(** X12. Whenever [deduplicateEndpoints] returns, no two records of the
    result share a key, the keys of the result are exactly the keys of the
    input, the result is no longer than the input, and deduplicating it
    again changes nothing. *)
Theorem X12_deduplicate_result (endpoints out : list Endpoint.t) :
  Dedup.deduplicateEndpoints endpoints = Return out →
  NoDup (Dedup.key_of <$> out)
  ∧ (∀ k, k ∈ Dedup.key_of <$> out ↔ k ∈ Dedup.key_of <$> endpoints)
  ∧ (length out ≤ length endpoints)%nat
  ∧ Dedup.deduplicateEndpoints out = Return out.
Proof.
  unfold Dedup.deduplicateEndpoints at 1.
  destruct (Dedup.forEach [] endpoints) as [seen|] eqn:Hfor;
    rewrite ?CompletionFacts.mbind_Return, ?CompletionFacts.mbind_Throw; [|done].
  intros [= <-].
  destruct (DedupMore.forEach_keys endpoints [] seen) as ([Hnd Hk] & Hmem & Hlen);
    [by split; constructor | done |].
  assert (Dedup.key_of <$> seen.*2 = seen.*1) as Hkeys.
  { rewrite <- list_fmap_compose. apply list_fmap_ext.
    intros i kr Hi. rewrite Forall_forall in Hk. apply Hk.
    by eapply list_elem_of_lookup_2. }
  rewrite Hkeys. split; [done|]. split.
  - intros k. rewrite Hmem, fmap_nil, elem_of_nil. tauto.
  - split; [by rewrite length_fmap|].
    apply DedupMore.deduplicate_distinct. by rewrite Hkeys.
Qed.

Lemma X10_witness :
  Dedup.deduplicateEndpoints [Samples.get_a 3; Samples.get_a 9]
  = Return (DedupSpec.spec_dedup [Samples.get_a 3; Samples.get_a 9]).
Proof.
  apply (X10_deduplicate_functional [Samples.get_a 3; Samples.get_a 9]).
  constructor; [by eexists|]. constructor; [by eexists|]. constructor.
Defined.

Lemma X11_witness :
  Dedup.deduplicateEndpoints [Samples.post_b 5; Samples.get_a 3]
  = Return [Samples.post_b 5; Samples.get_a 3].
Proof.
  apply (X11_deduplicate_distinct [Samples.post_b 5; Samples.get_a 3]).
  by apply (bool_decide_unpack _).
Defined.

Lemma X12_witness :
  NoDup (Dedup.key_of <$> [Endpoint.with_evidence (Samples.get_a 3)
                             [Samples.ev 3; Samples.ev 9]; Samples.post_b 5])
  ∧ (∀ k, k ∈ Dedup.key_of <$> [Endpoint.with_evidence (Samples.get_a 3)
                                   [Samples.ev 3; Samples.ev 9]; Samples.post_b 5]
          ↔ k ∈ Dedup.key_of <$> [Samples.get_a 3; Samples.post_b 5; Samples.get_a 9])
  ∧ (length [Endpoint.with_evidence (Samples.get_a 3) [Samples.ev 3; Samples.ev 9];
             Samples.post_b 5]
     ≤ length [Samples.get_a 3; Samples.post_b 5; Samples.get_a 9])%nat
  ∧ Dedup.deduplicateEndpoints
      [Endpoint.with_evidence (Samples.get_a 3) [Samples.ev 3; Samples.ev 9];
       Samples.post_b 5]
    = Return [Endpoint.with_evidence (Samples.get_a 3) [Samples.ev 3; Samples.ev 9];
              Samples.post_b 5].
Proof.
  apply (X12_deduplicate_result [Samples.get_a 3; Samples.post_b 5; Samples.get_a 9]).
  reflexivity.
Defined.

Module DedupThrow.
Import Dedup DedupSpec DedupFacts SeenSpec DedupMore.

Lemma forEach_returns (endpoints : list Endpoint.t) : ∀ seen : seen_map,
  keyed seen →
  (TemplateSpec.returns (forEach seen endpoints)
   ↔ mergeable endpoints ∧ absorbs seen endpoints).
Proof.
  induction endpoints as [|ep rest IH]; intros seen Hkeyed.
  { cbn. split; [|by eexists]. intros _. split; [done|].
    by intros k r b _ ?%elem_of_nil. }
  cbn [forEach mergeable].
  destruct (seen_get (key_of ep) seen) as [existing|] eqn:Hget.
  - (* the key is known: the step returns iff both carry evidence *)
    pose proof (seen_get_Some _ _ _ Hget) as Hin.
    assert (∀ r, (key_of ep, r) ∈ seen → r = existing) as Huniq.
    { intros r Hr. destruct Hkeyed as [Hnd _]. by eapply NoDup_lookup_unique. }
    destruct (step seen ep) as [seen1|] eqn:Hstep;
      rewrite ?CompletionFacts.mbind_Return, ?CompletionFacts.mbind_Throw.
    + destruct (step_keys _ _ _ Hkeyed Hstep) as [Hkeyed1 _].
      rewrite (IH _ Hkeyed1). unfold step in Hstep. rewrite Hget in Hstep.
      destruct (Endpoint.evidence existing) as [e|] eqn:He; [|done].
      destruct (Endpoint.evidence ep) as [e'|] eqn:He'; [|done].
      cbn in Hstep. injection Hstep as <-.
      rewrite seen_update_fmap by apply Hkeyed.
      assert (has_evidence existing) as Hex by (by eexists).
      assert (has_evidence ep) as Hep by (by eexists).
      split.
      * intros [Hm Ha]. split; [split; [|done]|].
        -- intros b Hb Hk. split; [done|].
           apply (Ha (key_of ep) (Endpoint.with_evidence existing (e ++ e')) b);
             [|done|done].
           apply list_elem_of_fmap. exists (key_of ep, existing).
           cbn. by rewrite String.eqb_refl.
        -- intros k r b Hr [->|Hb]%elem_of_cons Hk.
           ++ subst k. by rewrite (Huniq _ Hr).
           ++ destruct (String.eqb_spec k (key_of ep)) as [->|Hne].
              ** rewrite (Huniq _ Hr). split; [done|].
                 apply (Ha (key_of ep) (Endpoint.with_evidence existing (e ++ e')) b);
                   [|done|done].
                 apply list_elem_of_fmap. exists (key_of ep, existing).
                 cbn. by rewrite String.eqb_refl.
              ** apply (Ha k r b); [|done|done].
                 apply list_elem_of_fmap. exists (k, r). cbn.
                 by destruct (String.eqb_spec k (key_of ep)).
      * intros [[Hp Hm] Ha]. split; [done|].
        intros k r b [[k0 r0] [Heq Hr0]]%list_elem_of_fmap Hb Hk. cbn in Heq.
        destruct (String.eqb_spec k0 (key_of ep)) as [->|Hne]; injection Heq as -> ->.
        -- split; [by eexists|]. apply (Ha (key_of ep) r0 b); [done| |done].
           apply elem_of_cons. by right.
        -- apply (Ha k0 r0 b); [done| |done]. apply elem_of_cons. by right.
    + split; [by intros [? [=]]|]. intros [_ Ha]. exfalso.
      destruct (Ha (key_of ep) existing ep) as [[e0 He0] [e1 He1]];
        [done | apply elem_of_cons; by left | done |].
      unfold step in Hstep. by rewrite Hget, He0, He1 in Hstep.
  - (* a new key: the record is appended *)
    pose proof Hget as Hnew. apply seen_get_None in Hnew.
    assert (step seen ep = Return (seen ++ [(key_of ep, ep)])) as Hstep.
    { unfold step. by rewrite Hget. }
    rewrite Hstep, CompletionFacts.mbind_Return.
    destruct (step_keys _ _ _ Hkeyed Hstep) as [Hkeyed1 _].
    rewrite (IH _ Hkeyed1). split.
    + intros [Hm Ha]. split; [split; [|done]|].
      * intros b Hb Hk. apply (Ha (key_of ep) ep b); [|done|done].
        apply elem_of_app. right. by apply list_elem_of_singleton.
      * intros k r b Hr [->|Hb]%elem_of_cons Hk.
        -- exfalso. apply Hnew. subst k. apply list_elem_of_fmap. by exists (key_of ep, r).
        -- apply (Ha k r b); [|done|done]. apply elem_of_app. by left.
    + intros [[Hp Hm] Ha]. split; [done|].
      intros k r b [Hr|Hr%list_elem_of_singleton]%elem_of_app Hb Hk.
      * apply (Ha k r b); [done| |done]. apply elem_of_cons. by right.
      * injection Hr as -> ->. by apply Hp.
Qed.

End DedupThrow.

(** X13. [deduplicateEndpoints] returns if and only if every two records
    of the input that share a key both carry an evidence list; otherwise
    it throws. *)
Theorem X13_deduplicate_returns_iff (endpoints : list Endpoint.t) :
  (∃ out, Dedup.deduplicateEndpoints endpoints = Return out)
  ↔ SeenSpec.mergeable endpoints.
Proof.
  unfold Dedup.deduplicateEndpoints.
  pose proof (DedupThrow.forEach_returns endpoints []) as H.
  unfold TemplateSpec.returns in H.
  assert (SeenSpec.keyed []) as Hk by (by split; constructor).
  specialize (H Hk). split.
  - intros [out Hout]. apply H.
    destruct (Dedup.forEach [] endpoints) as [seen|]; [by eexists|done].
  - intros Hm. destruct H as [_ [seen ->]].
    + split; [done|]. by intros k r b ?%elem_of_nil.
    + by eexists.
Qed.

Lemma X13_witness :
  ∃ out, Dedup.deduplicateEndpoints [Samples.get_a 3; Samples.post_b 5; Samples.get_a 9]
         = Return out.
Proof.
  apply (proj2 (X13_deduplicate_returns_iff
                  [Samples.get_a 3; Samples.post_b 5; Samples.get_a 9])).
  split; [|split; [|split; [|exact I]]].
  - intros b [->|[->|Hb%elem_of_nil]%elem_of_cons]%elem_of_cons Hk; [done| |done].
    split; by eexists.
  - intros b [->|Hb%elem_of_nil]%elem_of_cons Hk; done.
  - by intros b Hb%elem_of_nil.
Defined.

(** ** The taint tracker, continued *)

Module TaintMore.
Import Taint TaintInv.

Lemma record_ok_mono (table table' : gmap string TaintState) x t :
  (∀ d, is_Some (table !! d) → is_Some (table' !! d)) →
  record_ok table x t → record_ok table' x t.
Proof.
  intros Hsub (Hn & Ht & Hs & Ho & Hd & Hk). repeat split; try done.
  eapply Forall_impl; [exact Hd|]. exact Hsub.
Qed.

Lemma edge_ok_mono (table table' : gmap string TaintState) e :
  (∀ d, is_Some (table !! d) → is_Some (table' !! d)) →
  edge_ok table e → edge_ok table' e.
Proof. intros Hsub (Hf & Ht & Ho). repeat split; auto. Qed.

Lemma insert_is_Some (table : gmap string TaintState) x t d :
  is_Some (table !! d) → is_Some (<[x := t]> table !! d).
Proof.
  intros Hd. destruct (decide (x = d)) as [->|Hne].
  - rewrite lookup_insert_eq. by eexists.
  - by rewrite lookup_insert_ne.
Qed.

Lemma wf_new : wf new.
Proof.
  split; [|constructor]. intros x t. cbn. by rewrite lookup_empty.
Qed.

Lemma wf_markTainted self varName sourceName location :
  wf self → sourceName ∈ sources →
  wf (markTainted self varName sourceName "assignment" location).
Proof.
  intros [Hrec Hedges] Hs. split; cbn.
  - intros x t. destruct (decide (varName = x)) as [->|Hne].
    + rewrite lookup_insert_eq. intros [= <-]. by repeat split.
    + rewrite lookup_insert_ne by done. intros Hx.
      eapply record_ok_mono; [|by apply Hrec]. intros d. apply insert_is_Some.
  - eapply Forall_impl; [exact Hedges|]. intros e.
    apply edge_ok_mono. intros d. apply insert_is_Some.
Qed.

Lemma wf_propagateTaint self fromVar toVar location :
  wf self → wf (propagateTaint self fromVar toVar "assignment" location).
Proof.
  intros [Hrec Hedges]. unfold propagateTaint.
  destruct (taintState self !! fromVar) as [fromTaint|] eqn:Hfrom; [|done].
  destruct (isTainted fromTaint) eqn:Ht; [|done]. cbn [negb].
  destruct (Hrec _ _ Hfrom) as (_ & _ & Hsrc & _).
  assert (∀ d, is_Some (taintState self !! d) →
            is_Some (<[toVar := mkTaintState
                        (name (default (mkTaintState toVar false None "" "" None [] false None)
                                       (taintState self !! toVar)))
                        true
                        (isSource (default (mkTaintState toVar false None "" "" None [] false None)
                                           (taintState self !! toVar)))
                        (sourceName fromTaint) "assignment" location
                        (dependencies (default (mkTaintState toVar false None "" "" None [] false None)
                                               (taintState self !! toVar)) ++ [fromVar])
                        (reachesSink (default (mkTaintState toVar false None "" "" None [] false None)
                                              (taintState self !! toVar)))
                        (sinkName (default (mkTaintState toVar false None "" "" None [] false None)
                                           (taintState self !! toVar)))]>
                       (taintState self) !! d)) as Hsub.
  { intros d. apply insert_is_Some. }
  split; cbn [taintState dataflowEdges].
  - intros x t. destruct (decide (toVar = x)) as [->|Hne].
    + rewrite lookup_insert_eq. intros [= <-].
      destruct (taintState self !! x) as [old|] eqn:Hold; cbn [default].
      * destruct (Hrec _ _ Hold) as (Hn & _ & _ & _ & Hd & Hk).
        repeat split; try done. cbn.
        apply Forall_app. split.
        -- eapply Forall_impl; [exact Hd|]. exact Hsub.
        -- constructor; [|constructor]. apply Hsub. by eexists.
      * repeat split; try done. cbn. constructor; [|constructor].
        apply Hsub. by eexists.
    + rewrite lookup_insert_ne by done. intros Hx.
      eapply record_ok_mono; [exact Hsub | by apply Hrec].
  - apply Forall_app. split.
    + eapply Forall_impl; [exact Hedges|]. intros e. by apply edge_ok_mono.
    + constructor; [|constructor]. repeat split; cbn.
      * apply Hsub. by eexists.
      * rewrite lookup_insert_eq. by eexists.
Qed.

Lemma wf_argStep calleeName self arg :
  calleeName ∈ sinks → wf self → wf (argStep calleeName self arg).
Proof.
  intros Hsink [Hrec Hedges]. unfold argStep.
  destruct arg as [argVar| | | | | | | | | | | |]; try done.
  destruct (is_tainted self argVar); [|done].
  assert (∀ d, is_Some (taintState self !! d) →
               is_Some (alter (markSink calleeName) argVar (taintState self) !! d)) as Hsub.
  { intros d [t Hd]. rewrite lookup_alter. case_decide as Hx; [subst d|];
      rewrite Hd; by eexists. }
  split; cbn [taintState dataflowEdges].
  - intros x t. rewrite lookup_alter. case_decide as Hx.
    + subst x. destruct (taintState self !! argVar) as [old|] eqn:Hold; [|done].
      intros [= <-]. destruct (Hrec _ _ Hold) as (Hn & Ht & Hs & Ho & Hd & Hk).
      repeat split; try done. cbn. eapply Forall_impl; [exact Hd|]. exact Hsub.
    + intros Ht. eapply record_ok_mono; [exact Hsub | by apply Hrec].
  - eapply Forall_impl; [exact Hedges|]. intros e. by apply edge_ok_mono.
Qed.

Lemma checkSource_in_sources node s :
  truthyName (checkSource node) = Some s → s ∈ sources.
Proof.
  unfold truthyName. destruct (checkSource node) as [s'|] eqn:Hc; [|done].
  destruct (String.eqb s' ""); [done|]. intros [= <-].
  unfold checkSource in Hc. destruct node; try done.
  unfold visitMemberExpression in Hc. apply find_some in Hc as [Hin _].
  by apply list_elem_of_In.
Qed.

Lemma wf_declStep span self decl : wf self → wf (declStep span self decl).
Proof.
  intros Hwf. unfold declStep.
  destruct (truthyName (getIdentifierName (id decl))) as [varName|]; [|done].
  destruct (init decl) as [init|]; [|done].
  assert (wf match truthyName (checkSource init) with
             | Some sourceName => markTainted self varName sourceName "assignment" span
             | None => self
             end) as Hwf1.
  { destruct (truthyName (checkSource init)) as [s|] eqn:Hs; [|done].
    apply wf_markTainted; [done|]. by eapply checkSource_in_sources. }
  destruct init; try done.
  match goal with |- context [if ?c then _ else _] => destruct c end; [|done].
  by apply wf_propagateTaint.
Qed.

Lemma wf_visit self node : wf self → wf (visit self node).
Proof.
  intros Hwf. destruct node as [declarations span|e]; cbn [visit].
  - unfold visitVariableDeclaration. revert self Hwf.
    induction declarations as [|decl decls IH]; intros self Hwf; [done|].
    cbn [foldl]. by apply IH, wf_declStep.
  - destruct e; try done.
    + unfold visitAssignment.
      destruct (truthyName (getIdentifierName e1)) as [leftVar|]; [|done].
      assert (wf match e2 with
                 | Identifier rightVar =>
                     if is_tainted self rightVar
                     then propagateTaint self rightVar leftVar "assignment" span
                     else self
                 | _ => self
                 end) as Hwf1.
      { destruct e2; try done.
        match goal with |- context [if ?c then _ else _] => destruct c end; [|done].
        by apply wf_propagateTaint. }
      destruct (truthyName (checkSource e2)) as [s|] eqn:Hs; [|done].
      apply wf_markTainted; [done|]. by eapply checkSource_in_sources.
    + unfold visitCallExpression. case_bool_decide as Hsink; [|done].
      revert self Hwf. induction arguments as [|arg args IH]; intros self Hwf; [done|].
      cbn [foldl]. by apply IH, wf_argStep.
Qed.

Lemma wf_run nodes : ∀ self, wf self → wf (run self nodes).
Proof.
  unfold run. induction nodes as [|node nodes IH]; intros self Hwf; [done|].
  cbn [foldl]. by apply IH, wf_visit.
Qed.

End TaintMore.

Module TaintFrame.
Import Taint.

Lemma is_tainted_markTainted self v sourceName operation location x :
  is_tainted self x = true →
  is_tainted (markTainted self v sourceName operation location) x = true.
Proof.
  unfold is_tainted, markTainted; cbn. intros Hx.
  destruct (decide (v = x)) as [->|Hne]; [by rewrite lookup_insert_eq|].
  by rewrite lookup_insert_ne.
Qed.

Lemma is_tainted_propagateTaint self fromVar toVar operation location x :
  is_tainted self x = true →
  is_tainted (propagateTaint self fromVar toVar operation location) x = true.
Proof.
  unfold propagateTaint. intros Hx.
  destruct (taintState self !! fromVar) as [fromTaint|]; [|done].
  destruct (isTainted fromTaint); [|done]. unfold is_tainted in *; cbn.
  destruct (decide (toVar = x)) as [->|Hne]; [by rewrite lookup_insert_eq|].
  by rewrite lookup_insert_ne.
Qed.

Lemma edges_propagateTaint self fromVar toVar operation location :
  dataflowEdges self `prefix_of`
    dataflowEdges (propagateTaint self fromVar toVar operation location).
Proof.
  unfold propagateTaint.
  destruct (taintState self !! fromVar) as [fromTaint|]; [|done].
  destruct (isTainted fromTaint); [|done]. cbn. by eexists.
Qed.

Lemma argStep_frame calleeName self arg :
  dataflowEdges (argStep calleeName self arg) = dataflowEdges self
  ∧ (∀ y, is_tainted (argStep calleeName self arg) y = is_tainted self y)
  ∧ (∀ y, is_Some (taintState (argStep calleeName self arg) !! y)
          ↔ is_Some (taintState self !! y))
  ∧ (∀ x, reaches_sink (argStep calleeName self arg) x = true
          ↔ reaches_sink self x = true ∨ (arg = Identifier x ∧ is_tainted self x = true)).
Proof.
  unfold argStep. destruct arg as [argVar| | | | | | | | | | | |];
    try (split; [done|]; split; [done|]; split; [done|];
         intros x; split; [by left | by intros [?|[[=] _]]]).
  destruct (is_tainted self argVar) eqn:Ht.
  - split; [done|]. unfold is_tainted, reaches_sink in *; cbn.
    split; [|split].
    + intros y. rewrite lookup_alter. case_decide as Hy; [subst y|done].
      by destruct (taintState self !! argVar).
    + intros y. rewrite lookup_alter. case_decide as Hy; [subst y|done].
      by rewrite fmap_is_Some.
    + intros x. rewrite lookup_alter. case_decide as Hx.
      * subst x. destruct (taintState self !! argVar) as [t|] eqn:Hl; [|done]. cbn.
        split; [|done]. intros _. right. by rewrite Ht.
      * split; [by left|]. intros [?|[[= ?] _]]; [done|]. by subst.
  - split; [done|]. split; [done|]. split; [done|].
    intros x. split; [by left|]. intros [?|[[= ->] Hx]]; [done|]. congruence.
Qed.

Lemma visitCallExpression_frame self callee arguments :
  dataflowEdges (visitCallExpression self callee arguments) = dataflowEdges self
  ∧ (∀ y, is_tainted (visitCallExpression self callee arguments) y = is_tainted self y)
  ∧ (∀ y, is_Some (taintState (visitCallExpression self callee arguments) !! y)
          ↔ is_Some (taintState self !! y))
  ∧ (∀ x, reaches_sink (visitCallExpression self callee arguments) x = true
          ↔ reaches_sink self x = true
            ∨ (getCalleeName callee ∈ sinks ∧ Identifier x ∈ arguments
               ∧ is_tainted self x = true)).
Proof.
  unfold visitCallExpression. case_bool_decide as Hsink.
  - revert self. induction arguments as [|arg args IH]; intros self.
    { cbn. repeat split; try done; [by left|].
      intros [?|(_ & ?%elem_of_nil & _)]; done. }
    cbn [foldl].
    destruct (IH (argStep (getCalleeName callee) self arg)) as (He & Ht & Hd & Hr).
    destruct (argStep_frame (getCalleeName callee) self arg) as (He1 & Ht1 & Hd1 & Hr1).
    split; [by rewrite He|]. split; [by intros y; rewrite Ht|].
    split; [by intros y; rewrite Hd|].
    intros x. rewrite Hr, Hr1, Ht1, elem_of_cons. split.
    + intros [[?|[-> ?]]|(_ & ? & ?)]; [by left|right|right]; repeat split; auto.
    + intros [?|(_ & [<-|?] & ?)]; [by left; left | by left; right | by right].
  - repeat split; try done; [by left|]. by intros [?|[? _]].
Qed.

Lemma declStep_grows span self decl :
  dataflowEdges self `prefix_of` dataflowEdges (declStep span self decl)
  ∧ ∀ x, is_tainted self x = true → is_tainted (declStep span self decl) x = true.
Proof.
  unfold declStep.
  destruct (truthyName (getIdentifierName (id decl))) as [varName|]; [|done].
  destruct (init decl) as [init|]; [|done].
  set (self1 := match truthyName (checkSource init) with
                | Some sourceName => markTainted self varName sourceName "assignment" span
                | None => self
                end).
  assert (dataflowEdges self1 = dataflowEdges self
          ∧ ∀ x, is_tainted self x = true → is_tainted self1 x = true) as [He Ht].
  { subst self1. destruct (truthyName (checkSource init)); [|done].
    split; [done|]. intros x. apply is_tainted_markTainted. }
  destruct init; try (by rewrite He).
  destruct (is_tainted self1 value); [|by rewrite He].
  split.
  - rewrite <- He. apply edges_propagateTaint.
  - intros x Hx. by apply is_tainted_propagateTaint, Ht.
Qed.

Lemma visit_grows self node :
  dataflowEdges self `prefix_of` dataflowEdges (visit self node)
  ∧ ∀ x, is_tainted self x = true → is_tainted (visit self node) x = true.
Proof.
  destruct node as [declarations span|e]; cbn [visit].
  - unfold visitVariableDeclaration. revert self.
    induction declarations as [|decl decls IH]; intros self; [done|].
    cbn [foldl]. destruct (IH (declStep span self decl)) as [He Ht].
    destruct (declStep_grows span self decl) as [He1 Ht1].
    split; [by etransitivity | auto].
  - destruct e as [| | | | | | | | |lhs rhs span| |callee arguments cspan|]; try done.
    + unfold visitAssignment.
      destruct (truthyName (getIdentifierName lhs)) as [leftVar|]; [|done].
      set (self1 := match rhs with
                    | Identifier rightVar =>
                        if is_tainted self rightVar
                        then propagateTaint self rightVar leftVar "assignment" span
                        else self
                    | _ => self
                    end).
      assert (dataflowEdges self `prefix_of` dataflowEdges self1
              ∧ ∀ x, is_tainted self x = true → is_tainted self1 x = true) as [He Ht].
      { subst self1. destruct rhs; try done.
        destruct (is_tainted self value); [|done].
        split; [apply edges_propagateTaint|]. intros x. apply is_tainted_propagateTaint. }
      destruct (truthyName (checkSource rhs)); [|done].
      split; [done|]. intros x Hx. by apply is_tainted_markTainted, Ht.
    + destruct (visitCallExpression_frame self callee arguments) as (He & Ht & _).
      rewrite He. split; [done|]. intros x. by rewrite Ht.
Qed.

Lemma run_grows nodes : ∀ self,
  dataflowEdges self `prefix_of` dataflowEdges (run self nodes)
  ∧ ∀ x, is_tainted self x = true → is_tainted (run self nodes) x = true.
Proof.
  unfold run. induction nodes as [|node nodes IH]; intros self; [done|].
  cbn [foldl]. destruct (IH (visit self node)) as [He Ht].
  destruct (visit_grows self node) as [He1 Ht1].
  split; [by etransitivity | auto].
Qed.

(** No taint in the table: the visit can only change it by a
    [markTainted]. *)
Lemma visit_untainted self node :
  taintState self = ∅ → marks node = [] → visit self node = self.
Proof.
  intros Hempty Hm.
  assert (∀ y, is_tainted self y = false) as Hno.
  { intros y. unfold is_tainted. by rewrite Hempty, lookup_empty. }
  destruct node as [declarations span|e]; cbn [visit marks] in *.
  - unfold visitVariableDeclaration.
    induction declarations as [|decl decls IH]; [done|].
    cbn [foldl flat_map] in *. apply app_eq_nil in Hm as [Hd Hds].
    assert (declStep span self decl = self) as ->; [|by apply IH].
    unfold declStep, declMarks in *.
    destruct (truthyName (getIdentifierName (id decl))) as [varName|]; [|done].
    destruct (init decl) as [init|]; [|done].
    destruct (truthyName (checkSource init)); [done|].
    destruct init; try done. by rewrite Hno.
  - destruct e as [| | | | | | | | |lhs rhs span| |callee arguments cspan|]; try done.
    + unfold visitAssignment.
      destruct (truthyName (getIdentifierName lhs)) as [leftVar|]; [|done].
      destruct (truthyName (checkSource rhs)); [done|].
      destruct rhs; try done. by rewrite Hno.
    + unfold visitCallExpression. case_bool_decide; [|done].
      induction arguments as [|arg args IH]; [done|].
      cbn [foldl]. assert (argStep (getCalleeName callee) self arg = self) as ->; [|done].
      unfold argStep. destruct arg; try done. by rewrite Hno.
Qed.

End TaintFrame.

(** X14. In the table of any run of the visitor from a fresh analyzer,
    every recorded variable is tainted and stored under its own name, its
    origin label is one of the registered sources, and its operation is
    ['assignment']. *)
Theorem X14_run_records (nodes : list tnode) (x : string) (t : Taint.TaintState) :
  Taint.taintState (Taint.run Taint.new nodes) !! x = Some t →
  Taint.is_tainted (Taint.run Taint.new nodes) x = true
  ∧ Taint.name t = x
  ∧ Taint.sourceName t ∈ Taint.sources
  ∧ Taint.operation t = "assignment".
Proof.
  intros Hx.
  destruct (TaintMore.wf_run nodes Taint.new TaintMore.wf_new) as [Hrec _].
  destruct (Hrec _ _ Hx) as (Hn & Ht & Hs & Ho & _).
  unfold Taint.is_tainted. by rewrite Hx.
Qed.

Lemma X14_witness :
  Taint.is_tainted (Taint.run Taint.new [Scenario.decl_u; Scenario.decl_w]) "w" = true
  ∧ Taint.name (Taint.mkTaintState "w" true None "req.query" "assignment" None ["u"]
                  false None) = "w"
  ∧ Taint.sourceName (Taint.mkTaintState "w" true None "req.query" "assignment" None ["u"]
                        false None) ∈ Taint.sources
  ∧ Taint.operation (Taint.mkTaintState "w" true None "req.query" "assignment" None ["u"]
                       false None) = "assignment".
Proof.
  apply (X14_run_records [Scenario.decl_u; Scenario.decl_w] "w").
  reflexivity.
Defined.

(** X15. In any run from a fresh analyzer, every dependency of every
    record is itself a recorded variable, and so are both ends of every
    edge of the log. *)
Theorem X15_run_closed (nodes : list tnode) :
  (∀ x t d, Taint.taintState (Taint.run Taint.new nodes) !! x = Some t →
            d ∈ Taint.dependencies t →
            is_Some (Taint.taintState (Taint.run Taint.new nodes) !! d))
  ∧ ∀ e, e ∈ Taint.dataflowEdges (Taint.run Taint.new nodes) →
         is_Some (Taint.taintState (Taint.run Taint.new nodes) !! Taint.from e)
         ∧ is_Some (Taint.taintState (Taint.run Taint.new nodes) !! Taint.to e).
Proof.
  destruct (TaintMore.wf_run nodes Taint.new TaintMore.wf_new) as [Hrec Hedges].
  split.
  - intros x t d Hx Hd. destruct (Hrec _ _ Hx) as (_ & _ & _ & _ & Hdeps & _).
    rewrite Forall_forall in Hdeps. by apply Hdeps.
  - intros e He. rewrite Forall_forall in Hedges.
    by destruct (Hedges _ He) as (? & ? & _).
Qed.

(** X16. In any run from a fresh analyzer, a record has a [sinkName]
    exactly when its [reachesSink] flag is set, and the recorded name is an
    entry of the sink registry itself. *)
Theorem X16_run_sinks (nodes : list tnode) (x : string) (t : Taint.TaintState) :
  Taint.taintState (Taint.run Taint.new nodes) !! x = Some t →
  (Taint.reachesSink t = true ↔ is_Some (Taint.sinkName t))
  ∧ ∀ s, Taint.sinkName t = Some s → s ∈ Taint.sinks.
Proof.
  intros Hx.
  destruct (TaintMore.wf_run nodes Taint.new TaintMore.wf_new) as [Hrec _].
  destruct (Hrec _ _ Hx) as (_ & _ & _ & _ & _ & Hk).
  destruct (Taint.sinkName t) as [s|].
  - destruct Hk as [Hr Hs]. split; [by split; [eexists|]|]. by intros ? [= <-].
  - rewrite Hk. split; [|done]. split; [done|]. by intros [? [=]].
Qed.

Lemma X16_witness :
  (Taint.reachesSink (Taint.mkTaintState "u" true (Some true) "req.query" "assignment"
                        None [] true (Some "fetch")) = true
   ↔ is_Some (Taint.sinkName (Taint.mkTaintState "u" true (Some true) "req.query"
                                "assignment" None [] true (Some "fetch"))))
  ∧ ∀ s, Taint.sinkName (Taint.mkTaintState "u" true (Some true) "req.query" "assignment"
                           None [] true (Some "fetch")) = Some s → s ∈ Taint.sinks.
Proof.
  apply (X16_run_sinks [Scenario.decl_u; Scenario.call_fetch_u] "u").
  reflexivity.
Defined.

(** X17. A run only adds: whatever the analyzer held before, every
    variable tainted then is tainted after, and the edge log after starts
    with the edge log before. *)
Theorem X17_run_grows (self : Taint.TaintAnalyzer) (nodes : list tnode) :
  Taint.dataflowEdges self `prefix_of` Taint.dataflowEdges (Taint.run self nodes)
  ∧ ∀ x, Taint.is_tainted self x = true → Taint.is_tainted (Taint.run self nodes) x = true.
Proof. apply TaintFrame.run_grows. Qed.

(** X18. Without a source there is no taint: if no visited declaration
    or assignment has a source-matching member access on its right-hand
    side, a run from a fresh analyzer leaves it fresh -- no record, no
    edge, no sink reached. *)
Theorem X18_no_source_no_taint (nodes : list tnode) :
  Forall (fun node => Taint.marks node = []) nodes →
  Taint.run Taint.new nodes = Taint.new.
Proof.
  unfold Taint.run. induction nodes as [|node nodes IH]; [done|].
  intros [Hn Hns]%Forall_cons. cbn [foldl].
  rewrite TaintFrame.visit_untainted by done. by apply IH.
Qed.

Lemma X18_witness :
  Taint.run Taint.new [Scenario.decl_w; Scenario.call_fetch_u; Scenario.call_axios_get_u]
  = Taint.new.
Proof.
  apply (X18_no_source_no_taint
           [Scenario.decl_w; Scenario.call_fetch_u; Scenario.call_axios_get_u]).
  by apply (bool_decide_unpack _).
Defined.

(** X19. A call expression only ever sets sink flags: it adds no
    variable and no edge and changes no taint status, and afterwards a
    variable is flagged exactly if it was flagged before or the flattened
    callee name is an entry of the sink registry and the variable, tainted,
    is passed as a bare-identifier argument. *)
Theorem X19_sink_call (self : Taint.TaintAnalyzer) (callee : expr) (arguments : list expr) :
  Taint.dataflowEdges (Taint.visitCallExpression self callee arguments)
  = Taint.dataflowEdges self
  ∧ (∀ y, Taint.is_tainted (Taint.visitCallExpression self callee arguments) y
          = Taint.is_tainted self y)
  ∧ (∀ y, is_Some (Taint.taintState (Taint.visitCallExpression self callee arguments) !! y)
          ↔ is_Some (Taint.taintState self !! y))
  ∧ (∀ x, Taint.reaches_sink (Taint.visitCallExpression self callee arguments) x = true
          ↔ Taint.reaches_sink self x = true
            ∨ (Taint.getCalleeName callee ∈ Taint.sinks ∧ Identifier x ∈ arguments
               ∧ Taint.is_tainted self x = true)).
Proof. apply TaintFrame.visitCallExpression_frame. Qed.

Lemma X15_witness :
  is_Some (Taint.taintState (Taint.run Taint.new [Scenario.decl_u; Scenario.decl_w]) !! "u").
Proof.
  apply (proj1 (X15_run_closed [Scenario.decl_u; Scenario.decl_w]) "w"
               (Taint.mkTaintState "w" true None "req.query" "assignment" None ["u"]
                  false None) "u").
  - reflexivity.
  - by apply (bool_decide_unpack _).
Defined.

Lemma X17_witness :
  Taint.is_tainted
    (Taint.run (Taint.run Taint.new [Scenario.decl_u])
               [Scenario.reassign_u; Scenario.decl_w; Scenario.call_fetch_u]) "u" = true.
Proof.
  apply (proj2 (X17_run_grows (Taint.run Taint.new [Scenario.decl_u])
                  [Scenario.reassign_u; Scenario.decl_w; Scenario.call_fetch_u]) "u").
  reflexivity.
Defined.

Lemma X19_witness :
  Taint.reaches_sink
    (Taint.visitCallExpression (Taint.run Taint.new [Scenario.decl_u])
       (Identifier "fetch") [StringLiteral "/x"; Identifier "u"]) "u" = true.
Proof.
  apply (proj2 (proj2 (proj2 (proj2
           (X19_sink_call (Taint.run Taint.new [Scenario.decl_u])
              (Identifier "fetch") [StringLiteral "/x"; Identifier "u"]))) "u")).
  right. split; [by apply (bool_decide_unpack _)|]. split; [|reflexivity].
  apply elem_of_cons. right. apply elem_of_cons. by left.
Defined.

(** ** Flow reconstruction *)

Module FlowFacts.
Import Taint Flow FlowSpec.

Lemma walk_unfold (fuel : nat) (table : gmap string TaintState) (name : string)
    (st : WalkState) :
  walk (S fuel) table name st
  = if bool_decide (name ∈ visited st) then Some st
    else match table !! name with
         | None => Some (mkWalk ({[name]} ∪ visited st) (path st))
         | Some taint =>
             walkEach (walk fuel table) (dependencies taint)
               (mkWalk ({[name]} ∪ visited st)
                  (path st ++ [Confidence.mkStep name (operation taint) (location taint)]))
         end.
Proof. done. Qed.

Lemma remaining_mono (table : gmap string TaintState) (st st' : WalkState) :
  visited st ⊆ visited st' → (remaining table st' ≤ remaining table st)%nat.
Proof. intros Hsub. apply subseteq_size. set_solver. Qed.

Lemma remaining_visit (table : gmap string TaintState) (st : WalkState) (name : string)
    (p : list Confidence.PathStep) :
  is_Some (table !! name) → name ∉ visited st →
  (remaining table (mkWalk ({[name]} ∪ visited st) p) < remaining table st)%nat.
Proof.
  intros Hin Hnot. apply subset_size. cbn.
  apply elem_of_dom in Hin. set_solver.
Qed.

Lemma walkEach_total (table : gmap string TaintState) (fuel : nat) :
  (∀ name st, (remaining table st < fuel)%nat → walk_inv table st →
              ∃ st', walk fuel table name st = Some st' ∧ walked table name st st') →
  ∀ deps st, (remaining table st < fuel)%nat → walk_inv table st →
    ∃ st', walkEach (walk fuel table) deps st = Some st'
           ∧ visited st ⊆ visited st' ∧ walk_inv table st'
           ∧ path st `prefix_of` path st'.
Proof.
  intros Hwalk. induction deps as [|dep deps IH]; intros st Hrem Hinv.
  { exists st. split; [done|]. split; [done|]. split; [done|]. reflexivity. }
  cbn [walkEach]. destruct (Hwalk dep st Hrem Hinv) as (st1 & -> & Hsub & _ & Hinv1 & Hpre & _).
  destruct (IH st1) as (st' & -> & Hsub' & Hinv' & Hpre'); [|done|].
  { pose proof (remaining_mono table st st1 Hsub). lia. }
  exists st'. split; [done|]. split; [set_solver|]. split; [done|]. by etransitivity.
Qed.

Lemma walk_total (table : gmap string TaintState) (fuel : nat) : ∀ name st,
  (remaining table st < fuel)%nat → walk_inv table st →
  ∃ st', walk fuel table name st = Some st' ∧ walked table name st st'.
Proof.
  induction fuel as [|fuel IH]; intros name st Hrem Hinv; [lia|].
  rewrite walk_unfold. case_bool_decide as Hseen.
  { exists st. split; [done|]. split; [done|]. split; [done|]. split; [done|].
    split; [reflexivity | done]. }
  destruct (table !! name) as [taint|] eqn:Hname.
  - set (st2 := mkWalk ({[name]} ∪ visited st)
                  (path st ++ [Confidence.mkStep name (operation taint) (location taint)])).
    assert (remaining table st2 < fuel)%nat as Hrem2.
    { pose proof (remaining_visit table st name [] (mk_is_Some _ _ Hname) Hseen) as Hlt.
      unfold remaining in *. subst st2. cbn [visited] in *. lia. }
    assert (walk_inv table st2) as Hinv2.
    { destruct Hinv as [Hnd Hsteps]. split; cbn.
      - rewrite fmap_app. apply NoDup_app. split; [done|]. split; [|apply NoDup_singleton].
        intros v [s [Hv Hs]]%list_elem_of_fmap Hn. cbn in Hn.
        apply list_elem_of_singleton in Hn. subst v. apply Hseen.
        rewrite <- Hn. by apply Hsteps.
      - intros s [Hs | ->%list_elem_of_singleton]%elem_of_app.
        + destruct (Hsteps s Hs). split; [set_solver|done].
        + split; [set_solver|]. by exists taint. }
    destruct (walkEach_total table fuel IH (dependencies taint) st2 Hrem2 Hinv2)
      as (st' & -> & Hsub & Hinv' & Hpre).
    exists st'. split; [done|]. subst st2; cbn [visited path] in *.
    split; [set_solver|]. split; [set_solver|]. split; [exact Hinv'|].
    split; [etransitivity; [|exact Hpre]; by apply prefix_app_r|].
    intros _ t Ht. rewrite Hname in Ht. injection Ht as <-. exact Hpre.
  - eexists. split; [done|]. unfold walked. cbn [visited path].
    split; [set_solver|]. split; [set_solver|]. split; [|split; [done|intros _ t Ht; by rewrite Hname in Ht]].
    destruct Hinv as [Hnd Hsteps]. split; [done|]. cbn [visited path].
    intros s Hs. destruct (Hsteps s Hs). split; [set_solver|done].
Qed.

(** More fuel changes nothing. *)
Lemma walk_fuel (table : gmap string TaintState) (fuel : nat) : ∀ name st st',
  walk fuel table name st = Some st' → walk (S fuel) table name st = Some st'.
Proof.
  induction fuel as [|fuel IH]; intros name st st'; [done|].
  rewrite (walk_unfold (S fuel)), (walk_unfold fuel).
  case_bool_decide; [done|]. destruct (table !! name) as [taint|]; [|done].
  generalize (mkWalk ({[name]} ∪ visited st)
                (path st ++ [Confidence.mkStep name (operation taint) (location taint)])).
  induction (dependencies taint) as [|dep deps IHd]; intros st0; [done|].
  cbn [walkEach]. destruct (walk fuel table dep st0) as [st1|] eqn:Hd; [|done].
  rewrite (IH _ _ _ Hd). apply IHd.
Qed.

Lemma walk_fuel_le (table : gmap string TaintState) (fuel fuel' : nat) name st st' :
  (fuel ≤ fuel')%nat →
  walk fuel table name st = Some st' → walk fuel' table name st = Some st'.
Proof.
  induction 1 as [|fuel' _ IH]; [done|]. intros H. by apply walk_fuel, IH.
Qed.

Lemma path_length (table : gmap string TaintState) (st : WalkState) :
  walk_inv table st → (length (path st) ≤ size table)%nat.
Proof.
  intros [Hnd Hsteps].
  rewrite <- (length_fmap Confidence.variable), <- size_dom.
  rewrite <- (size_list_to_set (C := gset string)) by done.
  apply subseteq_size. intros v [s [-> Hs]]%elem_of_list_to_set%list_elem_of_fmap.
  destruct (Hsteps s Hs) as [_ (t & Ht & _)]. apply elem_of_dom. by eexists.
Qed.

Lemma reconstructPath_spec (table : gmap string TaintState) (varName : string) :
  ∃ p,
    reconstructPath table varName = Some p
    ∧ (∀ fuel, (size table < fuel)%nat →
         path <$> walk fuel table varName (mkWalk ∅ []) = Some p)
    ∧ NoDup (Confidence.variable <$> p)
    ∧ (∀ s, s ∈ p → step_of table s)
    ∧ (length p ≤ size table)%nat
    ∧ match table !! varName with
      | Some t => head p = Some (Confidence.mkStep varName (operation t) (location t))
      | None => p = []
      end.
Proof.
  assert (walk_inv table (mkWalk ∅ [])) as Hinv0.
  { split; cbn; [constructor|]. by intros s ?%elem_of_nil. }
  assert (remaining table (mkWalk ∅ []) ≤ size table)%nat as Hrem0.
  { unfold remaining. rewrite <- size_dom. apply subseteq_size. set_solver. }
  destruct (walk_total table (S (size table)) varName (mkWalk ∅ []))
    as (st' & Hw & Hsub & Hin & Hinv & Hpre & Hhead); [lia|done|].
  exists (path st'). unfold reconstructPath. rewrite Hw. split; [done|].
  split; [|split; [apply Hinv|split; [|split; [by apply path_length|]]]].
  - intros fuel Hfuel. by rewrite (walk_fuel_le table (S (size table)) fuel _ _ st') by (lia || done).
  - intros s Hs. by apply Hinv.
  - destruct (table !! varName) as [t|] eqn:Ht.
    + destruct (Hhead ltac:(set_solver) t eq_refl) as [k Hk]. cbn in Hk. by rewrite Hk.
    + rewrite walk_unfold in Hw. rewrite bool_decide_eq_false_2 in Hw by set_solver.
      rewrite Ht in Hw. by injection Hw as <-.
Qed.

End FlowFacts.

(** X20. [reconstructPath] always ends, also on cyclic dependencies: a
    recursion budget of one more than the table has entries is enough and
    any larger budget gives the same path.  The path names no variable
    twice, every step is the [{variable, operation, location}] of a table
    entry, it is no longer than the table, and it starts with the variable
    asked for (it is empty when that variable is not in the table). *)
Theorem X20_reconstructPath (table : gmap string Taint.TaintState) (varName : string) :
  ∃ p,
    Flow.reconstructPath table varName = Some p
    ∧ (∀ fuel, (size table < fuel)%nat →
         Flow.path <$> Flow.walk fuel table varName (Flow.mkWalk ∅ []) = Some p)
    ∧ NoDup (Confidence.variable <$> p)
    ∧ (∀ s, s ∈ p → FlowSpec.step_of table s)
    ∧ (length p ≤ size table)%nat
    ∧ match table !! varName with
      | Some t => head p = Some (Confidence.mkStep varName (Taint.operation t)
                                                   (Taint.location t))
      | None => p = []
      end.
Proof. apply FlowFacts.reconstructPath_spec. Qed.

(** Two variables that depend on each other. *)
Example reconstructPath_cycle :
  Flow.reconstructPath
    (<["a" := Taint.mkTaintState "a" true None "req.query" "assignment" None ["b"]
                 true (Some "fetch")]>
     (<["b" := Taint.mkTaintState "b" true (Some true) "req.query" "assignment" None ["a"; "c"]
                  false None]> ∅)) "a"
  = Some [Confidence.mkStep "a" "assignment" None; Confidence.mkStep "b" "assignment" None].
Proof. reflexivity. Qed.

(** X22. For a variable recorded in a run of the visitor, the
    reconstructed path has at least one step, every step carries the
    operation ['assignment'], and no step counts as sanitized: the
    sanitizer penalty of [calculateConfidence] is never applied to such a
    path. *)
Theorem X22_run_unsanitized
    (nodes : list tnode) (x : string) (p : list Confidence.PathStep) :
  is_Some (Taint.taintState (Taint.run Taint.new nodes) !! x) →
  Flow.reconstructPath (Taint.taintState (Taint.run Taint.new nodes)) x = Some p →
  (1 ≤ length p)%nat
  ∧ Forall (fun step => Confidence.operation step = "assignment") p
  ∧ Forall (fun step => Confidence.sanitized step = false) p.
Proof.
  intros [t Ht] Hp.
  destruct (FlowFacts.reconstructPath_spec (Taint.taintState (Taint.run Taint.new nodes)) x)
    as (p' & Hp' & _ & _ & Hsteps & _ & Hhead).
  rewrite Hp in Hp'. injection Hp' as <-. rewrite Ht in Hhead.
  destruct (TaintMore.wf_run nodes Taint.new TaintMore.wf_new) as [Hrec _].
  assert (Forall (fun step => Confidence.operation step = "assignment") p) as Hops.
  { apply Forall_forall. intros s Hs. destruct (Hsteps s Hs) as (t' & Ht' & ->). cbn.
    by destruct (Hrec _ _ Ht') as (_ & _ & _ & Ho & _). }
  split; [destruct p; [done|cbn; lia]|]. split; [done|].
  eapply Forall_impl; [exact Hops|]. intros step Hstep.
  unfold Confidence.sanitized. by rewrite Hstep.
Qed.

Lemma X22_witness :
  (1 ≤ length [Confidence.mkStep "w" "assignment" None;
               Confidence.mkStep "u" "assignment" None])%nat
  ∧ Forall (fun step => Confidence.operation step = "assignment")
           [Confidence.mkStep "w" "assignment" None; Confidence.mkStep "u" "assignment" None]
  ∧ Forall (fun step => Confidence.sanitized step = false)
           [Confidence.mkStep "w" "assignment" None; Confidence.mkStep "u" "assignment" None].
Proof.
  apply (X22_run_unsanitized [Scenario.decl_u; Scenario.decl_w] "w").
  - by eexists.
  - reflexivity.
Defined.

Module RiskFacts.
Import Taint Flow RiskSpec.

Lemma registry_rated :
  Forall (fun source => Forall (fun sink => rated source sink) sinks) sources.
Proof. unfold rated. by apply (bool_decide_unpack _). Qed.

End RiskFacts.

(** X23. For a flow recorded in a run of the visitor -- its source and
    sink are registry entries -- the risk is [high] exactly for the four
    pairs of the high-risk table and [medium] exactly for the other flows
    into [innerHTML] or [document.write]. *)
Theorem X23_run_risk (nodes : list tnode) (x : string) (t : Taint.TaintState) (s : string) :
  Taint.taintState (Taint.run Taint.new nodes) !! x = Some t →
  Taint.sinkName t = Some s →
  (Flow.assessRisk (Taint.sourceName t) s = Flow.high
   ↔ (Taint.sourceName t, s) ∈ Flow.highRisk)
  ∧ (Flow.assessRisk (Taint.sourceName t) s = Flow.medium
     ↔ s ∈ ["innerHTML"; "document.write"] ∧ (Taint.sourceName t, s) ∉ Flow.highRisk).
Proof.
  intros Hx Hs.
  destruct (TaintMore.wf_run nodes Taint.new TaintMore.wf_new) as [Hrec _].
  destruct (Hrec _ _ Hx) as (_ & _ & Hsrc & _ & _ & Hk). rewrite Hs in Hk.
  destruct Hk as [_ Hsink].
  pose proof RiskFacts.registry_rated as Hall.
  rewrite Forall_forall in Hall. specialize (Hall _ Hsrc).
  rewrite Forall_forall in Hall. exact (Hall _ Hsink).
Qed.

Lemma X23_witness :
  (Flow.assessRisk "req.query" "fetch" = Flow.high
   ↔ ("req.query", "fetch") ∈ Flow.highRisk)
  ∧ (Flow.assessRisk "req.query" "fetch" = Flow.medium
     ↔ "fetch" ∈ ["innerHTML"; "document.write"] ∧ ("req.query", "fetch") ∉ Flow.highRisk).
Proof.
  apply (X23_run_risk [Scenario.decl_u; Scenario.call_fetch_u] "u"
           (Taint.mkTaintState "u" true (Some true) "req.query" "assignment" None []
              true (Some "fetch")) "fetch"); reflexivity.
Defined.

(** ** The tree walker, continued *)

Module TreeFacts.
Import Walker TreeSpec NodeCount.

Lemma sum_cons {A} (f : A → nat) (a : A) (l : list A) :
  list_sum (map f (a :: l)) = (f a + list_sum (map f l))%nat.
Proof. done. Qed.

Lemma tsize_expand (child c : tree) : c ∈ expand child → (tsize c ≤ tsize child)%nat.
Proof.
  destruct child as [v|cs|fs]; cbn [expand].
  - by intros ?%elem_of_nil.
  - intros Hc. cbn [tsize]. induction cs as [|c' cs IH]; [by apply elem_of_nil in Hc|].
    rewrite sum_cons. apply elem_of_cons in Hc as [->|Hc]; [lia|].
    specialize (IH Hc). lia.
  - by intros ->%list_elem_of_singleton.
Qed.

Lemma tsize_count_children (node c : tree) :
  c ∈ count_children node → (tsize c < tsize node)%nat.
Proof.
  destruct node as [v|items|fields]; cbn [count_children tsize].
  - by intros ?%elem_of_nil.
  - induction items as [|item items IH]; rewrite ?sum_cons; cbn [flat_map];
      [by intros ?%elem_of_nil|].
    intros [Hc|Hc]%elem_of_app.
    + apply tsize_expand in Hc. lia.
    + specialize (IH Hc). lia.
  - induction fields as [|[k v] fields IH]; rewrite ?sum_cons; cbn [flat_map fst snd];
      [by intros ?%elem_of_nil|].
    intros [Hc|Hc]%elem_of_app.
    + destruct (String.eqb k "span"); [by apply elem_of_nil in Hc|].
      apply tsize_expand in Hc. lia.
    + specialize (IH Hc). lia.
Qed.

Lemma direct_children_sublist (node : tree) :
  direct_children node `sublist_of` count_children node.
Proof.
  destruct node as [v|items|fields]; cbn [direct_children count_children]; [done|done|].
  induction fields as [|[k v] fields IH]; [done|]. cbn [flat_map fst snd].
  apply sublist_app; [|done]. unfold skipped.
  destruct (String.eqb k "span"); cbn; [done|].
  destruct (String.eqb k "ctxt"); [apply sublist_nil_l|done].
Qed.

Lemma tsize_direct_children (node c : tree) :
  c ∈ direct_children node → (tsize c < tsize node)%nat.
Proof.
  intros Hc. apply tsize_count_children.
  eapply elem_of_sublist; [exact Hc | apply direct_children_sublist].
Qed.

(** Induction on the size of the tree. *)
Lemma tree_size_ind (P : tree → Prop) :
  (∀ node, (∀ c, (tsize c < tsize node)%nat → P c) → P node) → ∀ node, P node.
Proof.
  intros Hstep node. remember (S (tsize node)) as n eqn:Hn.
  assert (tsize node < n)%nat as Hlt by lia. clear Hn. revert node Hlt.
  induction n as [|n IH]; intros node Hlt; [lia|].
  apply Hstep. intros c Hc. apply IH. lia.
Qed.

Lemma is_str_eq (node : tree) (s : string) :
  is_str node s = true → node = TPrim (VString s).
Proof.
  destruct node as [[]| |]; try done. cbn. by intros ->%String.eqb_eq.
Qed.

Lemma descendant_prefix root p n p' : descendant root p n p' → p `prefix_of` p'.
Proof.
  induction 1 as [|node p c n p' Hc Hd IH]; [done|].
  etransitivity; [|exact IH]. by apply prefix_app_r.
Qed.

Lemma visited_descendant (root : tree) : ∀ (p : list tree) (n : tree) (path : list tree),
  VisitCallExpression n path ∈ traverseAST root p →
  ∃ p', descendant root p n p'
        ∧ path = p' ++ [TPrim (VString "CallExpression")]
        ∧ get "type" n = TPrim (VString "CallExpression")
        ∧ is_object n = true.
Proof.
  induction root as [root IH] using tree_size_ind. intros p n path.
  rewrite WalkerFacts.traverseAST_unfold.
  destruct (is_object root) eqn:Hobj; [|by intros ?%elem_of_nil].
  intros [Hv|Hc]%elem_of_app.
  - unfold visit in Hv. apply elem_of_app in Hv as [Hv|Hv].
    + destruct (is_str (get "type" root) "CallExpression") eqn:Hcall;
        [|by apply elem_of_nil in Hv].
      apply list_elem_of_singleton in Hv. injection Hv as -> ->.
      apply is_str_eq in Hcall. exists p. rewrite Hcall. repeat split; try done. constructor.
    + destruct (_ || _); [|by apply elem_of_nil in Hv].
      by apply list_elem_of_singleton in Hv.
  - apply list_elem_of_In, in_flat_map in Hc as (c & Hin%list_elem_of_In & He%list_elem_of_In).
    destruct (IH c (tsize_direct_children _ _ Hin) _ _ _ He) as (p' & Hd & -> & Ht & Ho).
    exists p'. repeat split; try done. by eapply descendant_step.
Qed.

Lemma fold_left_flat_map {A B C} (f : A → C → A) (g : B → list C) (l : list B) :
  ∀ a, fold_left f (flat_map g l) a = fold_left (fun a x => fold_left f (g x) a) l a.
Proof.
  induction l as [|x l IH]; intros a; [done|]. cbn [flat_map fold_left].
  by rewrite fold_left_app, IH.
Qed.

Lemma fold_left_ext_all {A B} (f g : A → B → A) (l : list B) :
  (∀ a x, f a x = g a x) → ∀ a, fold_left f l a = fold_left g l a.
Proof.
  intros Hfg. induction l as [|x l IH]; intros a; [done|]. cbn. by rewrite Hfg, IH.
Qed.

(** One call of [countASTNodes]: the node itself, then the nodes it
    recurses into. *)
Lemma countASTNodes_unfold (node : tree) (count : nat) :
  countASTNodes node count
  = if is_object node
    then fold_left (fun count c => countASTNodes c count) (count_children node) (S count)
    else count.
Proof.
  destruct node as [v|items|fields]; [done| |]; cbn [is_object count_children].
  - cbn [countASTNodes]. rewrite fold_left_flat_map. apply fold_left_ext_all.
    by intros a [v|cs|fs].
  - cbn [countASTNodes]. rewrite fold_left_flat_map. apply fold_left_ext_all.
    intros a [k [v|cs|fs]]; cbn [fst snd]; by destruct (String.eqb k "span").
Qed.

Lemma fold_count_sum (l : list tree) :
  (∀ c, c ∈ l → ∀ a, countASTNodes c a = (a + countASTNodes c 0)%nat) →
  ∀ a, fold_left (fun count c => countASTNodes c count) l a
       = (a + list_sum (map (fun c => countASTNodes c 0) l))%nat.
Proof.
  induction l as [|c l IH]; intros Hacc a; [cbn; lia|].
  cbn [fold_left]. rewrite IH, sum_cons.
  - rewrite (Hacc c); [lia|]. apply elem_of_cons. by left.
  - intros c' Hc'. apply Hacc. apply elem_of_cons. by right.
Qed.

Lemma countASTNodes_acc (node : tree) : ∀ a,
  countASTNodes node a = (a + countASTNodes node 0)%nat.
Proof.
  induction node as [node IH] using tree_size_ind. intros a.
  rewrite (countASTNodes_unfold node a), (countASTNodes_unfold node 0).
  destruct (is_object node); [|lia].
  rewrite !fold_count_sum; [lia| |];
    intros c Hc; apply IH; by apply tsize_count_children.
Qed.

Lemma countASTNodes_sum (node : tree) :
  countASTNodes node 0
  = if is_object node
    then S (list_sum (map (fun c => countASTNodes c 0) (count_children node)))
    else 0%nat.
Proof.
  rewrite countASTNodes_unfold. destruct (is_object node); [|done].
  rewrite fold_count_sum; [done|]. intros c _. apply countASTNodes_acc.
Qed.

Lemma list_sum_sublist {A} (f : A → nat) (l1 l2 : list A) :
  l1 `sublist_of` l2 → (list_sum (map f l1) ≤ list_sum (map f l2))%nat.
Proof. induction 1; rewrite ?sum_cons; cbn; lia. Qed.

Lemma visit_length (node : tree) (path : list tree) : (length (visit node path) ≤ 1)%nat.
Proof.
  unfold visit. destruct (get "type" node) as [[| | | |s]| |]; try (cbn; lia).
  cbn [is_str JsVal.eq_str].
  destruct (String.eqb_spec s "CallExpression") as [->|]; cbn; [lia|].
  destruct (_ || _); cbn; lia.
Qed.

Lemma traverseAST_length (node : tree) : ∀ nodePath,
  (length (traverseAST node nodePath) ≤ countASTNodes node 0)%nat.
Proof.
  induction node as [node IH] using tree_size_ind. intros p.
  rewrite WalkerFacts.traverseAST_unfold, countASTNodes_sum.
  destruct (is_object node); [|done].
  rewrite length_app. pose proof (visit_length node (p ++ [get "type" node])) as Hv.
  pose proof (list_sum_sublist (fun c => countASTNodes c 0) _ _
                (direct_children_sublist node)) as Hsub.
  cut (length (flat_map (fun c => traverseAST c (p ++ [get "type" node]))
                           (direct_children node))
          ≤ list_sum (map (fun c => countASTNodes c 0) (direct_children node)))%nat; [lia|].
  clear Hsub Hv.
  { assert (∀ c, c ∈ direct_children node → (tsize c < tsize node)%nat) as Hsize
      by (intros c; apply tsize_direct_children).
    induction (direct_children node) as [|c l IHl]; [done|].
    cbn [flat_map]. rewrite length_app, sum_cons.
    pose proof (IH c (Hsize c ltac:(apply elem_of_cons; by left)) (p ++ [get "type" node])).
    assert (∀ c0, c0 ∈ l → (tsize c0 < tsize node)%nat) as Hsize'
      by (intros c0 Hc0; apply Hsize, elem_of_cons; by right).
    specialize (IHl Hsize'). lia. }
Qed.

End TreeFacts.

(** X24. Every call-expression visit of the walk is the visit of a node
    the walk arrives at from the root: it is an object whose [type] is
    ['CallExpression'], and the node path handed to the visitor is the
    chain of ancestor kinds, starting with the path the walk was given and
    ending in ['CallExpression']. *)
Theorem X24_visits_are_descendants
    (root : tree) (p : list tree) (n : tree) (path : list tree) :
  Walker.VisitCallExpression n path ∈ Walker.traverseAST root p →
  ∃ p', Walker.descendant root p n p'
        ∧ p `prefix_of` p'
        ∧ path = p' ++ [TPrim (VString "CallExpression")]
        ∧ Walker.get "type" n = TPrim (VString "CallExpression")
        ∧ Walker.is_object n = true.
Proof.
  intros (p' & Hd & Hp & Ht & Ho)%TreeFacts.visited_descendant.
  exists p'. repeat split; try done. by eapply TreeFacts.descendant_prefix.
Qed.

Lemma X24_witness :
  ∃ p', Walker.descendant (Walker.nest 2 Walker.call_leaf) [] Walker.call_leaf p'
        ∧ [] `prefix_of` p'
        ∧ [TPrim (VString "ExpressionStatement"); TPrim (VString "ExpressionStatement");
           TPrim (VString "CallExpression")]
          = p' ++ [TPrim (VString "CallExpression")]
        ∧ Walker.get "type" Walker.call_leaf = TPrim (VString "CallExpression")
        ∧ Walker.is_object Walker.call_leaf = true.
Proof.
  apply (X24_visits_are_descendants (Walker.nest 2 Walker.call_leaf) [] Walker.call_leaf).
  apply list_elem_of_singleton. reflexivity.
Defined.

(** X25. The node count bounds the walk: [traverseAST] hands the visitor
    at most as many events as [countASTNodes] counts nodes, and the count
    continues from the number it is given. *)
Theorem X25_node_count_bounds_walk (node : tree) (nodePath : list tree) (count : nat) :
  (length (Walker.traverseAST node nodePath) ≤ NodeCount.countASTNodes node 0)%nat
  ∧ NodeCount.countASTNodes node count = (count + NodeCount.countASTNodes node 0)%nat.
Proof.
  split; [apply TreeFacts.traverseAST_length | apply TreeFacts.countASTNodes_acc].
Qed.

(** [ctxt] is counted, but not walked. *)
Example count_ctxt :
  NodeCount.countASTNodes
    (TObject [("type", TPrim (VString "Identifier"));
              ("span", TObject [("start", TPrim (VNumber 1))]);
              ("ctxt", TObject [("type", TPrim (VString "CallExpression"))])]) 0 = 2%nat
  ∧ Walker.traverseAST
      (TObject [("type", TPrim (VString "Identifier"));
                ("span", TObject [("start", TPrim (VNumber 1))]);
                ("ctxt", TObject [("type", TPrim (VString "CallExpression"))])]) [] = [].
Proof. split; reflexivity. Qed.
